(** * Polling service and export tool: ingestion and normalisation core

    A shallow embedding of the polling service (identity canonicaliser,
    record normaliser, feed decoders, aggregates, paginated fetcher, poll
    cycle) and of the fetch loop of the export tool, with the properties
    that the design document states about them; then of the read routes
    and their seeding, of the rows the export tool writes, of the hours
    and the counter of the dashboard, and of the poll of the earlier
    service, with further properties that the code shows.

    Conventions of the embedding.
    - A JavaScript string is a [string]: a sequence of code units below 256.
    - A field that holds a string or is absent ([undefined]) is an
      [option string]; JSON [null] and non-string scalars are not modelled.
    - A [number] that may be [NaN] is an [option Z], [None] being [NaN].
    - A function that may throw returns a [result]. *)

From Stdlib Require Import Bool Arith ZArith Lia List Ascii String.
From Stdlib Require Import Permutation Sorted FinFun DecimalString SpecFloat.
Import ListNotations.

Local Open Scope string_scope.

(* ================================================================== *)
(** ** Strings as the regular expressions of the source see them *)

Module Str.

Definition code (c : ascii) : nat := nat_of_ascii c.

(** [\d] *)
Definition isDigit (c : ascii) : bool :=
  (48 <=? code c)%nat && (code c <=? 57)%nat.

(** [\w]: what [\b] separates from the rest *)
Definition isWordChar (c : ascii) : bool :=
  isDigit c
  || ((65 <=? code c)%nat && (code c <=? 90)%nat)
  || ((97 <=? code c)%nat && (code c <=? 122)%nat)
  || (code c =? 95)%nat.

(** [\s], also what [trim] removes (code units below 256) *)
Definition isSpace (c : ascii) : bool :=
  ((9 <=? code c)%nat && (code c <=? 13)%nat)
  || (code c =? 32)%nat || (code c =? 160)%nat.

(** what [.] refuses *)
Definition isLineTerminator (c : ascii) : bool :=
  (code c =? 10)%nat || (code c =? 13)%nat.

Definition nonEmpty (s : string) : bool :=
  match s with EmptyString => false | String _ _ => true end.

Fixpoint allDigits (s : string) : bool :=
  match s with
  | EmptyString => true
  | String c r => isDigit c && allDigits r
  end.

(** the longest prefix of digits, and what follows it *)
Fixpoint spanDigits (s : string) : string * string :=
  match s with
  | EmptyString => (EmptyString, EmptyString)
  | String c r =>
      if isDigit c
      then let (ds, tl) := spanDigits r in (String c ds, tl)
      else (EmptyString, s)
  end.

(** [(?:\b|$)] right after a digit *)
Definition boundaryOrEnd (tl : string) : bool :=
  match tl with
  | EmptyString => true
  | String c _ => negb (isWordChar c)
  end.

(** ASCII case folding, as the [i] flag does without the [u] flag *)
Definition lower (c : ascii) : ascii :=
  if ((65 <=? code c)%nat && (code c <=? 90)%nat)
  then ascii_of_nat (code c + 32) else c.

Definition eqbCI (a b : ascii) : bool := Ascii.eqb (lower a) (lower b).

(** [dropPrefix eq p s]: what is left of [s] after its prefix [p] *)
Fixpoint dropPrefix (eq : ascii -> ascii -> bool) (p s : string)
  : option string :=
  match p with
  | EmptyString => Some s
  | String a p' =>
      match s with
      | EmptyString => None
      | String b s' => if eq a b then dropPrefix eq p' s' else None
      end
  end.

(** [splitAt eq p s = Some (before, after)]: the leftmost occurrence of
    [p] in [s] *)
Fixpoint splitAt (eq : ascii -> ascii -> bool) (p s : string)
  : option (string * string) :=
  match dropPrefix eq p s with
  | Some after => Some (EmptyString, after)
  | None =>
      match s with
      | EmptyString => None
      | String c r =>
          match splitAt eq p r with
          | Some (b, a) => Some (String c b, a)
          | None => None
          end
      end
  end.

Fixpoint dropSpaces (s : string) : string :=
  match s with
  | EmptyString => EmptyString
  | String c r => if isSpace c then dropSpaces r else s
  end.

Fixpoint allSpaces (s : string) : bool :=
  match s with
  | EmptyString => true
  | String c r => isSpace c && allSpaces r
  end.

Fixpoint dropTrailingSpaces (s : string) : string :=
  match s with
  | EmptyString => EmptyString
  | String c r =>
      if allSpaces s then EmptyString else String c (dropTrailingSpaces r)
  end.

(** [String.prototype.trim] *)
Definition trim (s : string) : string :=
  dropTrailingSpaces (dropSpaces s).

(** [String.prototype.split] on a one-character separator *)
Fixpoint split (sep : ascii) (s : string) : list string :=
  match s with
  | EmptyString => [EmptyString]
  | String c r =>
      if Ascii.eqb c sep then EmptyString :: split sep r
      else match split sep r with
           | [] => [String c EmptyString]
           | h :: t => String c h :: t
           end
  end.

(** [String.prototype.includes] *)
Definition includes (s p : string) : bool :=
  match splitAt Ascii.eqb p s with Some _ => true | None => false end.

End Str.

(* ================================================================== *)
(** ** Values, truthiness and exceptions *)

Module Js.

(** [!!v] for a string or [undefined] *)
Definition truthy (v : option string) : bool :=
  match v with Some s => Str.nonEmpty s | None => false end.

(** [a || b] *)
Definition or (a b : option string) : option string :=
  if truthy a then a else b.

(** [String(v)] *)
Definition toStr (v : option string) : string :=
  match v with Some s => s | None => "undefined" end.

Inductive error : Type :=
| RangeError (msg : string)
| SyntaxError (msg : string)
| TypeError (msg : string)
| Error (msg : string).

Inductive result (A : Type) : Type :=
| Ok (a : A)
| Throw (e : error).
Arguments Ok {A} a.
Arguments Throw {A} e.

Definition bind {A B} (m : result A) (k : A -> result B) : result B :=
  match m with Ok a => k a | Throw e => Throw e end.

(** [Array.prototype.map] with a callback that may throw: the first
    exception, in index order, ends the call *)
Fixpoint mapM {A B} (f : A -> result B) (l : list A) : result (list B) :=
  match l with
  | [] => Ok []
  | x :: r =>
      bind (f x) (fun y => bind (mapM f r) (fun ys => Ok (y :: ys)))
  end.

End Js.

Notation "x <- m ;; k" := (Js.bind m (fun x => k))
  (at level 61, m at next level, right associativity).

(* ================================================================== *)
(** ** The record of a post *)

(** A stored or fetched record.  [extra] stands for every own property
    other than the five the service reads; object spread copies it. *)
Record Post : Type := mkPost {
  id : option string;
  timestamp : option string;
  url : option string;
  uri : option string;
  content : option string;
  extra : list (string * string)
}.

Definition setId (p : Post) (v : string) : Post :=
  mkPost (Some v) (timestamp p) (url p) (uri p) (content p) (extra p).

Definition setTimestamp (p : Post) (v : option string) : Post :=
  mkPost (id p) v (url p) (uri p) (content p) (extra p).

Definition setUrl (p : Post) (v : option string) : Post :=
  mkPost (id p) (timestamp p) v (uri p) (content p) (extra p).

Definition setUri (p : Post) (v : option string) : Post :=
  mkPost (id p) (timestamp p) (url p) v (content p) (extra p).

Definition setContent (p : Post) (v : option string) : Post :=
  mkPost (id p) (timestamp p) (url p) (uri p) v (extra p).

(* ================================================================== *)
(** ** Identity canonicaliser *)

(** the scan of [/\/(\d+)(?:\b|$)/]: the first slash that is followed by
    a run of digits which ends the string or stops at a non-word
    character; a shorter run never helps, a digit follows it *)
Fixpoint matchSlashDigits (s : string) : string :=
  match s with
  | EmptyString => EmptyString
  | String c r =>
      if Ascii.eqb c "/"
      then let (ds, tl) := Str.spanDigits r in
           if Str.nonEmpty ds && Str.boundaryOrEnd tl then ds
           else matchSlashDigits r
      else matchSlashDigits r
  end.

Definition extractNumericId (value : option string) : string :=
  if negb (Js.truthy value) then ""
  else matchSlashDigits (Js.toStr value).

Definition canonicalId (post : Post) : string :=
  let direct := if Js.truthy (id post) then Js.toStr (id post) else "" in
  if Str.nonEmpty direct && Str.allDigits direct then direct
  else
    let fromDirect := extractNumericId (Some direct) in
    if Str.nonEmpty fromDirect then fromDirect
    else
      let fromUrl := extractNumericId (Js.or (url post) (uri post)) in
      if Str.nonEmpty fromUrl then fromUrl
      else if Str.nonEmpty direct then direct
           else Js.toStr (Js.or (Js.or (url post) (uri post)) (Some "")).

(* ================================================================== *)
(** ** Dates *)

(** The two services of the engine's [Date] that read or write text.
    [date_parse s] is [Date.parse(s)], [None] standing for [NaN];
    [to_iso t] is [toISOString] of a date whose time value is [t].
    What [Date.parse] accepts beyond the ISO format is left to the engine
    by the language standard, so both are parameters of the development;
    [Iso] below gives an instance. *)
Class DateModel : Type := {
  date_parse : string -> option Z;
  to_iso : Z -> string
}.

(** the largest time value of a [Date], in milliseconds *)
Definition maxTime : Z := 8640000000000000.

Definition validTime (t : Z) : Prop := (- maxTime <= t <= maxTime)%Z.

(** What the language standard promises of every engine: [Date.parse]
    yields time values only, and reads back what [toISOString] wrote. *)
Class DateLaws (D : DateModel) : Prop := {
  parse_valid : forall s t, date_parse s = Some t -> validTime t;
  parse_to_iso : forall t, validTime t -> date_parse (to_iso t) = Some t
}.

Module JsDate.
Section WithDates.
Context {D : DateModel}.

(** [Date.parse(v)] and the time value of [new Date(v)], for a string
    or [undefined]: the text [undefined] is no date *)
Definition parse (v : option string) : option Z :=
  match v with Some s => date_parse s | None => None end.

Definition isNaN (tv : option Z) : bool :=
  match tv with Some _ => false | None => true end.

(** [Date.prototype.toISOString] *)
Definition toISOString (tv : option Z) : Js.result string :=
  match tv with
  | Some t => Js.Ok (to_iso t)
  | None => Js.Throw (Js.RangeError "Invalid time value")
  end.

(** [a - b] with [a > 0] asked of it, and [a > b] itself, on time
    values: false as soon as one side is [NaN] *)
Definition gt (a b : option Z) : bool :=
  match a, b with
  | Some x, Some y => (y <? x)%Z
  | _, _ => false
  end.

Definition msPerDay : Z := 86400000.
Definition msPerHour : Z := 3600000.
Definition Day (t : Z) : Z := (t / msPerDay)%Z.
Definition HourFromTime (t : Z) : Z := ((t / msPerHour) mod 24)%Z.

(** [setUTCMinutes(0, 0, 0)] on a valid time value *)
Definition setUTCMinutes0 (t : Z) : Z :=
  (Day t * msPerDay + HourFromTime t * msPerHour)%Z.

End WithDates.
End JsDate.

(* ================================================================== *)
(** ** [Map] with string keys: entries in insertion order *)

Module JsMap.
Section WithValue.
Context {V : Type}.

Definition t : Type := list (string * V).

Fixpoint get (k : string) (m : list (string * V)) : option V :=
  match m with
  | [] => None
  | (k', v) :: r => if String.eqb k k' then Some v else get k r
  end.

(** [set] keeps the place of a key that is already there *)
Fixpoint set (k : string) (v : V) (m : list (string * V))
  : list (string * V) :=
  match m with
  | [] => [(k, v)]
  | (k', v') :: r =>
      if String.eqb k k' then (k, v) :: r else (k', v') :: set k v r
  end.

Definition values (m : list (string * V)) : list V := map snd m.
Definition keys (m : list (string * V)) : list string := map fst m.

End WithValue.
End JsMap.

(* ================================================================== *)
(** ** [Array.prototype.sort] *)

(** The sort is stable.  [after a b] says that the comparator is positive
    on [(a, b)]; a [NaN] from the comparator counts as zero.  When the
    comparator is not a consistent one (here: when some timestamps parse
    and others do not) the standard leaves the order to the engine; the
    model is then the straight insertion below. *)
Section Sort.
Context {A : Type} (after : A -> A -> bool).

Fixpoint insertSorted (x : A) (l : list A) : list A :=
  match l with
  | [] => [x]
  | y :: r => if after x y then y :: insertSorted x r else x :: l
  end.

Definition jsSort (l : list A) : list A :=
  fold_right insertSorted [] l.

End Sort.

(* ================================================================== *)
(** ** Record normaliser *)

Section Normalizer.
Context {D : DateModel}.

(** the collision branch of the loop body of [normalizePosts] *)
Definition mergePost (existing normalized : Post) : Post :=
  let merged := existing in
  let existingTime := JsDate.parse (timestamp existing) in
  let incomingTime := JsDate.parse (timestamp normalized) in
  let merged :=
    if negb (JsDate.isNaN incomingTime)
       && (JsDate.isNaN existingTime
           || JsDate.gt incomingTime existingTime)
    then setTimestamp merged (timestamp normalized) else merged in
  let merged :=
    if negb (Js.truthy (url merged)) && Js.truthy (url normalized)
    then setUrl merged (url normalized) else merged in
  let merged :=
    if negb (Js.truthy (uri merged)) && Js.truthy (uri normalized)
    then setUri merged (uri normalized) else merged in
  let merged :=
    if negb (Js.truthy (content merged)) && Js.truthy (content normalized)
    then setContent merged (content normalized) else merged in
  merged.

(** one turn of the loop of [normalizePosts] *)
Definition normalizeStep (byId : list (string * Post)) (post : Post)
  : list (string * Post) :=
  let id := canonicalId post in
  if negb (Str.nonEmpty id) then byId
  else
    let normalized := setId post id in
    match JsMap.get id byId with
    | None => JsMap.set id normalized byId
    | Some existing => JsMap.set id (mergePost existing normalized) byId
    end.

(** the comparator [new Date(a.timestamp) - new Date(b.timestamp)] *)
Definition laterPost (a b : Post) : bool :=
  JsDate.gt (JsDate.parse (timestamp a)) (JsDate.parse (timestamp b)).

Definition normalizePosts (posts : list Post) : list Post :=
  let byId := fold_left normalizeStep posts [] in
  jsSort laterPost (JsMap.values byId).

End Normalizer.

(* ================================================================== *)
(** ** Aggregates *)

Record HourlyBucket : Type := mkBucket { hour : string; count : nat }.

Section Aggregates.
Context {D : DateModel}.

Definition toHourKey (ts : option string) : Js.result string :=
  let date := JsDate.parse ts in
  let date := option_map JsDate.setUTCMinutes0 date in
  JsDate.toISOString date.

(** the loop of [computeHourly]: [(buckets.get(hourKey) || 0) + 1] *)
Fixpoint countHours (posts : list Post) (buckets : list (string * nat))
  : Js.result (list (string * nat)) :=
  match posts with
  | [] => Js.Ok buckets
  | post :: r =>
      hourKey <- toHourKey (timestamp post) ;;
      let seen := match JsMap.get hourKey buckets with
                  | Some n => n
                  | None => 0
                  end in
      countHours r (JsMap.set hourKey (seen + 1) buckets)
  end.

Definition laterBucket (a b : HourlyBucket) : bool :=
  JsDate.gt (date_parse (hour a)) (date_parse (hour b)).

Definition computeHourly (posts : list Post)
  : Js.result (list HourlyBucket) :=
  let normalized := normalizePosts posts in
  buckets <- countHours normalized [] ;;
  Js.Ok (jsSort laterBucket
           (map (fun e => mkBucket (fst e) (snd e)) buckets)).

(** the reducer of [computeLatest] *)
Definition pickLater (latest : option Post) (post : Post) : option Post :=
  match latest with
  | None => Some post
  | Some l =>
      if JsDate.gt (JsDate.parse (timestamp post))
                   (JsDate.parse (timestamp l))
      then Some post else Some l
  end.

Definition computeLatest (posts : list Post) : option Post :=
  let normalized := normalizePosts posts in
  match normalized with
  | [] => None
  | _ => fold_left pickLater normalized None
  end.

End Aggregates.

(* ================================================================== *)
(** ** Feed decoders *)

(** One element of the JSON array of statuses, as far as the service and
    the export tool read it.  An element that is no object has every
    field absent. *)
Record RawStatus : Type := mkRaw {
  raw_created_at : option string;
  raw_id : option string;
  raw_url : option string;
  raw_uri : option string;
  raw_content : option string;
  raw_reblog : bool
}.

(** what [JSON.parse] gave for a page *)
Inductive Payload : Type :=
| NotArray
| Statuses (items : list RawStatus).

Section Decoders.
Context {D : DateModel}.

(** the callback that [parseStatusList] maps over the array; [None] is
    its [null] *)
Definition statusOfItem (item : RawStatus) : Js.result (option Post) :=
  let timestamp := raw_created_at item in
  let id := Js.or (Js.or (raw_id item) (raw_url item)) (raw_uri item) in
  let url := Js.or (Js.or (raw_url item) (raw_uri item)) (Some "") in
  let content := Js.or (raw_content item) (Some "") in
  if negb (Js.truthy timestamp) || negb (Js.truthy id) then Js.Ok None
  else
    iso <- JsDate.toISOString (JsDate.parse timestamp) ;;
    if JsDate.isNaN (date_parse iso) then Js.Ok None
    else Js.Ok (Some (mkPost (Some (Js.toStr id)) (Some iso)
                             url None content [])).

(** [.filter(Boolean)] on the mapped array *)
Fixpoint filterBoolean {A} (l : list (option A)) : list A :=
  match l with
  | [] => []
  | Some a :: r => a :: filterBoolean r
  | None :: r => filterBoolean r
  end.

Definition parseStatusList (payload : Payload) : Js.result (list Post) :=
  match payload with
  | NotArray => Js.Ok []
  | Statuses items =>
      mapped <- Js.mapM statusOfItem items ;;
      Js.Ok (filterBoolean mapped)
  end.

(** One match of [<open>([\s\S]*?)<close>] with the [i] flag, looked
    for from the start of [s]: the captured text and what follows the
    match.  The leftmost opening tag decides: a closing tag found after
    a later one is found after it too. *)
Definition matchBetween (open close s : string) : option (string * string) :=
  match Str.splitAt Str.eqbCI open s with
  | None => None
  | Some (_, inner) => Str.splitAt Str.eqbCI close inner
  end.

Fixpoint noLineTerminator (s : string) : bool :=
  match s with
  | EmptyString => true
  | String c r => negb (Str.isLineTerminator c) && noLineTerminator r
  end.

(** [value.replace(/<!\[CDATA\[(.*?)\]\]>/g, "$1")]; every match eats
    at least one character, so [fuel] above the length of [s] is never
    used up *)
Fixpoint unwrapCdata (fuel : nat) (s : string) : string :=
  match fuel with
  | O => s
  | S fuel' =>
      match s with
      | EmptyString => EmptyString
      | String c r =>
          let here :=
            match Str.dropPrefix Ascii.eqb "<![CDATA[" s with
            | None => None
            | Some inner =>
                match Str.splitAt Ascii.eqb "]]>" inner with
                | Some (captured, rest) =>
                    if noLineTerminator captured
                    then Some (captured, rest) else None
                | None => None
                end
            end in
          match here with
          | Some (captured, rest) => captured ++ unwrapCdata fuel' rest
          | None => String c (unwrapCdata fuel' r)
          end
      end
  end.

Definition normalizeCdata (value : string) : string :=
  if negb (Str.nonEmpty value) then ""
  else Str.trim (unwrapCdata (String.length value) value).

Definition extractTag (tagName blob : string) : string :=
  match matchBetween ("<" ++ tagName ++ ">") ("</" ++ tagName ++ ">") blob with
  | Some (captured, _) => normalizeCdata captured
  | None => ""
  end.

(** the body of the loop of [parseFeed] on one chunk: the items with
    the chunk's record pushed, when it has one *)
Definition feedItem (chunk : string) (items : list Post)
  : Js.result (list Post) :=
  let guid := extractTag "guid" chunk in
  let link := extractTag "link" chunk in
  let pubDate := extractTag "pubDate" chunk in
  let id := if Str.nonEmpty guid then guid else link in
  if Str.nonEmpty id && Str.nonEmpty pubDate then
    timestamp <- JsDate.toISOString (date_parse pubDate) ;;
    if negb (JsDate.isNaN (date_parse timestamp))
    then Js.Ok (items ++ [mkPost (Some id) (Some timestamp)
                                 None None None []])%list
    else Js.Ok items
  else Js.Ok items.

(** the loop of [parseFeed] over the matches of the item pattern, each
    looked for where the one before ended *)
Fixpoint parseFeedFrom (fuel : nat) (xml : string) (items : list Post)
  : Js.result (list Post) :=
  match fuel with
  | O => Js.Ok items
  | S fuel' =>
      match matchBetween "<item>" "</item>" xml with
      | None => Js.Ok items
      | Some (chunk, rest) =>
          items' <- feedItem chunk items ;;
          parseFeedFrom fuel' rest items'
      end
  end.

Definition parseFeed (xml : string) : Js.result (list Post) :=
  parseFeedFrom (String.length xml) xml [].

End Decoders.

(* ================================================================== *)
(** ** An instance of the dates: the ISO format in UTC *)

(** [Iso.parse] reads the date-time format of the language standard with
    the UTC designator, [YYYY-MM-DDTHH:mm:ss.sssZ] (milliseconds
    optional, years beyond four digits with a sign and six digits), and
    takes every other text as no date.  [Iso.toISOString] writes that
    format.  Day numbers follow the proleptic Gregorian calendar. *)
Module Iso.

Local Open Scope Z_scope.

(** days since 1970-01-01 of a calendar date; a day number past the end
    of its month runs on into the next one *)
Definition daysFromCivil (y m d : Z) : Z :=
  let y := if m <=? 2 then y - 1 else y in
  let era := y / 400 in
  let yoe := y - era * 400 in
  let mp := if 2 <? m then m - 3 else m + 9 in
  let doy := (153 * mp + 2) / 5 + d - 1 in
  let doe := yoe * 365 + yoe / 4 - yoe / 100 + doy in
  era * 146097 + doe - 719468.

(** year of era, day of year, shifted month and day of month of a day
    of a 400-year era *)
Definition eraFields (doe : Z) : Z * Z * Z * Z :=
  let yoe := (doe - doe / 1460 + doe / 36524 - doe / 146096) / 365 in
  let doy := doe - (365 * yoe + yoe / 4 - yoe / 100) in
  let mp := (5 * doy + 2) / 153 in
  let d := doy - (153 * mp + 2) / 5 + 1 in
  (yoe, doy, mp, d).

Definition civilFromDays (z : Z) : Z * Z * Z :=
  let z := z + 719468 in
  let era := z / 146097 in
  let doe := z mod 146097 in
  let '(yoe, _, mp, d) := eraFields doe in
  let m := if mp <? 10 then mp + 3 else mp - 9 in
  let y := yoe + era * 400 in
  ((if m <=? 2 then y + 1 else y), m, d).

Definition digitChar (d : Z) : ascii := ascii_of_nat (48 + Z.to_nat d).
Definition digitVal (c : ascii) : Z := Z.of_nat (Str.code c) - 48.

(** the last [k] decimal digits of [n] *)
Fixpoint pad (k : nat) (n : Z) : string :=
  match k with
  | O => EmptyString
  | S k' => (pad k' (n / 10) ++ String (digitChar (n mod 10)) "")%string
  end.

(** exactly [k] digits, read after [acc] *)
Fixpoint takeDigits (k : nat) (acc : Z) (s : string) : option (Z * string) :=
  match k with
  | O => Some (acc, s)
  | S k' =>
      match s with
      | String c r =>
          if Str.isDigit c then takeDigits k' (acc * 10 + digitVal c) r
          else None
      | EmptyString => None
      end
  end.

Definition expect (c : ascii) (s : string) : option string :=
  match s with
  | String c' r => if Ascii.eqb c c' then Some r else None
  | EmptyString => None
  end.

Definition bindO {A B} (m : option A) (k : A -> option B) : option B :=
  match m with Some a => k a | None => None end.

Local Notation "' p <-? m ;; k" := (bindO m (fun p => k))
  (at level 61, p pattern, m at next level, right associativity).
Local Notation "x <-? m ;; k" := (bindO m (fun x => k))
  (at level 61, m at next level, right associativity).

Definition takeYear (s : string) : option (Z * string) :=
  match s with
  | String c r =>
      if Ascii.eqb c "+" then takeDigits 6 0 r
      else if Ascii.eqb c "-" then
        '(y, r') <-? takeDigits 6 0 r ;;
        if y =? 0 then None else Some (- y, r')
      else takeDigits 4 0 s
  | EmptyString => None
  end.

Definition takeMillis (s : string) : option (Z * string) :=
  match s with
  | String "." r => takeDigits 3 0 r
  | _ => Some (0, s)
  end.

Definition inRange (t : Z) : bool :=
  (- maxTime <=? t) && (t <=? maxTime).

Definition parse (s : string) : option Z :=
  '(y, s) <-? takeYear s ;;
  s <-? expect "-" s ;;
  '(m, s) <-? takeDigits 2 0 s ;;
  s <-? expect "-" s ;;
  '(d, s) <-? takeDigits 2 0 s ;;
  s <-? expect "T" s ;;
  '(hh, s) <-? takeDigits 2 0 s ;;
  s <-? expect ":" s ;;
  '(mi, s) <-? takeDigits 2 0 s ;;
  s <-? expect ":" s ;;
  '(ss, s) <-? takeDigits 2 0 s ;;
  '(ms, s) <-? takeMillis s ;;
  s <-? expect "Z" s ;;
  match s with
  | EmptyString =>
      if (1 <=? m) && (m <=? 12) && (1 <=? d) && (d <=? 31)
         && (hh <=? 23) && (mi <=? 59) && (ss <=? 59)
      then
        let t := daysFromCivil y m d * 86400000
                 + hh * 3600000 + mi * 60000 + ss * 1000 + ms in
        if inRange t then Some t else None
      else None
  | String _ _ => None
  end.

Definition yearText (y : Z) : string :=
  if (0 <=? y) && (y <=? 9999) then pad 4 y
  else ((if (y <? 0)%Z then "-" else "+") ++ pad 6 (Z.abs y))%string.

Definition toISOString (t : Z) : string :=
  let days := t / 86400000 in
  let ms := t mod 86400000 in
  let '(y, m, d) := civilFromDays days in
  (yearText y ++ "-" ++ pad 2 m ++ "-" ++ pad 2 d
   ++ "T" ++ pad 2 (ms / 3600000)%Z
   ++ ":" ++ pad 2 (ms / 60000 mod 60)%Z
   ++ ":" ++ pad 2 (ms / 1000 mod 60)%Z
   ++ "." ++ pad 3 (ms mod 1000)%Z ++ "Z")%string.

Definition model : DateModel :=
  {| date_parse := parse; to_iso := toISOString |}.

End Iso.

(* ================================================================== *)
(** ** The network *)

(** A response, as far as the two fetch loops read it.  [resp_json]
    is what [JSON.parse] makes of the body, [None] when it throws. *)
Record Response : Type := mkResponse {
  resp_status : Z;
  resp_contentType : option string;
  resp_link : option string;
  resp_retryAfter : option string;
  resp_body : string;
  resp_json : option Payload
}.

Definition resp_ok (r : Response) : bool :=
  ((200 <=? resp_status r) && (resp_status r <=? 299))%Z.

(** What one call of [fetch] meets.  The network is a script of such
    events; a script that has run out is a network that fails. *)
Inductive NetEvent : Type :=
| NetworkFailure
| Reply (r : Response).

Definition dquote : ascii := ascii_of_nat 34.

(** the text up to the first [stop], and what follows from [stop] on *)
Fixpoint spanUntil (stop : ascii) (s : string) : string * string :=
  match s with
  | EmptyString => (EmptyString, EmptyString)
  | String c r =>
      if Ascii.eqb c stop then (EmptyString, s)
      else let (a, b) := spanUntil stop r in (String c a, b)
  end.

(** The pattern of [parseLinkHeader], tried right after a [<]: a url
    with no [>] in it and not empty, then [>;], blanks, [rel=] and a
    name in double quotes, not empty. *)
Definition linkHere (s : string) : option (string * string) :=
  let (url, tl) := spanUntil ">" s in
  if negb (Str.nonEmpty url) then None
  else
    match Str.dropPrefix Ascii.eqb ">;" tl with
    | None => None
    | Some tl =>
        match Str.dropPrefix Ascii.eqb ("rel=" ++ String dquote "")
                (Str.dropSpaces tl) with
        | None => None
        | Some tl =>
            let (rel, tl) := spanUntil dquote tl in
            if Str.nonEmpty rel && Str.nonEmpty tl then Some (url, rel)
            else None
        end
    end.

(** the first match of the pattern in one part of the header *)
Fixpoint matchLink (part : string) : option (string * string) :=
  match part with
  | EmptyString => None
  | String c r =>
      if Ascii.eqb c "<"
      then match linkHere r with
           | Some m => Some m
           | None => matchLink r
           end
      else matchLink r
  end.

(** [parseLinkHeader]: the properties that the reducer gives the object
    it fills, by name.  The assignment [links[rel] = url] with [__proto__]
    for [rel] goes to the setter of the prototype, which ignores a
    string: it gives the object no property.  What the callers read is
    [links.next], a name the object does not inherit: the entry under
    [next] here, or [undefined]. *)
Definition parseLinkHeader (header : option string) : list (string * string) :=
  if negb (Js.truthy header) then []
  else
    fold_left
      (fun links part =>
         match matchLink part with
         | Some (url, rel) =>
             if String.eqb rel "__proto__" then links
             else JsMap.set rel url links
         | None => links
         end)
      (Str.split "," (Js.toStr header)) [].

(** [Number.parseInt(s, 10)]: blanks, a sign, then the digits there are *)
Fixpoint digitsValue (acc : Z) (s : string) : Z :=
  match s with
  | String c r =>
      if Str.isDigit c then digitsValue (acc * 10 + Iso.digitVal c) r else acc
  | EmptyString => acc
  end.

Definition startsWithDigit (s : string) : bool :=
  match s with String c _ => Str.isDigit c | EmptyString => false end.

Definition parseInt (s : string) : option Z :=
  let s := Str.dropSpaces s in
  let (neg, s) :=
    match s with
    | String "-" r => (true, r)
    | String "+" r => (false, r)
    | _ => (false, s)
    end in
  if startsWithDigit s
  then Some (if neg then (- digitsValue 0 s)%Z else digitsValue 0 s)
  else None.

(* ================================================================== *)
(** ** The polling service: paginated fetch and poll cycle *)

(** the persisted document *)
Inductive Disk : Type :=
| NoFile
| Unreadable (e : Js.error)
| Document (posts : option (list Post)).

Record Config : Type := mkConfig {
  SOURCE_URL : string;
  POLL_INTERVAL_MS : Z;
  HISTORY_WINDOW_HOURS : Z;
  MAX_STATUS_PAGES : Z
}.

Record World : Type := mkWorld {
  net : list NetEvent;
  requested : list string;
  clock : Z;
  disk : Disk;
  writeFault : option Js.error;
  lastPollAt : option string;
  console : list Js.error
}.

Definition M (A : Type) : Type := World -> Js.result A * World.

Definition ret {A} (a : A) : M A := fun w => (Js.Ok a, w).
Definition throw {A} (e : Js.error) : M A := fun w => (Js.Throw e, w).
Definition bindM {A B} (m : M A) (k : A -> M B) : M B :=
  fun w => match m w with
           | (Js.Ok a, w') => k a w'
           | (Js.Throw e, w') => (Js.Throw e, w')
           end.
Definition lift {A} (r : Js.result A) : M A := fun w => (r, w).

Notation "x <~ m ;; k" := (bindM m (fun x => k))
  (at level 61, m at next level, right associativity).

(** [await fetch(url, { headers })]; the scripted network does not look
    at the headers *)
Definition fetch (url : string) : M Response :=
  fun w =>
    let w' := mkWorld (tl (net w)) (requested w ++ [url]) (clock w)
                      (disk w) (writeFault w) (lastPollAt w) (console w) in
    match net w with
    | Reply r :: _ => (Js.Ok r, w')
    | NetworkFailure :: _ | [] => (Js.Throw (Js.TypeError "fetch failed"), w')
    end.

(** a number put into a template text *)
Definition numberText (n : Z) : string :=
  NilZero.string_of_int (Z.to_int n).

Section Service.
Context {D : DateModel} (cfg : Config).

(** [Math.min(...items.map(...))]: [NaN] as soon as one of them is *)
Fixpoint minTime (items : list Post) : option Z :=
  match items with
  | [] => None
  | [p] => JsDate.parse (timestamp p)
  | p :: r =>
      match JsDate.parse (timestamp p), minTime r with
      | Some a, Some b => Some (Z.min a b)
      | _, _ => None
      end
  end.

Definition shouldFetchMore (now : Z) (items : list Post) : bool :=
  match items with
  | [] => false
  | _ =>
      match minTime items with
      | None => false
      | Some oldest =>
          (now - oldest <? HISTORY_WINDOW_HOURS cfg * 60 * 60 * 1000)%Z
      end
  end.

(** The loop of [fetchStatusPages], [pages] turns of it being left
    before [page] reaches [MAX_STATUS_PAGES]. *)
Fixpoint fetchPagesFrom (pages : nat) (pageUrl : option string)
         (collected : list Post) : M (list Post) :=
  match pages with
  | O => ret collected
  | S pages' =>
      if negb (Js.truthy pageUrl) then ret collected
      else
        response <~ fetch (Js.toStr pageUrl) ;;
        if negb (resp_ok response)
        then throw (Js.Error ("Feed request failed: "
                              ++ numberText (resp_status response)))
        else
          let contentType :=
            Js.toStr (Js.or (resp_contentType response) (Some "")) in
          if negb (Str.includes contentType "application/json")
          then throw (Js.Error "Expected JSON response from Truth Social API")
          else
            match resp_json response with
            | None =>
                throw (Js.Error "Failed to parse Truth Social JSON response")
            | Some payload =>
                items <~ lift (parseStatusList payload) ;;
                match items with
                | [] => ret collected
                | _ =>
                    let collected := (collected ++ items)%list in
                    let links := parseLinkHeader (resp_link response) in
                    let pageUrl := JsMap.get "next" links in
                    fun w =>
                      if negb (shouldFetchMore (clock w) collected)
                      then ret collected w
                      else fetchPagesFrom pages' pageUrl collected w
                end
            end
  end.

Definition fetchStatusPages : M (list Post) :=
  fetchPagesFrom (Z.to_nat (MAX_STATUS_PAGES cfg))
                 (Some (SOURCE_URL cfg)) [].

(** [loadData] *)
Definition loadData : M (list Post) :=
  fun w =>
    match disk w with
    | NoFile => (Js.Ok [], w)
    | Unreadable e => (Js.Throw e, w)
    | Document (Some posts) => (Js.Ok posts, w)
    | Document None => (Js.Ok [], w)
    end.

(** [saveData] *)
Definition saveData (posts : list Post) : M unit :=
  fun w =>
    match writeFault w with
    | Some e => (Js.Throw e, w)
    | None =>
        (Js.Ok tt,
         mkWorld (net w) (requested w) (clock w) (Document (Some posts))
                 (writeFault w) (lastPollAt w) (console w))
    end.

(** what [pollFeed] does up to the point where it holds [incoming] *)
Definition fetchIncoming : M (list Post) :=
  if Str.includes (SOURCE_URL cfg) "/api/" then fetchStatusPages
  else
    response <~ fetch (SOURCE_URL cfg) ;;
    if negb (resp_ok response)
    then throw (Js.Error ("Feed request failed: "
                          ++ numberText (resp_status response)))
    else
      let isJson :=
        match resp_contentType response with
        | Some ct => Str.includes ct "application/json"
        | None => false
        end in
      if isJson then
        match resp_json response with
        | None => throw (Js.SyntaxError "Unexpected token")
        | Some payload => lift (parseStatusList payload)
        end
      else lift (parseFeed (resp_body response)).

(** the [try] block of [pollFeed] *)
Definition pollBody : M unit :=
  incoming <~ fetchIncoming ;;
  _ <~ match incoming with
       | [] => ret tt
       | _ =>
           posts <~ loadData ;;
           let merged := normalizePosts (posts ++ incoming) in
           saveData merged
       end ;;
  fun w =>
    (Js.Ok tt,
     mkWorld (net w) (requested w) (clock w) (disk w) (writeFault w)
             (Some (to_iso (clock w))) (console w)).

(** [pollFeed]: the [catch] block writes to the console and returns *)
Definition pollFeed (w : World) : World :=
  match pollBody w with
  | (Js.Ok _, w') => w'
  | (Js.Throw e, w') =>
      mkWorld (net w') (requested w') (clock w') (disk w') (writeFault w')
              (lastPollAt w') (console w' ++ [e])
  end.

End Service.

(* ================================================================== *)
(** ** The numbers of the export tool *)

(** The delays of the export tool are numbers of the language: binary64
    values, with the arithmetic of the standard.  The loop only meets
    integers, the two infinities and [NaN]: its numbers come from
    [parseInt], from [Math.ceil], from the product of two integers and
    from [Math.max] and [Math.min] of such.  The arithmetic itself is
    that of [SpecFloat], the specification of binary64 of the Standard
    Library.  The two zeros are one number here: nothing in the loop
    tells them apart. *)
Module Num.

Inductive num : Type :=
| NaN
| NegInf
| Fin (z : Z)
| PosInf.

Definition prec : Z := 53.
Definition emax : Z := 1024.

(** the binary64 nearest to an integer, ties to even *)
Definition ofZ (z : Z) : spec_float := binary_normalize prec emax z 0 false.

Definition toFloat (n : num) : spec_float :=
  match n with
  | NaN => S754_nan
  | NegInf => S754_infinity true
  | Fin z => ofZ z
  | PosInf => S754_infinity false
  end.

(** [a * b] *)
Definition mul (a b : spec_float) : spec_float := SFmul prec emax a b.

(** [Number.isFinite] and [Number.isNaN] *)
Definition isFinite (x : spec_float) : bool :=
  match x with
  | S754_zero _ | S754_finite _ _ _ => true
  | S754_infinity _ | S754_nan => false
  end.

Definition isNaN (n : num) : bool :=
  match n with NaN => true | _ => false end.

(** [a < b] and [a <= b]: false as soon as one side is [NaN] *)
Definition lt (a b : num) : bool :=
  match a, b with
  | NaN, _ | _, NaN => false
  | _, NegInf => false
  | NegInf, _ => true
  | PosInf, _ => false
  | _, PosInf => true
  | Fin x, Fin y => (x <? y)%Z
  end.

Definition le (a b : num) : bool :=
  match a, b with
  | NaN, _ | _, NaN => false
  | NegInf, _ => true
  | _, NegInf => false
  | _, PosInf => true
  | PosInf, _ => false
  | Fin x, Fin y => (x <=? y)%Z
  end.

(** [Math.ceil]: the least integer that is not below [x] *)
Definition ceil (x : spec_float) : num :=
  match x with
  | S754_nan => NaN
  | S754_infinity s => if s then NegInf else PosInf
  | S754_zero _ => Fin 0
  | S754_finite s m e =>
      let n := if s then Z.neg m else Z.pos m in
      Fin (if (0 <=? e)%Z then n * 2 ^ e else - (- n / 2 ^ (- e)))%Z
  end.

(** [Math.max] and [Math.min] of two numbers *)
Definition max (a b : num) : num :=
  match a, b with
  | NaN, _ | _, NaN => NaN
  | _, _ => if lt a b then b else a
  end.

Definition min (a b : num) : num :=
  match a, b with
  | NaN, _ | _, NaN => NaN
  | _, _ => if lt b a then b else a
  end.

(** the number that is the integer [z], as [parseInt] gives it: the
    binary64 nearest to [z], an integer or an infinity *)
Definition round (z : Z) : num := ceil (ofZ z).

End Num.

(* ================================================================== *)
(** ** The export tool: its fetch loop *)

Module ExportTool.

(** 1.5 *)
Definition DEFAULT_BACKOFF_FACTOR : spec_float :=
  S754_finite false 6755399441055744 (-52).
Definition DEFAULT_MAX_DELAY_MS : Z := 15000.

(** The command line, read.  [maxPages] and [delayMs] are integers;
    [maxDelayMs] is an integer, or [None] when the number read is [NaN];
    [backoffFactor] is the binary64 that [parseFloat] gave, [NaN] and
    the infinities included. *)
Record Options : Type := mkOptions {
  baseUrl : string;
  maxPages : Z;
  delayMs : Z;
  backoffFactor : spec_float;
  maxDelayMs : option Z;
  cutoff : Z
}.

(** The variables of the loop, with what it has asked of the network
    and how long it has slept.  A row is the status it is written
    from; its CSV text is not modelled. *)
Record State : Type := mkState {
  pageUrl : string;
  page : Z;
  seenIds : list string;
  currentDelay : Num.num;
  rows : list RawStatus;
  asked : list string;
  slept : list Num.num
}.

Inductive Step : Type :=
| Continue (st : State)
| Break (st : State)
| Raise (e : Js.error) (st : State).

Section Loop.
Context {D : DateModel} (opts : Options).

Definition initial : State :=
  mkState (baseUrl opts) 0 [] (Num.Fin (delayMs opts)) [] [] [].

Definition withinRange (createdAt : option string) : bool :=
  match JsDate.parse createdAt with
  | None => false
  | Some timestamp => (cutoff opts <=? timestamp)%Z
  end.

Definition seen (ids : list string) (v : string) : bool :=
  existsb (String.eqb v) ids.

(** the [for] loop over the statuses of a page: the set of ids, the
    rows and [keepPaging] *)
Fixpoint scanPage (payload : list RawStatus) (ids : list string)
         (out : list RawStatus) (keepPaging : bool)
  : list string * list RawStatus * bool :=
  match payload with
  | [] => (ids, out, keepPaging)
  | item :: r =>
      if negb (Js.truthy (raw_id item))
         || seen ids (Js.toStr (raw_id item))
      then scanPage r ids out keepPaging
      else
        let ids := (ids ++ [Js.toStr (raw_id item)])%list in
        if negb (withinRange (raw_created_at item))
        then scanPage r ids out keepPaging
        else scanPage r ids (out ++ [item])%list true
  end.

(** [retryAfterMs], from the header: [Number.parseInt(header || "0", 10)],
    then the test and the product *)
Definition retryAfterMs (header : option string) : Num.num :=
  let retryAfter :=
    match parseInt (Js.toStr (Js.or header (Some "0"))) with
    | None => Num.NaN
    | Some z => Num.round z
    end in
  if Num.isNaN retryAfter || Num.le retryAfter (Num.Fin 0)
  then Num.Fin 0
  else Num.ceil (Num.mul (Num.toFloat retryAfter) (Num.ofZ 1000)).

(** [Math.ceil(currentDelay * factor)]: the product is a binary64, the
    factor the default one when the one read is not finite *)
Definition nextDelay (current : Num.num) : Num.num :=
  Num.ceil (Num.mul (Num.toFloat current)
                    (if Num.isFinite (backoffFactor opts)
                     then backoffFactor opts
                     else DEFAULT_BACKOFF_FACTOR)).

Definition capDelay (next : Num.num) : Num.num :=
  Num.min next (Num.Fin match maxDelayMs opts with
                        | Some m => m
                        | None => DEFAULT_MAX_DELAY_MS
                        end).

(** the test of the [while] *)
Definition running (st : State) : bool :=
  Str.nonEmpty (pageUrl st) && (page st <? maxPages opts)%Z.

(** one turn of the [while] loop, given what [fetch] meets *)
Definition step (st : State) (ev : NetEvent) : Step :=
  let st := mkState (pageUrl st) (page st) (seenIds st) (currentDelay st)
                    (rows st) (asked st ++ [pageUrl st]) (slept st) in
  match ev with
  | NetworkFailure => Raise (Js.TypeError "fetch failed") st
  | Reply response =>
      if negb (resp_ok response) then
        if (resp_status response =? 429)%Z then
          let waitMs := Num.max (currentDelay st)
                                (retryAfterMs (resp_retryAfter response)) in
          Continue
            (mkState (pageUrl st) (page st) (seenIds st)
                     (capDelay (nextDelay (currentDelay st)))
                     (rows st) (asked st) (slept st ++ [waitMs]))
        else
          Raise (Js.Error ("Request failed ("
                           ++ numberText (resp_status response)
                           ++ ") for " ++ pageUrl st)) st
      else
        let page' := (page st + 1)%Z in
        let delay := Num.Fin (delayMs opts) in
        match resp_json response with
        | None =>
            Raise (Js.SyntaxError "Unexpected token")
                  (mkState (pageUrl st) page' (seenIds st) delay
                           (rows st) (asked st) (slept st))
        | Some NotArray | Some (Statuses []) =>
            Break (mkState (pageUrl st) page' (seenIds st) delay
                           (rows st) (asked st) (slept st))
        | Some (Statuses payload) =>
            let '(ids, out, keepPaging) :=
              scanPage payload (seenIds st) (rows st) false in
            let links := parseLinkHeader (resp_link response) in
            let next :=
              Js.toStr (Js.or (JsMap.get "next" links) (Some "")) in
            if negb keepPaging
            then Break (mkState next page' ids delay out
                                (asked st) (slept st))
            else Continue
                   (mkState next page' ids delay out (asked st)
                            (if Num.lt (Num.Fin 0) delay
                             then (slept st ++ [delay])%list
                             else slept st))
        end
  end.

Inductive Outcome : Type :=
| Finished (st : State)
| Aborted (e : Js.error) (st : State).

(** the [while] loop against a scripted network; a script that has
    run out is a network that fails *)
Fixpoint run (script : list NetEvent) (st : State) : Outcome :=
  if negb (running st) then Finished st
  else
    match script with
    | [] =>
        match step st NetworkFailure with
        | Raise e st' => Aborted e st'
        | Continue st' | Break st' => Finished st'
        end
    | ev :: script' =>
        match step st ev with
        | Continue st' => run script' st'
        | Break st' => Finished st'
        | Raise e st' => Aborted e st'
        end
    end.

End Loop.
End ExportTool.

(* ================================================================== *)
(** ** The polling service: seeding and the read routes *)

(** the service with its second module variable, [lastSeedAttempt] *)
Record Server : Type := mkServer {
  world : World;
  lastSeedAttempt : Z
}.

(** the body of a JSON response of the read routes *)
Record LatestBody : Type := mkLatestBody {
  latest : option Post;
  totalPosts : nat;
  polledAt : option string
}.

Section Routes.
Context {D : DateModel} (cfg : Config).

(** [ensureSeeded]: the stored posts, after a poll when there are none
    and the last attempt is old enough *)
Definition ensureSeeded (s : Server) : Js.result (list Post) * Server :=
  match loadData (world s) with
  | (Js.Throw e, w) => (Js.Throw e, mkServer w (lastSeedAttempt s))
  | (Js.Ok posts, w) =>
      match posts with
      | _ :: _ => (Js.Ok posts, mkServer w (lastSeedAttempt s))
      | [] =>
          let now := clock w in
          if (now - lastSeedAttempt s <? POLL_INTERVAL_MS cfg)%Z
          then (Js.Ok posts, mkServer w (lastSeedAttempt s))
          else
            let w := pollFeed cfg w in
            let (data, w) := loadData w in
            (data, mkServer w now)
      end
  end.

(** [GET /latest] *)
Definition getLatest (s : Server) : Js.result LatestBody * Server :=
  match ensureSeeded s with
  | (Js.Throw e, s') => (Js.Throw e, s')
  | (Js.Ok posts, s') =>
      let latest := computeLatest posts in
      let total := List.length (normalizePosts posts) in
      (Js.Ok (mkLatestBody latest total
                (if Js.truthy (lastPollAt (world s'))
                 then lastPollAt (world s') else None)), s')
  end.

(** [GET /history/hourly] *)
Definition getHistoryHourly (s : Server)
  : Js.result (list HourlyBucket) * Server :=
  match ensureSeeded s with
  | (Js.Throw e, s') => (Js.Throw e, s')
  | (Js.Ok posts, s') => (computeHourly posts, s')
  end.

(** [GET /posts] *)
Definition getPosts (s : Server) : Js.result (list Post) * Server :=
  match loadData (world s) with
  | (Js.Throw e, w) => (Js.Throw e, mkServer w (lastSeedAttempt s))
  | (Js.Ok posts, w) =>
      (Js.Ok (normalizePosts posts), mkServer w (lastSeedAttempt s))
  end.

End Routes.

(* ================================================================== *)
(** ** The export tool: cells and rows of the CSV file *)

(** the test of [csvEscape]: the text holds a double quote, a comma or a
    line feed *)
Fixpoint needsQuotes (text : string) : bool :=
  match text with
  | EmptyString => false
  | String c r =>
      Ascii.eqb c dquote || Ascii.eqb c "," || Ascii.eqb c "010"
      || needsQuotes r
  end.

(** the replacement of [csvEscape]: every double quote is written twice *)
Fixpoint doubleQuotes (text : string) : string :=
  match text with
  | EmptyString => EmptyString
  | String c r =>
      if Ascii.eqb c dquote
      then String dquote (String dquote (doubleQuotes r))
      else String c (doubleQuotes r)
  end.

(** [csvEscape]; [None] is [undefined] or [null] *)
Definition csvEscape (value : option string) : string :=
  let text := match value with Some s => s | None => "" end in
  if needsQuotes text
  then String dquote (doubleQuotes text ++ String dquote "")%string
  else text.

(** [Array.prototype.join] *)
Fixpoint join (sep : string) (cells : list string) : string :=
  match cells with
  | [] => ""
  | [c] => c
  | c :: r => (c ++ sep ++ join sep r)%string
  end.

Definition toCsvRow (row : list (option string)) : string :=
  join "," (map csvEscape row).

(** *** The text of a status *)

(** the first replacement of [stripHtml]: every [<], the characters
    other than [>] after it and the [>] that follows become one blank; a
    [<] with no [>] after it stays.  Every match eats at least one
    character, so [fuel] above the length of [s] is never used up. *)
Fixpoint replaceTags (fuel : nat) (s : string) : string :=
  match fuel with
  | O => s
  | S fuel' =>
      match s with
      | EmptyString => EmptyString
      | String c r =>
          if Ascii.eqb c "<" then
            match snd (spanUntil ">" r) with
            | String _ rest => String " " (replaceTags fuel' rest)
            | EmptyString => String c (replaceTags fuel' r)
            end
          else String c (replaceTags fuel' r)
      end
  end.

(** the second replacement: every run of white space becomes one blank,
    written when the last character of the run is met *)
Fixpoint collapseSpaces (s : string) : string :=
  match s with
  | EmptyString => EmptyString
  | String c r =>
      if Str.isSpace c then
        match r with
        | String c2 _ =>
            if Str.isSpace c2 then collapseSpaces r
            else String " " (collapseSpaces r)
        | EmptyString => " "
        end
      else String c (collapseSpaces r)
  end.

Definition stripHtml (html : string) : string :=
  if negb (Str.nonEmpty html) then ""
  else Str.trim (collapseSpaces (replaceTags (String.length html) html)).

(* ================================================================== *)
(** ** The dashboard: the last hours and the counter *)

Section Dashboard.
Context {D : DateModel}.

(** the time value of [new Date(t)] for a number [t] *)
Definition timeClip (t : Z) : option Z :=
  if (Z.abs t <=? maxTime)%Z then Some t else None.

Definition toUtcHourKey (date : option Z) : Js.result string :=
  let utc := date in
  let utc := option_map JsDate.setUTCMinutes0 utc in
  JsDate.toISOString utc.

(** [getLastHours] at the time [current] of the clock; the loop runs
    [i] from [count - 1] down to zero *)
Definition getLastHours (count : nat) (current : Z) : list (option Z) :=
  let now := JsDate.setUTCMinutes0 current in
  map (fun i => timeClip (now - Z.of_nat i * 60 * 60 * 1000)%Z)
      (rev (seq 0 count)).

(** [new Map(hours.map((entry) => [entry.hour, entry.count]))] *)
Definition hourMap (hours : list HourlyBucket) : list (string * nat) :=
  fold_left (fun m entry => JsMap.set (hour entry) (count entry) m) hours [].

(** the list [recent] of [renderHistory] *)
Definition recent (hours : list HourlyBucket) (current : Z)
  : Js.result (list HourlyBucket) :=
  Js.mapM
    (fun date =>
       hourKey <- toUtcHourKey date ;;
       Js.Ok (mkBucket hourKey
                       match JsMap.get hourKey (hourMap hours) with
                       | Some n => n
                       | None => 0
                       end))
    (getLastHours 24 current).

(** the total of [updatePostCounter], between the two time values of
    the counting period *)
Definition updatePostCounter (hours : list HourlyBucket) (start finish : Z)
  : nat :=
  fold_left
    (fun sum entry =>
       match date_parse (hour entry) with
       | Some entryTime =>
           if (start <=? entryTime)%Z && (entryTime <=? finish)%Z
           then sum + count entry
           else sum
       | None => sum
       end)
    hours 0.

End Dashboard.

(* ================================================================== *)
(** ** The earlier service: its poll *)

(** The service as it was before the identities were canonicalised: the
    feed is the syndication feed, a record is known by its [id] as it
    stands, and a known record is never touched. *)
Module Legacy.
Section Poll.
Context {D : DateModel} (FEED_URL : string).

(** equality of two [id]s as a [Set] sees it *)
Definition sameId (a b : option string) : bool :=
  match a, b with
  | Some x, Some y => String.eqb x y
  | None, None => true
  | _, _ => false
  end.

(** [seen.has(v)] *)
Definition has (seen : list (option string)) (v : option string) : bool :=
  existsb (sameId v) seen.

(** the loop over [incoming]: [merged] and the set [seen] *)
Fixpoint addUnseen (incoming : list Post) (seen : list (option string))
         (merged : list Post) : list Post :=
  match incoming with
  | [] => merged
  | post :: r =>
      if negb (has seen (id post))
      then addUnseen r (seen ++ [id post])%list (merged ++ [post])%list
      else addUnseen r seen merged
  end.

(** what is saved, from the stored posts and the incoming ones *)
Definition mergeIncoming (posts incoming : list Post) : list Post :=
  let seen := map id posts in
  let merged := addUnseen incoming seen posts in
  jsSort laterPost merged.

(** the [try] block of [pollFeed] *)
Definition pollBody : M unit :=
  response <~ fetch FEED_URL ;;
  if negb (resp_ok response)
  then throw (Js.Error ("Feed request failed: "
                        ++ numberText (resp_status response)))
  else
    incoming <~ lift (parseFeed (resp_body response)) ;;
    match incoming with
    | [] => ret tt
    | _ =>
        posts <~ loadData ;;
        saveData (mergeIncoming posts incoming)
    end.

(** [pollFeed]: the [catch] block writes to the console and returns *)
Definition pollFeed (w : World) : World :=
  match pollBody w with
  | (Js.Ok _, w') => w'
  | (Js.Throw e, w') =>
      mkWorld (net w') (requested w') (clock w') (disk w') (writeFault w')
              (lastPollAt w') (console w' ++ [e])%list
  end.

End Poll.
End Legacy.

(* ================================================================== *)
(** ** Sample records, feeds and responses *)

Module Sample.

Definition first : Post :=
  mkPost (Some "123") (Some "2024-01-01T00:00:00.000Z")
         (Some "https://truthsocial.com/@realDonaldTrump/123") None
         (Some "<p>first</p>") [].

Definition second : Post :=
  mkPost (Some "https://truthsocial.com/@realDonaldTrump/posts/123")
         (Some "2024-01-01T00:05:00.000Z") None
         (Some "https://truthsocial.com/users/realDonaldTrump/statuses/123")
         None [("language", "en")].

Definition edited : Post :=
  mkPost (Some "123") (Some "2024-01-01T00:00:00.000Z")
         (Some "https://truthsocial.com/users/realDonaldTrump/statuses/123")
         None (Some "<p>second</p>") [].

Definition other : Post :=
  mkPost (Some "456") (Some "2024-01-01T00:05:00.000Z")
         None None (Some "<p>other</p>") [].

Definition early : Post :=
  mkPost (Some "789") (Some "2023-12-31T23:59:59.999Z")
         None None None [].

Definition undated : Post :=
  mkPost (Some "777") (Some "not a date") None None None [].

Definition goodStatus : RawStatus :=
  mkRaw (Some "2024-01-01T00:00:00Z") (Some "123") None None None false.

Definition badStatus : RawStatus :=
  mkRaw (Some "not a date") (Some "124") None None None false.

Definition badFeed : string :=
  "<rss><channel><item><guid>123</guid><pubDate>2024-01-01T00:00:00Z</pubDate></item><item><guid>124</guid><pubDate>not a date</pubDate></item></channel></rss>".

Definition reply (status : Z) (retryAfter : option string) : Response :=
  mkResponse status (Some "application/json") None retryAfter "[]"
             (Some (Statuses [])).

Definition options : ExportTool.Options :=
  ExportTool.mkOptions
    "https://truthsocial.com/api/v1/accounts/107780257626128497/statuses"
    250 750 ExportTool.DEFAULT_BACKOFF_FACTOR (Some 15000%Z) 0.

Definition config : Config :=
  mkConfig
    "https://truthsocial.com/api/v1/accounts/107780257626128497/statuses"
    45000 24 5.

Definition world (script : list NetEvent) : World :=
  mkWorld script [] 1704067200000 (Document (Some [first])) None None [].

End Sample.

(* ================================================================== *)
(** ** A poll, a feed and a header *)

Module Scenario.

(** a page of two statuses, and what the poll makes of it *)
Definition page : Response :=
  mkResponse 200 (Some "application/json") None None "[]"
    (Some (Statuses
             [Sample.goodStatus;
              mkRaw (Some "2024-01-01T01:30:00Z") (Some "456") None None
                    (Some "<p>later</p>") false])).

Definition incoming : list Post :=
  [mkPost (Some "123") (Some "2024-01-01T00:00:00.000Z") (Some "") None
          (Some "") [];
   mkPost (Some "456") (Some "2024-01-01T01:30:00.000Z") (Some "") None
          (Some "<p>later</p>") []].

Definition fetched : World :=
  mkWorld [] [SOURCE_URL Sample.config] 1704067200000
          (Document (Some [Sample.first])) None None [].

(** a disk that reads and does not write *)
Definition readOnly : World :=
  mkWorld [Reply page] [] 1704067200000 (Document (Some [Sample.first]))
          (Some (Js.Error "EACCES")) None [].

(** [Sample.first] and [Sample.second], merged *)
Definition merged : Post :=
  mkPost (Some "123") (Some "2024-01-01T00:05:00.000Z")
         (Some "https://truthsocial.com/@realDonaldTrump/123")
         (Some "https://truthsocial.com/users/realDonaldTrump/statuses/123")
         (Some "<p>first</p>") [].

Definition feed : string :=
  "<rss><channel><item><guid>https://truthsocial.com/@realDonaldTrump/123</guid><pubDate>2024-01-01T00:00:00Z</pubDate></item></channel></rss>".

Definition server : Server := mkServer (Sample.world []) 0.

Definition body : LatestBody := mkLatestBody (Some Sample.first) 1 None.

Definition posts : list Post := [Sample.first; Sample.other; Sample.early].

Definition buckets : list HourlyBucket :=
  [mkBucket "2023-12-31T23:00:00.000Z" 1;
   mkBucket "2024-01-01T00:00:00.000Z" 2].

Definition links : list (string * string) :=
  [("next", "https://truthsocial.com/api/v1/accounts/1/statuses?max_id=5");
   ("prev", "https://truthsocial.com/api/v1/accounts/1/statuses?min_id=9")].

End Scenario.

(* ================================================================== *)
(** * Properties *)

Local Open Scope list_scope.

(** ** Strings *)

Lemma nonEmpty_false (s : string) : Str.nonEmpty s = false -> s = "".
Proof. destruct s; [reflexivity | discriminate]. Qed.

Lemma nonEmpty_true (s : string) : Str.nonEmpty s = true <-> s <> "".
Proof. destruct s; simpl; split; congruence. Qed.

Lemma slash_not_digit : Str.isDigit "/" = false.
Proof. reflexivity. Qed.

Lemma isDigit_not_slash (c : ascii) :
  Str.isDigit c = true -> Ascii.eqb c "/" = false.
Proof.
  intros Hd. destruct (Ascii.eqb_spec c "/") as [-> | _]; [| reflexivity].
  discriminate Hd.
Qed.

Lemma spanDigits_allDigits (s : string) :
  Str.allDigits (fst (Str.spanDigits s)) = true.
Proof.
  induction s as [| c r IH]; simpl; [reflexivity |].
  destruct (Str.isDigit c) eqn:Hc; [| reflexivity].
  destruct (Str.spanDigits r) as [ds tl]; simpl in *. now rewrite Hc.
Qed.

(** what the pattern of [extractNumericId] captures is a run of digits *)
Lemma matchSlashDigits_allDigits (s : string) :
  Str.allDigits (matchSlashDigits s) = true.
Proof.
  induction s as [| c r IH]; simpl; [reflexivity |].
  destruct (Ascii.eqb c "/"); [| exact IH].
  pose proof (spanDigits_allDigits r) as Hs.
  destruct (Str.spanDigits r) as [ds tl]; simpl in Hs.
  destruct (Str.nonEmpty ds && Str.boundaryOrEnd tl); assumption.
Qed.

(** and it finds nothing in a text without a slash *)
Lemma matchSlashDigits_of_digits (s : string) :
  Str.allDigits s = true -> matchSlashDigits s = "".
Proof.
  induction s as [| c r IH]; simpl; [reflexivity |].
  intros H. apply andb_true_iff in H as [Hc Hr].
  rewrite (isDigit_not_slash c Hc). auto.
Qed.

Lemma truthy_Some (s : string) : Js.truthy (Some s) = Str.nonEmpty s.
Proof. reflexivity. Qed.

Lemma extractNumericId_Some (s : string) :
  extractNumericId (Some s) = matchSlashDigits s.
Proof.
  unfold extractNumericId. simpl. destruct s; reflexivity.
Qed.

Lemma extractNumericId_allDigits (v : option string) :
  Str.allDigits (extractNumericId v) = true.
Proof.
  unfold extractNumericId. destruct (negb (Js.truthy v)); [reflexivity |].
  apply matchSlashDigits_allDigits.
Qed.

Lemma extractNumericId_falsy (v : option string) :
  Js.truthy v = false -> extractNumericId v = "".
Proof. unfold extractNumericId. now intros ->. Qed.

(** ** Identity canonicaliser *)

(** the text that [canonicalId] calls [direct] *)
Definition directOf (p : Post) : string :=
  if Js.truthy (id p) then Js.toStr (id p) else "".

Lemma directOf_setId (p : Post) (s : string) : directOf (setId p s) = s.
Proof. unfold directOf. simpl. destruct s; reflexivity. Qed.

Lemma canonicalId_unfold (p : Post) :
  canonicalId p =
  let direct := directOf p in
  if Str.nonEmpty direct && Str.allDigits direct then direct
  else if Str.nonEmpty (matchSlashDigits direct) then matchSlashDigits direct
  else if Str.nonEmpty (extractNumericId (Js.or (url p) (uri p)))
       then extractNumericId (Js.or (url p) (uri p))
  else if Str.nonEmpty direct then direct
  else Js.toStr (Js.or (Js.or (url p) (uri p)) (Some "")).
Proof.
  unfold canonicalId, directOf. cbv zeta.
  now rewrite extractNumericId_Some.
Qed.

(** a canonical identity is of one of two kinds: a run of digits, or a
    text in which, as in the record's address, the pattern finds nothing *)
Definition plainKey (k : string) (p : Post) : Prop :=
  matchSlashDigits k = ""
  /\ extractNumericId (Js.or (url p) (uri p)) = "".

Lemma canonicalId_kind (p : Post) :
  Str.allDigits (canonicalId p) = true \/ plainKey (canonicalId p) p.
Proof.
  rewrite canonicalId_unfold. cbv zeta.
  destruct (Str.nonEmpty (directOf p) && Str.allDigits (directOf p)) eqn:H1.
  { apply andb_true_iff in H1 as [_ H1]. now left. }
  destruct (Str.nonEmpty (matchSlashDigits (directOf p))) eqn:H2.
  { left. apply matchSlashDigits_allDigits. }
  destruct (Str.nonEmpty (extractNumericId (Js.or (url p) (uri p)))) eqn:H3.
  { left. apply extractNumericId_allDigits. }
  apply nonEmpty_false in H2, H3.
  destruct (Str.nonEmpty (directOf p)) eqn:H4.
  { right. split; assumption. }
  right. split; [| assumption].
  destruct (Js.truthy (Js.or (url p) (uri p))) eqn:Ht.
  - unfold Js.or at 1. rewrite Ht.
    unfold extractNumericId in H3. rewrite Ht in H3. exact H3.
  - unfold Js.or at 1. rewrite Ht. reflexivity.
Qed.

(** a record that carries a key of either kind as its [id], and whose
    address agrees with a plain key, has that key as canonical identity *)
Lemma canonicalId_of_key (p : Post) (k : string) :
  id p = Some k ->
  k <> "" ->
  Str.allDigits k = true \/ plainKey k p ->
  canonicalId p = k.
Proof.
  intros Hid Hk Hkind. rewrite canonicalId_unfold. cbv zeta.
  assert (Hd : directOf p = k).
  { unfold directOf. rewrite Hid. simpl.
    destruct k; [congruence | reflexivity]. }
  rewrite Hd. apply nonEmpty_true in Hk. rewrite Hk. simpl.
  destruct (Str.allDigits k) eqn:Ha; [reflexivity |].
  destruct Hkind as [Hf | [Hm Hu]]; [discriminate |].
  rewrite Hm, Hu. reflexivity.
Qed.

Lemma canonicalId_setId_canonical (p : Post) :
  canonicalId (setId p (canonicalId p)) = canonicalId p.
Proof.
  destruct (string_dec (canonicalId p) "") as [He | Hne].
  - rewrite He. rewrite canonicalId_unfold, directOf_setId. cbv zeta. simpl.
    rewrite canonicalId_unfold in He. cbv zeta in He.
    destruct (Str.nonEmpty (directOf p) && Str.allDigits (directOf p)) eqn:H1.
    { apply andb_true_iff in H1 as [H1 _]. rewrite He in H1. discriminate. }
    destruct (Str.nonEmpty (matchSlashDigits (directOf p))) eqn:H2.
    { rewrite He in H2. discriminate. }
    destruct (Str.nonEmpty (extractNumericId (Js.or (url p) (uri p)))) eqn:H3.
    { rewrite He in H3. discriminate. }
    destruct (Str.nonEmpty (directOf p)) eqn:H4.
    { rewrite He in H4. discriminate. }
    exact He.
  - apply canonicalId_of_key; [reflexivity | assumption |].
    destruct (canonicalId_kind p) as [H | [H1 H2]]; [now left |].
    right. split; assumption.
Qed.

(** C5. [canonicalId] is idempotent: on a record whose [id] is the
    canonical identity of [p], and whose [url] and [uri] are those of [p],
    it gives that identity again; and an [id] made of digits only is
    returned as it is. *)
Theorem canonicalId_idempotent :
  (forall p : Post, canonicalId (setId p (canonicalId p)) = canonicalId p)
  /\ (forall (p : Post) (s : string),
         id p = Some s -> s <> "" -> Str.allDigits s = true ->
         canonicalId p = s).
Proof.
  split.
  - exact canonicalId_setId_canonical.
  - intros p s Hid Hs Hd. apply canonicalId_of_key; auto.
Qed.

(** ** Insertion-ordered maps *)

Section MapFacts.
Context {V : Type}.
Implicit Types (m : list (string * V)) (k : string) (v : V).

Lemma get_set_same m k v : JsMap.get k (JsMap.set k v m) = Some v.
Proof.
  induction m as [| [k' v'] r IH]; simpl.
  - now rewrite String.eqb_refl.
  - destruct (String.eqb k k') eqn:E; simpl.
    + now rewrite String.eqb_refl.
    + now rewrite E.
Qed.

Lemma get_set_other m k k' v :
  k <> k' -> JsMap.get k' (JsMap.set k v m) = JsMap.get k' m.
Proof.
  intros Hne. induction m as [| [k0 v0] r IH]; simpl.
  - destruct (String.eqb_spec k' k); [congruence | reflexivity].
  - destruct (String.eqb_spec k k0) as [-> | Hk]; simpl.
    + destruct (String.eqb_spec k' k0); [congruence | reflexivity].
    + destruct (String.eqb k' k0); [reflexivity | exact IH].
Qed.

Lemma get_None_notin m k :
  JsMap.get k m = None <-> ~ In k (JsMap.keys m).
Proof.
  induction m as [| [k0 v0] r IH]; simpl; [tauto |].
  destruct (String.eqb_spec k k0) as [-> | Hk].
  - split; [discriminate | intros H; exfalso; apply H; now left].
  - rewrite IH. split; [intros H [E | I]; [congruence | tauto] | tauto].
Qed.

Lemma get_Some_In m k v : JsMap.get k m = Some v -> In (k, v) m.
Proof.
  induction m as [| [k0 v0] r IH]; simpl; [discriminate |].
  destruct (String.eqb_spec k k0) as [-> | Hk].
  - intros [= ->]. now left.
  - intros H. right. auto.
Qed.

Lemma In_get_Some m k v :
  NoDup (JsMap.keys m) -> In (k, v) m -> JsMap.get k m = Some v.
Proof.
  induction m as [| [k0 v0] r IH]; simpl; [tauto |].
  intros Hnd [E | I].
  - injection E as -> ->. now rewrite String.eqb_refl.
  - inversion Hnd as [| ? ? Hn Hr]; subst.
    destruct (String.eqb_spec k k0) as [-> | Hk].
    + exfalso. apply Hn. change k0 with (fst (k0, v)). now apply in_map.
    + auto.
Qed.

(** a new key goes to the end *)
Lemma set_new m k v :
  JsMap.get k m = None -> JsMap.set k v m = m ++ [(k, v)].
Proof.
  induction m as [| [k0 v0] r IH]; simpl; [reflexivity |].
  destruct (String.eqb k k0); [discriminate |].
  intros H. now rewrite IH.
Qed.

(** a key that is there keeps its place *)
Lemma keys_set_present m k v v0 :
  JsMap.get k m = Some v0 -> JsMap.keys (JsMap.set k v m) = JsMap.keys m.
Proof.
  induction m as [| [k1 v1] r IH]; simpl; [discriminate |].
  destruct (String.eqb_spec k k1) as [-> | Hk]; simpl; [reflexivity |].
  intros H. now rewrite IH.
Qed.

Lemma In_set m k v e :
  In e (JsMap.set k v m) -> e = (k, v) \/ In e m.
Proof.
  induction m as [| [k1 v1] r IH]; simpl.
  - intros [<- | []]. now left.
  - destruct (String.eqb k k1); simpl.
    + intros [<- | I]; [now left | right; now right].
    + intros [<- | I]; [right; now left |].
      destruct (IH I) as [H | H]; [now left | right; now right].
Qed.

Lemma NoDup_keys_set m k v :
  NoDup (JsMap.keys m) -> NoDup (JsMap.keys (JsMap.set k v m)).
Proof.
  intros Hnd. destruct (JsMap.get k m) as [v0 |] eqn:G.
  - now rewrite (keys_set_present m k v v0 G).
  - rewrite (set_new m k v G). unfold JsMap.keys. rewrite map_app. simpl.
    apply get_None_notin in G.
    apply NoDup_rev in Hnd. rewrite <- (rev_involutive (map fst m ++ [k])).
    apply NoDup_rev. rewrite rev_app_distr. simpl. constructor.
    + now rewrite <- in_rev.
    + exact Hnd.
Qed.

End MapFacts.

(** ** The sort *)

Section SortFacts.
Context {A : Type} (after : A -> A -> bool).

(** neighbours that the comparator does not want swapped *)
Definition inOrder (l : list A) : Prop :=
  Sorted (fun a b => after a b = false) l.

Hypothesis after_asym : forall a b, after a b = true -> after b a = false.

Lemma insertSorted_perm (x : A) (l : list A) :
  Permutation (insertSorted after x l) (x :: l).
Proof.
  induction l as [| y r IH]; simpl; [reflexivity |].
  destruct (after x y); [| reflexivity].
  rewrite IH. apply perm_swap.
Qed.

Lemma jsSort_perm (l : list A) : Permutation (jsSort after l) l.
Proof.
  induction l as [| x r IH]; simpl; [reflexivity |].
  rewrite insertSorted_perm. now constructor.
Qed.

Lemma insertSorted_inOrder (x : A) (l : list A) :
  inOrder l -> inOrder (insertSorted after x l).
Proof.
  unfold inOrder. induction l as [| y r IH]; simpl; intros Hs.
  - repeat constructor.
  - destruct (after x y) eqn:E.
    + inversion Hs as [| ? ? Hr Hh]; subst. constructor; [auto |].
      destruct r as [| z r']; simpl.
      * constructor. auto.
      * destruct (after x z); constructor.
        -- inversion Hh; subst. assumption.
        -- auto.
    + constructor; [assumption | now constructor].
Qed.

Lemma jsSort_inOrder (l : list A) : inOrder (jsSort after l).
Proof.
  induction l as [| x r IH]; simpl; [constructor |].
  now apply insertSorted_inOrder.
Qed.

(** a list in order is left as it is *)
Lemma jsSort_of_inOrder (l : list A) : inOrder l -> jsSort after l = l.
Proof.
  unfold inOrder. induction l as [| x r IH]; simpl; intros Hs;
    [reflexivity |].
  inversion Hs as [| ? ? Hr Hh]; subst. rewrite (IH Hr).
  destruct r as [| y r']; [reflexivity |]. simpl.
  inversion Hh; subst. now match goal with H : after x y = false |- _ =>
                                     rewrite H end.
Qed.

Lemma jsSort_idempotent (l : list A) :
  jsSort after (jsSort after l) = jsSort after l.
Proof. apply jsSort_of_inOrder, jsSort_inOrder. Qed.

Lemma jsSort_In (l : list A) (x : A) : In x (jsSort after l) <-> In x l.
Proof.
  split; apply Permutation_in; [| symmetry]; apply jsSort_perm.
Qed.

Lemma jsSort_length (l : list A) :
  List.length (jsSort after l) = List.length l.
Proof. apply Permutation_length, jsSort_perm. Qed.

End SortFacts.

(** ** Time values, [NaN] below all of them *)

Section TimeOrder.

(** [a] is not later than [b] *)
Definition notLater (a b : option Z) : Prop :=
  match a, b with
  | None, _ => True
  | Some _, None => False
  | Some x, Some y => (x <= y)%Z
  end.

(** [a] is earlier than [b] *)
Definition earlier (a b : option Z) : Prop :=
  match a, b with
  | _, None => False
  | None, Some _ => True
  | Some x, Some y => (x < y)%Z
  end.

Lemma notLater_refl a : notLater a a.
Proof. destruct a; simpl; [lia | exact I]. Qed.

Lemma notLater_trans a b c : notLater a b -> notLater b c -> notLater a c.
Proof. destruct a, b, c; simpl; try tauto; lia. Qed.

Lemma notLater_antisym a b : notLater a b -> notLater b a -> a = b.
Proof. destruct a, b; simpl; try tauto. intros. f_equal. lia. Qed.

Lemma notLater_total a b : notLater a b \/ notLater b a.
Proof. destruct a, b; simpl; try tauto. lia. Qed.

Lemma earlier_notLater a b : earlier a b -> notLater a b.
Proof. destruct a, b; simpl; try tauto. lia. Qed.

Lemma gt_asym a b : JsDate.gt a b = true -> JsDate.gt b a = false.
Proof.
  destruct a, b; simpl; try discriminate. intros H.
  apply Z.ltb_lt in H. apply Z.ltb_ge. lia.
Qed.

End TimeOrder.

(** ** Record normaliser: the merge of two records *)

Section MergeFacts.
Context {D : DateModel}.

(** the parsed instant of a record, [None] when its timestamp is no date *)
Definition instant (p : Post) : option Z := JsDate.parse (timestamp p).

(** the test under which the merge takes the incoming timestamp *)
Definition takesIncoming (existing normalized : Post) : bool :=
  negb (JsDate.isNaN (instant normalized))
  && (JsDate.isNaN (instant existing)
      || JsDate.gt (instant normalized) (instant existing)).

(** what the merge leaves in an optional field *)
Definition filled (mine theirs : option string) : option string :=
  if negb (Js.truthy mine) && Js.truthy theirs then theirs else mine.

Lemma mergePost_fields (e n : Post) :
  mergePost e n =
  mkPost (id e)
         (if takesIncoming e n then timestamp n else timestamp e)
         (filled (url e) (url n))
         (filled (uri e) (uri n))
         (filled (content e) (content n))
         (extra e).
Proof.
  unfold mergePost, takesIncoming, filled, instant. cbv zeta.
  destruct (negb (JsDate.isNaN (JsDate.parse (timestamp n)))
            && (JsDate.isNaN (JsDate.parse (timestamp e))
                || JsDate.gt (JsDate.parse (timestamp n))
                             (JsDate.parse (timestamp e)))); simpl;
    destruct (negb (Js.truthy (url e)) && Js.truthy (url n)); simpl;
    destruct (negb (Js.truthy (uri e)) && Js.truthy (uri n)); simpl;
    destruct (negb (Js.truthy (content e)) && Js.truthy (content n));
    simpl; destruct e; reflexivity.
Qed.

Lemma takesIncoming_true (e n : Post) :
  takesIncoming e n = true <-> earlier (instant e) (instant n).
Proof.
  unfold takesIncoming.
  destruct (instant e) as [x |], (instant n) as [y |]; simpl;
    try (split; [discriminate | tauto]); try tauto.
  rewrite Z.ltb_lt. tauto.
Qed.

Lemma instant_mergePost (e n : Post) :
  instant (mergePost e n) =
  if takesIncoming e n then instant n else instant e.
Proof.
  rewrite mergePost_fields. unfold instant at 1. simpl.
  destruct (takesIncoming e n); reflexivity.
Qed.

Lemma mergePost_notLater_existing (e n : Post) :
  notLater (instant e) (instant (mergePost e n)).
Proof.
  rewrite instant_mergePost. destruct (takesIncoming e n) eqn:T.
  - apply earlier_notLater. now apply takesIncoming_true.
  - apply notLater_refl.
Qed.

Lemma mergePost_notLater_incoming (e n : Post) :
  notLater (instant n) (instant (mergePost e n)).
Proof.
  rewrite instant_mergePost. destruct (takesIncoming e n) eqn:T.
  - apply notLater_refl.
  - destruct (notLater_total (instant n) (instant e)) as [H | H];
      [assumption |].
    destruct (instant e) as [x |] eqn:Ee, (instant n) as [y |] eqn:En;
      simpl in *; try tauto.
    + assert (E : earlier (instant e) (instant n) -> False).
      { intros C. apply takesIncoming_true in C. congruence. }
      rewrite Ee, En in E. simpl in E. lia.
    + assert (E : earlier (instant e) (instant n) -> False).
      { intros C. apply takesIncoming_true in C. congruence. }
      rewrite Ee, En in E. simpl in E. tauto.
Qed.

Lemma filled_cases (mine theirs : option string) :
  (Js.truthy mine = true /\ filled mine theirs = mine)
  \/ (Js.truthy mine = false /\ Js.truthy theirs = true
      /\ filled mine theirs = theirs)
  \/ (Js.truthy mine = false /\ Js.truthy theirs = false
      /\ filled mine theirs = mine).
Proof.
  unfold filled. destruct (Js.truthy mine), (Js.truthy theirs); simpl; tauto.
Qed.

(** the address that the canonicaliser reads in a merged record is that
    of one of the two records *)
Lemma address_mergePost (e n : Post) :
  let m := mergePost e n in
  Js.or (url m) (uri m) = Js.or (url e) (uri e)
  \/ Js.or (url m) (uri m) = Js.or (url n) (uri n).
Proof.
  cbv zeta. rewrite mergePost_fields. simpl. unfold Js.or.
  destruct (filled_cases (url e) (url n)) as [[A ->] | [[A [B ->]] | [A [B ->]]]];
    rewrite ?A, ?B; auto.
  destruct (filled_cases (uri e) (uri n)) as [[C ->] | [[C [E ->]] | [C [E ->]]]];
    rewrite ?C, ?E; auto.
Qed.

End MergeFacts.

(** ** Record normaliser: the map it builds *)

Section NormalizerFacts.
Context {D : DateModel}.

(** [r] is a record stored under [k] *)
Definition keyed (k : string) (r : Post) : Prop :=
  id r = Some k /\ k <> ""
  /\ (Str.allDigits k = true \/ plainKey k r).

Definition wellKeyed (m : list (string * Post)) : Prop :=
  NoDup (JsMap.keys m) /\ forall k r, In (k, r) m -> keyed k r.

(** among the records of [xs] of identity [k], [r] has the timestamp of
    one and an instant that none exceeds *)
Definition holdsLatest (xs : list Post) (k : string) (r : Post) : Prop :=
  (exists p, In p xs /\ canonicalId p = k /\ timestamp p = timestamp r)
  /\ (forall p, In p xs -> canonicalId p = k ->
                notLater (instant p) (instant r)).

Lemma keyed_canonicalId (k : string) (r : Post) :
  keyed k r -> canonicalId r = k.
Proof. intros (Hid & Hk & Hkind). now apply canonicalId_of_key. Qed.

Lemma keyed_setId_self (k : string) (r : Post) :
  keyed k r -> setId r k = r.
Proof. intros (Hid & _). destruct r; simpl in *. now subst. Qed.

Lemma keyed_normalized (p : Post) :
  canonicalId p <> "" -> keyed (canonicalId p) (setId p (canonicalId p)).
Proof.
  intros Hne. split; [reflexivity |]. split; [assumption |].
  destruct (canonicalId_kind p) as [H | [H1 H2]]; [now left |].
  right. split; assumption.
Qed.

Lemma keyed_mergePost (k : string) (e n : Post) :
  keyed k e -> keyed k n -> keyed k (mergePost e n).
Proof.
  intros (He & Hk & Hke) (Hn & _ & Hkn).
  split; [| split; [assumption |]].
  - rewrite mergePost_fields. exact He.
  - destruct Hke as [Hd | [Hm Hae]]; [now left |].
    destruct Hkn as [Hd | [_ Han]]; [now left |].
    right. split; [assumption |].
    destruct (address_mergePost e n) as [-> | ->]; assumption.
Qed.

Lemma wellKeyed_nil : wellKeyed [].
Proof. split; [constructor | intros ? ? []]. Qed.

Lemma wellKeyed_step (m : list (string * Post)) (p : Post) :
  wellKeyed m -> wellKeyed (normalizeStep m p).
Proof.
  intros [Hnd Hk]. unfold normalizeStep. cbv zeta.
  destruct (Str.nonEmpty (canonicalId p)) eqn:Hne; simpl;
    [| split; assumption].
  apply nonEmpty_true in Hne.
  destruct (JsMap.get (canonicalId p) m) as [e |] eqn:G.
  - split; [now apply NoDup_keys_set |].
    intros k r Hin. apply In_set in Hin as [[= -> ->] | Hin]; [| auto].
    apply keyed_mergePost; [| now apply keyed_normalized].
    apply Hk. now apply get_Some_In.
  - split; [now apply NoDup_keys_set |].
    intros k r Hin. apply In_set in Hin as [[= -> ->] | Hin]; [| auto].
    now apply keyed_normalized.
Qed.

Lemma wellKeyed_fold (xs : list Post) (m : list (string * Post)) :
  wellKeyed m -> wellKeyed (fold_left normalizeStep xs m).
Proof.
  revert m. induction xs as [| p r IH]; simpl; intros m Hm; [assumption |].
  apply IH. now apply wellKeyed_step.
Qed.

End NormalizerFacts.

Section NormalizerTracking.
Context {D : DateModel}.

(** the map built from the records [pre]: each entry holds the latest
    timestamp of its identity, and every identity met has an entry *)
Definition tracks (pre : list Post) (m : list (string * Post)) : Prop :=
  wellKeyed m
  /\ (forall k r, JsMap.get k m = Some r -> holdsLatest pre k r)
  /\ (forall k, JsMap.get k m = None -> k <> "" ->
                forall p, In p pre -> canonicalId p <> k).

Lemma holdsLatest_skip (pre : list Post) (k : string) (r p : Post) :
  holdsLatest pre k r -> canonicalId p <> k ->
  holdsLatest (pre ++ [p]) k r.
Proof.
  intros [(q & Hq & Hk & Ht) Hb] Hne. split.
  - exists q. split; [apply in_or_app; now left | now split].
  - intros q' Hin Hk'. apply in_app_or in Hin as [Hin | [<- | []]];
      [now apply Hb | congruence].
Qed.

Lemma instant_setId (p : Post) (k : string) : instant (setId p k) = instant p.
Proof. reflexivity. Qed.

Lemma tracks_nil : tracks [] [].
Proof.
  split; [apply wellKeyed_nil |]. split.
  - intros k r H. discriminate H.
  - intros k _ _ p [].
Qed.

Lemma tracks_step (pre : list Post) (m : list (string * Post)) (p : Post) :
  tracks pre m -> tracks (pre ++ [p]) (normalizeStep m p).
Proof.
  intros (Hwk & Hsome & Hnone).
  split; [now apply wellKeyed_step |].
  assert (Hkeys : forall k r, JsMap.get k m = Some r -> k <> "").
  { intros k r G. apply get_Some_In in G. apply (proj2 Hwk) in G.
    apply G. }
  unfold normalizeStep. cbv zeta.
  destruct (Str.nonEmpty (canonicalId p)) eqn:Hne; simpl.
  - apply nonEmpty_true in Hne.
    set (c := canonicalId p) in *.
    destruct (JsMap.get c m) as [e |] eqn:G.
    + (* the identity is known: merge *)
      pose proof (Hsome c e G) as [(q & Hq & Hqk & Hqt) Hb].
      split.
      * intros k r Hg. destruct (string_dec c k) as [<- | Hck].
        -- rewrite get_set_same in Hg. injection Hg as <-. split.
           ++ rewrite mergePost_fields. simpl.
              destruct (takesIncoming e (setId p c)).
              ** exists p. split; [apply in_or_app; right; now left |].
                 now split.
              ** exists q. split; [apply in_or_app; now left | now split].
           ++ intros q' Hin Hk'.
              apply in_app_or in Hin as [Hin | [<- | []]].
              ** eapply notLater_trans; [now apply Hb |].
                 apply mergePost_notLater_existing.
              ** rewrite <- (instant_setId p c).
                 apply mergePost_notLater_incoming.
        -- rewrite get_set_other in Hg by assumption.
           apply holdsLatest_skip; [now apply Hsome | assumption].
      * intros k Hg Hk q' Hin.
        destruct (string_dec c k) as [<- | Hck];
          [now rewrite get_set_same in Hg |].
        rewrite get_set_other in Hg by assumption.
        apply in_app_or in Hin as [Hin | [<- | []]];
          [now apply Hnone | assumption].
    + (* a new identity *)
      split.
      * intros k r Hg. destruct (string_dec c k) as [<- | Hck].
        -- rewrite get_set_same in Hg. injection Hg as <-. split.
           ++ exists p. split; [apply in_or_app; right; now left |].
              now split.
           ++ intros q' Hin Hk'.
              apply in_app_or in Hin as [Hin | [<- | []]].
              ** exfalso. now apply (Hnone c G Hne q' Hin).
              ** apply notLater_refl.
        -- rewrite get_set_other in Hg by assumption.
           apply holdsLatest_skip; [now apply Hsome | assumption].
      * intros k Hg Hk q' Hin.
        destruct (string_dec c k) as [<- | Hck];
          [now rewrite get_set_same in Hg |].
        rewrite get_set_other in Hg by assumption.
        apply in_app_or in Hin as [Hin | [<- | []]];
          [now apply Hnone | assumption].
  - (* no identity: the record is skipped *)
    apply nonEmpty_false in Hne. split.
    + intros k r Hg. apply holdsLatest_skip; [now apply Hsome |].
      rewrite Hne. intros <-. now apply (Hkeys _ _ Hg).
    + intros k Hg Hk q' Hin.
      apply in_app_or in Hin as [Hin | [<- | []]];
        [now apply Hnone | congruence].
Qed.

Lemma tracks_fold (xs pre : list Post) (m : list (string * Post)) :
  tracks pre m -> tracks (pre ++ xs) (fold_left normalizeStep xs m).
Proof.
  revert pre m. induction xs as [| p r IH]; simpl; intros pre m Hm.
  - now rewrite app_nil_r.
  - replace (pre ++ p :: r) with ((pre ++ [p]) ++ r)
      by (rewrite <- app_assoc; reflexivity).
    apply IH. now apply tracks_step.
Qed.

(** the map of [normalizePosts] *)
Definition byIdOf (xs : list Post) : list (string * Post) :=
  fold_left normalizeStep xs [].

Lemma tracks_byIdOf (xs : list Post) : tracks xs (byIdOf xs).
Proof. apply (tracks_fold xs [] []), tracks_nil. Qed.

Lemma laterPost_asym (a b : Post) :
  laterPost a b = true -> laterPost b a = false.
Proof. apply gt_asym. Qed.

Lemma In_normalizePosts (xs : list Post) (r : Post) :
  In r (normalizePosts xs) <-> exists k, In (k, r) (byIdOf xs).
Proof.
  unfold normalizePosts. cbv zeta. rewrite jsSort_In.
  unfold JsMap.values. rewrite in_map_iff. split.
  - intros ([k r'] & <- & Hin). now exists k.
  - intros (k & Hin). now exists (k, r).
Qed.

(** every record of the result is stored under its identity and holds
    the latest timestamp of that identity *)
Lemma normalizePosts_records (xs : list Post) (r : Post) :
  In r (normalizePosts xs) ->
  exists k, keyed k r /\ holdsLatest xs k r.
Proof.
  intros Hin. apply In_normalizePosts in Hin as (k & Hin).
  destruct (tracks_byIdOf xs) as ([Hnd Hk] & Hsome & _).
  exists k. split; [now apply Hk |].
  apply Hsome. now apply In_get_Some.
Qed.

(** every identity of the input has its record in the result *)
Lemma normalizePosts_covers (xs : list Post) (p : Post) :
  In p xs -> canonicalId p <> "" ->
  exists r, In r (normalizePosts xs) /\ id r = Some (canonicalId p).
Proof.
  intros Hin Hne.
  destruct (tracks_byIdOf xs) as ([Hnd Hk] & _ & Hnone).
  destruct (JsMap.get (canonicalId p) (byIdOf xs)) as [r |] eqn:G.
  - exists r. apply get_Some_In in G. split.
    + apply In_normalizePosts. now exists (canonicalId p).
    + apply (Hk _ _ G).
  - exfalso. now apply (Hnone _ G Hne p Hin).
Qed.

Lemma ids_of_values (m : list (string * Post)) :
  wellKeyed m -> map id (JsMap.values m) = map Some (JsMap.keys m).
Proof.
  intros [_ Hk]. induction m as [| [k r] m' IH]; simpl; [reflexivity |].
  f_equal.
  - apply (Hk k r). now left.
  - apply IH. intros k' r' Hin. apply Hk. now right.
Qed.

(** one record for each identity *)
Lemma normalizePosts_NoDup (xs : list Post) :
  NoDup (map id (normalizePosts xs)).
Proof.
  destruct (tracks_byIdOf xs) as (Hwk & _).
  unfold normalizePosts. cbv zeta. fold (byIdOf xs).
  eapply Permutation_NoDup.
  - apply Permutation_map. symmetry. apply jsSort_perm.
  - rewrite (ids_of_values _ Hwk).
    apply Finite.Injective_map_NoDup; [| apply Hwk].
    intros a b [=]. assumption.
Qed.

End NormalizerTracking.

(** ** Record normaliser: two records of one identity *)

Section PairFacts.
Context {D : DateModel}.

Lemma normalizePosts_pair (a b : Post) :
  canonicalId a = canonicalId b -> canonicalId a <> "" ->
  normalizePosts [a; b]
  = [mergePost (setId a (canonicalId a)) (setId b (canonicalId a))].
Proof.
  intros Hab Hne. unfold normalizePosts. cbv zeta. simpl.
  unfold normalizeStep at 2. cbv zeta.
  apply nonEmpty_true in Hne. rewrite Hne. simpl.
  unfold normalizeStep. cbv zeta. rewrite <- Hab, Hne. simpl.
  rewrite String.eqb_refl. simpl. reflexivity.
Qed.

End PairFacts.

(** C4. The merge is monotonic on the timestamp: of two records of one
    canonical identity, the one being earlier than the other by parsed
    instant (a timestamp that does not parse being earlier than any that
    does), the merged record carries the timestamp of the later one,
    whichever of the two comes first.  And in general: a record of the
    normalised list carries the timestamp of one of the input records of
    its identity, and none of those is later. *)
Theorem merge_keeps_later_timestamp {D : DateModel} :
  (forall a b : Post,
      canonicalId a = canonicalId b ->
      canonicalId a <> "" ->
      earlier (instant a) (instant b) ->
      exists r r',
        normalizePosts [a; b] = [r] /\ normalizePosts [b; a] = [r']
        /\ timestamp r = timestamp b /\ timestamp r' = timestamp b)
  /\ (forall (xs : list Post) (r : Post),
         In r (normalizePosts xs) ->
         (exists p, In p xs /\ canonicalId p = canonicalId r
                    /\ timestamp p = timestamp r)
         /\ (forall p, In p xs -> canonicalId p = canonicalId r ->
                       notLater (instant p) (instant r))).
Proof.
  split.
  - intros a b Hab Hne Hlt.
    exists (mergePost (setId a (canonicalId a)) (setId b (canonicalId a))),
           (mergePost (setId b (canonicalId b)) (setId a (canonicalId b))).
    split; [now apply normalizePosts_pair |].
    split; [apply normalizePosts_pair; congruence |].
    rewrite !mergePost_fields. simpl. split.
    + assert (T : takesIncoming (setId a (canonicalId a))
                                (setId b (canonicalId a)) = true)
        by now apply takesIncoming_true.
      now rewrite T.
    + destruct (takesIncoming (setId b (canonicalId b))
                              (setId a (canonicalId b))) eqn:T;
        [| reflexivity].
      apply takesIncoming_true in T. rewrite !instant_setId in T.
      destruct (instant a), (instant b); simpl in *; try tauto; lia.
  - intros xs r Hr.
    destruct (normalizePosts_records xs r Hr) as (k & Hkr & Hl).
    rewrite (keyed_canonicalId k r Hkr). exact Hl.
Qed.

(** C7. Of two records of one canonical identity the first met is
    retained, and the merge fills its [url], [uri] and [content] from the
    other record where they are empty: a field that is not empty in the
    retained record stays as it is, an empty one takes the other record's
    value when that is not empty.  The fill leaves every other field of
    the retained record alone: its other properties are kept, its [id]
    is the canonical identity, and its timestamp is as the timestamp
    rule alone decides. *)
Theorem merge_fills_optional_fields {D : DateModel} (a b : Post) :
  canonicalId a = canonicalId b ->
  canonicalId a <> "" ->
  exists r,
    normalizePosts [a; b] = [r]
    /\ (Js.truthy (url a) = true -> url r = url a)
    /\ (Js.truthy (url a) = false -> Js.truthy (url b) = true ->
        url r = url b)
    /\ (Js.truthy (uri a) = true -> uri r = uri a)
    /\ (Js.truthy (uri a) = false -> Js.truthy (uri b) = true ->
        uri r = uri b)
    /\ (Js.truthy (content a) = true -> content r = content a)
    /\ (Js.truthy (content a) = false -> Js.truthy (content b) = true ->
        content r = content b)
    /\ (Js.truthy (url a) = false -> Js.truthy (url b) = false ->
        url r = url a)
    /\ (Js.truthy (uri a) = false -> Js.truthy (uri b) = false ->
        uri r = uri a)
    /\ (Js.truthy (content a) = false -> Js.truthy (content b) = false ->
        content r = content a)
    /\ extra r = extra a
    /\ id r = Some (canonicalId a)
    /\ timestamp r = (if takesIncoming a b then timestamp b else timestamp a).
Proof.
  intros Hab Hne.
  exists (mergePost (setId a (canonicalId a)) (setId b (canonicalId a))).
  split; [now apply normalizePosts_pair |].
  rewrite mergePost_fields. simpl. unfold filled.
  repeat split; try (intros -> ; try intros ->; reflexivity).
Qed.

(** ** Record normaliser: a second pass *)

Section SecondPass.
Context {D : DateModel}.

Lemma get_app {V : Type} (k : string) (m1 m2 : list (string * V)) :
  JsMap.get k (m1 ++ m2)
  = match JsMap.get k m1 with
    | Some v => Some v
    | None => JsMap.get k m2
    end.
Proof.
  induction m1 as [| [k0 v0] r IH]; simpl; [reflexivity |].
  destruct (String.eqb k k0); [reflexivity | exact IH].
Qed.

(** records that are stored under their identities, one for each, are
    put into the map as they are and in their order *)
Lemma fold_normalizeStep_keyed (l : list Post) (m0 : list (string * Post)) :
  (forall r, In r l -> exists k, keyed k r) ->
  NoDup (map id l) ->
  (forall r k, In r l -> id r = Some k -> JsMap.get k m0 = None) ->
  fold_left normalizeStep l m0
  = m0 ++ map (fun r => (canonicalId r, r)) l.
Proof.
  revert m0. induction l as [| r l IH]; simpl; intros m0 Hk Hnd Hfresh.
  - now rewrite app_nil_r.
  - destruct (Hk r (or_introl eq_refl)) as (k & Hkr).
    pose proof (keyed_canonicalId k r Hkr) as Hc.
    assert (Hstep : normalizeStep m0 r = m0 ++ [(k, r)]).
    { unfold normalizeStep. cbv zeta. rewrite Hc.
      destruct Hkr as (Hid & Hne & Hkind).
      apply nonEmpty_true in Hne. rewrite Hne. simpl.
      rewrite (Hfresh r k (or_introl eq_refl) Hid).
      rewrite set_new by (apply (Hfresh r k (or_introl eq_refl) Hid)).
      f_equal. f_equal. f_equal. destruct r; simpl in *. now subst. }
    rewrite Hstep, Hc. apply NoDup_cons_iff in Hnd as [Hnotin Hnd'].
    rewrite IH.
    + rewrite <- app_assoc. reflexivity.
    + intros r' Hin. apply Hk. now right.
    + assumption.
    + intros r' k' Hin Hid'. rewrite get_app.
      rewrite (Hfresh r' k' (or_intror Hin) Hid'). simpl.
      destruct (String.eqb_spec k' k) as [-> | Hne]; [| reflexivity].
      exfalso. apply Hnotin. destruct Hkr as (Hid & _).
      rewrite Hid, <- Hid'. now apply in_map.
Qed.

Lemma values_of_keyed (l : list Post) :
  JsMap.values (map (fun r => (canonicalId r, r)) l) = l.
Proof.
  unfold JsMap.values. rewrite map_map. simpl. apply map_id.
Qed.

Lemma normalizePosts_again (xs : list Post) :
  normalizePosts (normalizePosts xs) = normalizePosts xs.
Proof.
  set (l := normalizePosts xs).
  assert (Hfold : fold_left normalizeStep l []
                  = map (fun r => (canonicalId r, r)) l).
  { apply (fold_normalizeStep_keyed l []).
    - intros r Hin. destruct (normalizePosts_records xs r Hin) as (k & H & _).
      now exists k.
    - apply normalizePosts_NoDup.
    - reflexivity. }
  unfold normalizePosts at 1. cbv zeta. rewrite Hfold, values_of_keyed.
  apply jsSort_of_inOrder. unfold l, normalizePosts. cbv zeta.
  apply jsSort_inOrder. apply laterPost_asym.
Qed.

End SecondPass.

(** C10. [normalizePosts] is idempotent: normalising a list that is
    already the result of [normalizePosts] changes neither the records,
    nor their identities, nor their order. *)
Theorem normalizePosts_idempotent {D : DateModel} (xs : list Post) :
  normalizePosts (normalizePosts xs) = normalizePosts xs.
Proof. apply normalizePosts_again. Qed.

(** ** Record normaliser: order and grouping of the input *)

Section Timeline.
Context {D : DateModel}.

(** [v] is the latest instant among the records of [xs] of identity [k] *)
Definition latestInstant (xs : list Post) (k : string) (v : option Z)
  : Prop :=
  (exists p, In p xs /\ canonicalId p = k /\ instant p = v)
  /\ (forall p, In p xs -> canonicalId p = k -> notLater (instant p) v).

(** two lists of records hold the same identities, as often, and under
    each identity the same instant *)
Definition sameTimeline (l l' : list Post) : Prop :=
  Permutation (map id l) (map id l')
  /\ (forall r r', In r l -> In r' l' -> id r = id r' ->
                   instant r = instant r').

Lemma holdsLatest_instant (xs : list Post) (k : string) (r : Post) :
  holdsLatest xs k r -> latestInstant xs k (instant r).
Proof.
  intros [(p & Hin & Hk & Ht) Hb]. split; [| assumption].
  exists p. repeat split; try assumption. unfold instant. now rewrite Ht.
Qed.

Lemma latestInstant_unique (xs : list Post) (k : string) (v v' : option Z) :
  latestInstant xs k v -> latestInstant xs k v' -> v = v'.
Proof.
  intros [(p & Hp & Hpk & <-) Hb] [(q & Hq & Hqk & <-) Hb'].
  apply notLater_antisym; auto.
Qed.

Lemma ids_transfer (zs zs' : list Post) :
  (forall k v, k <> "" -> latestInstant zs k v -> latestInstant zs' k v) ->
  forall x, In x (map id (normalizePosts zs)) ->
            In x (map id (normalizePosts zs')).
Proof.
  intros H x Hin. apply in_map_iff in Hin as (r & <- & Hr).
  destruct (normalizePosts_records zs r Hr) as (k & (Hid & Hne & Hkind) & Hl).
  apply holdsLatest_instant, (H k _ Hne) in Hl.
  destruct Hl as [(p & Hp & Hpk & _) _].
  destruct (normalizePosts_covers zs' p Hp) as (r' & Hr' & Hid');
    [congruence |].
  apply in_map_iff. exists r'. split; [congruence | assumption].
Qed.

Lemma sameTimeline_normalizePosts (zs zs' : list Post) :
  (forall k v, k <> "" -> latestInstant zs k v -> latestInstant zs' k v) ->
  (forall k v, k <> "" -> latestInstant zs' k v -> latestInstant zs k v) ->
  sameTimeline (normalizePosts zs) (normalizePosts zs').
Proof.
  intros H H'. split.
  - apply NoDup_Permutation; try apply normalizePosts_NoDup.
    intros x. split; now apply ids_transfer.
  - intros r r' Hr Hr' Hid.
    destruct (normalizePosts_records zs r Hr)
      as (k & (Hk & Hne & _) & Hl).
    destruct (normalizePosts_records zs' r' Hr')
      as (k' & (Hk' & _ & _) & Hl').
    assert (k = k') by congruence. subst k'.
    apply holdsLatest_instant in Hl, Hl'.
    apply (H k _ Hne) in Hl.
    exact (latestInstant_unique _ _ _ _ Hl Hl').
Qed.

Lemma latestInstant_perm (xs ys : list Post) (k : string) (v : option Z) :
  Permutation xs ys -> latestInstant xs k v -> latestInstant ys k v.
Proof.
  intros Hp [(p & Hin & Hk & Hv) Hb]. split.
  - exists p. split; [now apply (Permutation_in _ Hp) | now split].
  - intros q Hq. apply Hb. apply (Permutation_in _ (Permutation_sym Hp) Hq).
Qed.

(** a record of the normalised list stands for the records of its
    identity: it has the instant of one, and none of them is later *)
Lemma normalized_stands (xs : list Post) (r : Post) :
  In r (normalizePosts xs) ->
  latestInstant xs (canonicalId r) (instant r).
Proof.
  intros Hr. destruct (normalizePosts_records xs r Hr) as (k & Hkr & Hl).
  rewrite (keyed_canonicalId k r Hkr). now apply holdsLatest_instant.
Qed.

Lemma normalized_has (xs : list Post) (p : Post) :
  In p xs -> canonicalId p <> "" ->
  exists r, In r (normalizePosts xs) /\ canonicalId r = canonicalId p.
Proof.
  intros Hp Hne. destruct (normalizePosts_covers xs p Hp Hne) as (r & Hr & Hid).
  exists r. split; [assumption |].
  destruct (normalizePosts_records xs r Hr) as (k & Hkr & _).
  rewrite (keyed_canonicalId k r Hkr). destruct Hkr as (Hid' & _). congruence.
Qed.

Lemma latestInstant_regroup (xs ys : list Post) (k : string) (v : option Z) :
  k <> "" ->
  latestInstant (normalizePosts xs ++ ys) k v
  <-> latestInstant (xs ++ ys) k v.
Proof.
  intros Hne. split.
  - intros [(p & Hin & Hk & Hv) Hb]. split.
    + apply in_app_or in Hin as [Hin | Hin].
      * destruct (normalized_stands xs p Hin) as [(q & Hq & Hqk & Hqv) _].
        exists q. split; [apply in_or_app; now left |].
        split; congruence.
      * exists p. split; [apply in_or_app; now right | now split].
    + intros q Hq Hqk. apply in_app_or in Hq as [Hq | Hq].
      * destruct (normalized_has xs q Hq) as (r & Hr & Hrk); [congruence |].
        eapply notLater_trans.
        -- apply (proj2 (normalized_stands xs r Hr)); [assumption |].
           congruence.
        -- apply Hb; [apply in_or_app; now left | congruence].
      * apply Hb; [apply in_or_app; now right | assumption].
  - intros [(p & Hin & Hk & Hv) Hb]. split.
    + apply in_app_or in Hin as [Hin | Hin].
      * destruct (normalized_has xs p Hin) as (r & Hr & Hrk); [congruence |].
        exists r. split; [apply in_or_app; now left |].
        split; [congruence |].
        pose proof (normalized_stands xs r Hr) as [(q & Hq & Hqk & Hqv) Hrb].
        apply notLater_antisym.
        -- rewrite <- Hqv. apply Hb; [apply in_or_app; now left | congruence].
        -- rewrite <- Hv. apply Hrb; [assumption | congruence].
      * exists p. split; [apply in_or_app; now right | now split].
    + intros q Hq Hqk. apply in_app_or in Hq as [Hq | Hq].
      * destruct (normalized_stands xs q Hq) as [(q' & Hq' & Hqk' & Hqv') _].
        rewrite <- Hqv'. apply Hb; [apply in_or_app; now left | congruence].
      * apply Hb; [apply in_or_app; now right | assumption].
Qed.

End Timeline.

(** ** Record normaliser: the record kept under an identity *)

Section MergedRecord.
Context {D : DateModel}.

(** one turn of the loop, seen from the identity [k]: [acc] is the entry
    under [k] so far *)
Definition mergeInto (k : string) (acc : option Post) (p : Post)
  : option Post :=
  if String.eqb (canonicalId p) k
  then Some match acc with
            | None => setId p k
            | Some existing => mergePost existing (setId p k)
            end
  else acc.

(** the record that [normalizePosts] keeps under [k]: the records of
    identity [k] merged from left to right *)
Definition mergedAt (k : string) (xs : list Post) : option Post :=
  fold_left (mergeInto k) xs None.

Lemma get_normalizeStep (k : string) (m : list (string * Post)) (p : Post) :
  k <> "" ->
  JsMap.get k (normalizeStep m p) = mergeInto k (JsMap.get k m) p.
Proof.
  intros Hk. unfold normalizeStep, mergeInto. cbv zeta.
  destruct (Str.nonEmpty (canonicalId p)) eqn:Hne; simpl.
  - destruct (String.eqb_spec (canonicalId p) k) as [<- | Hck].
    + destruct (JsMap.get (canonicalId p) m); now rewrite get_set_same.
    + destruct (JsMap.get (canonicalId p) m);
        now rewrite get_set_other.
  - apply nonEmpty_false in Hne. rewrite Hne.
    destruct (String.eqb_spec "" k); [congruence | reflexivity].
Qed.

Lemma get_fold_normalizeStep (k : string) (xs : list Post)
      (m : list (string * Post)) :
  k <> "" ->
  JsMap.get k (fold_left normalizeStep xs m)
  = fold_left (mergeInto k) xs (JsMap.get k m).
Proof.
  intros Hk. revert m. induction xs as [| p r IH]; intros m; simpl;
    [reflexivity |].
  now rewrite IH, get_normalizeStep.
Qed.

Lemma get_byIdOf (k : string) (xs : list Post) :
  k <> "" -> JsMap.get k (byIdOf xs) = mergedAt k xs.
Proof. intros Hk. apply (get_fold_normalizeStep k xs [] Hk). Qed.

(** the records of the result are the merged records of the identities *)
Lemma In_normalizePosts_mergedAt (xs : list Post) (r : Post) :
  In r (normalizePosts xs)
  <-> exists k, k <> "" /\ mergedAt k xs = Some r.
Proof.
  rewrite In_normalizePosts.
  destruct (tracks_byIdOf xs) as ([Hnd Hk] & _). split.
  - intros (k & Hin). exists k. split; [apply (Hk k r Hin) |].
    rewrite <- get_byIdOf by apply (Hk k r Hin). now apply In_get_Some.
  - intros (k & Hne & Hm). exists k. apply get_Some_In.
    now rewrite get_byIdOf.
Qed.

Lemma mergedAt_key (k : string) (xs : list Post) (r : Post) :
  k <> "" -> mergedAt k xs = Some r -> keyed k r.
Proof.
  intros Hne Hm. rewrite <- get_byIdOf in Hm by assumption.
  destruct (tracks_byIdOf xs) as ([_ Hk] & _).
  apply Hk. now apply get_Some_In.
Qed.

(** over records stored under their identities, one for each, the merge
    from left to right meets at most one record of identity [k] *)
Lemma fold_mergeInto_keyed (k : string) (l : list Post) (acc : option Post) :
  (forall r, In r l -> exists k', keyed k' r) ->
  NoDup (map id l) ->
  (acc = None \/ forall r, In r l -> canonicalId r <> k) ->
  fold_left (mergeInto k) l acc
  = match acc with
    | Some e => Some e
    | None => find (fun r => String.eqb (canonicalId r) k) l
    end.
Proof.
  revert acc. induction l as [| x l IH]; intros acc Hk Hnd Hacc; simpl.
  - destruct acc; reflexivity.
  - apply NoDup_cons_iff in Hnd as [Hnotin Hnd].
    assert (Hk' : forall r, In r l -> exists k', keyed k' r)
      by (intros r Hr; apply Hk; now right).
    unfold mergeInto at 2.
    destruct (String.eqb_spec (canonicalId x) k) as [Hx | Hx].
    + destruct Hacc as [-> | Hno];
        [| exfalso; now apply (Hno x (or_introl eq_refl))].
      destruct (Hk x (or_introl eq_refl)) as (k' & Hkx).
      assert (k' = k) by (rewrite <- Hx; symmetry;
                          now apply keyed_canonicalId).
      subst k'. rewrite (keyed_setId_self k x Hkx).
      rewrite IH; [reflexivity | assumption | assumption |].
      right. intros r Hr Hrk. apply Hnotin.
      destruct (Hk' r Hr) as (k2 & Hk2).
      assert (k2 = k) by (rewrite <- Hrk; symmetry;
                          now apply keyed_canonicalId).
      subst k2. destruct Hkx as (-> & _). destruct Hk2 as (<- & _).
      now apply in_map.
    + rewrite IH; [reflexivity | assumption | assumption |].
      destruct Hacc as [-> | Hno]; [now left |].
      right. intros r Hr. apply Hno. now right.
Qed.

(** a second pass keeps, under each identity, the record of the first *)
Lemma mergedAt_normalized (k : string) (xs : list Post) :
  k <> "" -> mergedAt k (normalizePosts xs) = mergedAt k xs.
Proof.
  intros Hne. unfold mergedAt at 1.
  rewrite fold_mergeInto_keyed.
  - destruct (find (fun r => String.eqb (canonicalId r) k)
                   (normalizePosts xs)) as [r |] eqn:F.
    + apply find_some in F as [Hr Hrk].
      apply String.eqb_eq in Hrk.
      apply In_normalizePosts_mergedAt in Hr as (k' & Hne' & Hm).
      pose proof (keyed_canonicalId k' r (mergedAt_key k' xs r Hne' Hm)).
      congruence.
    + destruct (mergedAt k xs) as [r |] eqn:Hm; [| reflexivity].
      exfalso.
      assert (Hr : In r (normalizePosts xs))
        by (apply In_normalizePosts_mergedAt; now exists k).
      pose proof (find_none _ _ F r Hr) as Hf. cbv beta in Hf.
      rewrite (keyed_canonicalId k r (mergedAt_key k xs r Hne Hm)) in Hf.
      now rewrite String.eqb_refl in Hf.
  - intros r Hr. destruct (normalizePosts_records xs r Hr) as (k' & H & _).
    now exists k'.
  - apply normalizePosts_NoDup.
  - now left.
Qed.

Lemma mergedAt_app (k : string) (xs ys : list Post) :
  mergedAt k (xs ++ ys) = fold_left (mergeInto k) ys (mergedAt k xs).
Proof. unfold mergedAt. apply fold_left_app. Qed.

Lemma NoDup_of_ids (l : list Post) : NoDup (map id l) -> NoDup l.
Proof. apply NoDup_map_inv. Qed.

(** grouping, the order being kept, changes no record of the result *)
Lemma normalizePosts_regroup (xs ys : list Post) :
  Permutation (normalizePosts (normalizePosts xs ++ ys))
              (normalizePosts (xs ++ ys)).
Proof.
  apply NoDup_Permutation;
    try (apply NoDup_of_ids, normalizePosts_NoDup).
  intros r. rewrite !In_normalizePosts_mergedAt.
  split; intros (k & Hne & Hm); exists k; (split; [assumption |]);
    rewrite mergedAt_app in *;
    [rewrite <- mergedAt_normalized | rewrite mergedAt_normalized];
    assumption.
Qed.

End MergedRecord.

(** C3, as the code has it.  Grouping alone changes nothing: normalising
    in two passes, [normalizePosts (normalizePosts xs ++ ys)], gives the
    records of normalising in one, [normalizePosts (xs ++ ys)].  The
    order of the input matters, but neither to the set of canonical
    identities of the result, each met once, nor to the parsed instant
    kept under each identity, which is the latest of that identity: the
    results for a list and for any permutation of it agree on both.
    (Which record's other fields are kept under an identity is decided
    by the order: the first one met wins.) *)
Theorem normalizePosts_timeline_order_independent {D : DateModel} :
  (forall xs ys : list Post,
      Permutation xs ys ->
      sameTimeline (normalizePosts xs) (normalizePosts ys))
  /\ (forall xs ys : list Post,
         Permutation (normalizePosts (normalizePosts xs ++ ys))
                     (normalizePosts (xs ++ ys))).
Proof.
  split.
  - intros xs ys Hp. apply sameTimeline_normalizePosts; intros k v _.
    + now apply latestInstant_perm.
    + apply latestInstant_perm. now symmetry.
  - exact normalizePosts_regroup.
Qed.

(** ** The latest record *)

Section LatestFacts.
Context {D : DateModel}.

(** [r] is in [l], no record of [l] is later than [r], and those before
    [r] are earlier: [r] is the first of the latest ones *)
Definition firstLatest (l : list Post) (r : Post) : Prop :=
  exists l1 l2,
    l = l1 ++ r :: l2
    /\ (forall x, In x l1 -> earlier (instant x) (instant r))
    /\ (forall x, In x l2 -> notLater (instant x) (instant r)).

Lemma earlier_trans_l a b c : notLater a b -> earlier b c -> earlier a c.
Proof. destruct a, b, c; simpl; try tauto; lia. Qed.

Lemma fold_pickLater_firstLatest (l l1 l2 : list Post) (a : Post) :
  instant a <> None ->
  (forall x, In x l1 -> earlier (instant x) (instant a)) ->
  (forall x, In x l2 -> notLater (instant x) (instant a)) ->
  exists r,
    fold_left pickLater l (Some a) = Some r
    /\ firstLatest (l1 ++ a :: l2 ++ l) r.
Proof.
  revert l1 l2 a. induction l as [| y l IH]; intros l1 l2 a Ha H1 H2; simpl.
  - exists a. split; [reflexivity |]. exists l1, l2.
    rewrite app_nil_r. auto.
  - fold (instant y). fold (instant a).
    destruct (JsDate.gt (instant y) (instant a)) eqn:G.
    + assert (Hlt : earlier (instant a) (instant y)).
      { destruct (instant y), (instant a); simpl in *; try discriminate.
        now apply Z.ltb_lt. }
      destruct (IH (l1 ++ a :: l2) [] y) as (r & Hr & Hf).
      * destruct (instant y); [discriminate | destruct (instant a); tauto].
      * intros x Hin. apply in_app_or in Hin as [Hin | [<- | Hin]].
        -- eapply earlier_trans_l; [apply earlier_notLater, H1 |]; eauto.
        -- assumption.
        -- eapply earlier_trans_l; [apply H2 |]; eauto.
      * intros x [].
      * exists r. split; [assumption |].
        simpl in Hf. rewrite <- app_assoc in Hf. exact Hf.
    + assert (Hle : notLater (instant y) (instant a)).
      { destruct (instant y), (instant a); simpl in *; try tauto.
        apply Z.ltb_ge in G. lia. }
      destruct (IH l1 (l2 ++ [y]) a Ha H1) as (r & Hr & Hf).
      * intros x Hin. apply in_app_or in Hin as [Hin | [<- | []]]; auto.
      * exists r. split; [assumption |].
        rewrite <- app_assoc in Hf. exact Hf.
Qed.

Lemma normalizePosts_instants (posts : list Post) (r : Post) :
  (forall p, In p posts -> instant p <> None) ->
  In r (normalizePosts posts) -> instant r <> None.
Proof.
  intros Hv Hr.
  destruct (normalized_stands posts r Hr) as [(p & Hp & _ & <-) _].
  now apply Hv.
Qed.

End LatestFacts.


(** ** Hourly counts *)

Section HourFacts.

Lemma setUTCMinutes0_floor (t : Z) :
  JsDate.setUTCMinutes0 t = (3600000 * (t / 3600000))%Z.
Proof.
  unfold JsDate.setUTCMinutes0, JsDate.Day, JsDate.HourFromTime,
    JsDate.msPerDay, JsDate.msPerHour.
  replace 86400000%Z with (3600000 * 24)%Z by reflexivity.
  rewrite <- Z.div_div by lia.
  pose proof (Z.div_mod (t / 3600000) 24). lia.
Qed.

Lemma setUTCMinutes0_valid (t : Z) :
  validTime t -> validTime (JsDate.setUTCMinutes0 t).
Proof.
  unfold validTime, maxTime. intros Ht. rewrite setUTCMinutes0_floor.
  pose proof (Z.div_mod t 3600000).
  pose proof (Z.mod_pos_bound t 3600000). lia.
Qed.

End HourFacts.

Section BucketFacts.

(** [(buckets.get(k) || 0) + 1] put back under [k] *)
Definition bump (buckets : list (string * nat)) (k : string)
  : list (string * nat) :=
  JsMap.set k (match JsMap.get k buckets with Some n => n | None => 0 end + 1)
            buckets.

Definition total (buckets : list (string * nat)) : nat :=
  list_sum (JsMap.values buckets).

Lemma total_set_new (m : list (string * nat)) (k : string) (n : nat) :
  JsMap.get k m = None -> total (JsMap.set k n m) = total m + n.
Proof.
  intros G. rewrite (set_new m k n G). unfold total, JsMap.values.
  rewrite map_app, list_sum_app. simpl. lia.
Qed.

Lemma total_set_present (m : list (string * nat)) (k : string) (n n0 : nat) :
  JsMap.get k m = Some n0 -> total (JsMap.set k n m) + n0 = total m + n.
Proof.
  unfold total, JsMap.values.
  induction m as [| [k1 v1] r IH]; simpl; [discriminate |].
  destruct (String.eqb k k1); simpl.
  - intros [= ->]. lia.
  - intros G. specialize (IH G). lia.
Qed.

Lemma total_bump (m : list (string * nat)) (k : string) :
  total (bump m k) = S (total m).
Proof.
  unfold bump. destruct (JsMap.get k m) as [n0 |] eqn:G.
  - pose proof (total_set_present m k (n0 + 1) n0 G). lia.
  - rewrite total_set_new by assumption. lia.
Qed.

Lemma get_bump (m : list (string * nat)) (k k' : string) :
  JsMap.get k' (bump m k)
  = if String.eqb k k'
    then Some (match JsMap.get k m with Some n => n | None => 0 end + 1)
    else JsMap.get k' m.
Proof.
  unfold bump. destruct (String.eqb_spec k k') as [<- | Hne].
  - apply get_set_same.
  - now apply get_set_other.
Qed.

(** how often [k] is among [ks] *)
Fixpoint occurrences (k : string) (ks : list string) : nat :=
  match ks with
  | [] => 0
  | k' :: r => (if String.eqb k' k then 1 else 0) + occurrences k r
  end.

Lemma total_fold_bump (ks : list string) (m : list (string * nat)) :
  total (fold_left bump ks m) = total m + List.length ks.
Proof.
  revert m. induction ks as [| k r IH]; simpl; intros m; [lia |].
  rewrite IH, total_bump. lia.
Qed.

Lemma NoDup_fold_bump (ks : list string) (m : list (string * nat)) :
  NoDup (JsMap.keys m) -> NoDup (JsMap.keys (fold_left bump ks m)).
Proof.
  revert m. induction ks as [| k r IH]; simpl; intros m H; [assumption |].
  apply IH. now apply NoDup_keys_set.
Qed.

Lemma get_fold_bump (ks : list string) (m : list (string * nat)) (k : string) :
  JsMap.get k (fold_left bump ks m)
  = match JsMap.get k m, occurrences k ks with
    | None, 0 => None
    | None, c => Some c
    | Some n, c => Some (n + c)
    end.
Proof.
  revert m. induction ks as [| k0 r IH]; simpl; intros m.
  - destruct (JsMap.get k m); [f_equal; lia | reflexivity].
  - rewrite IH, get_bump. destruct (String.eqb_spec k0 k) as [-> | Hne].
    + destruct (JsMap.get k m) as [n |]; simpl.
      * f_equal. lia.
      * reflexivity.
    + simpl. reflexivity.
Qed.

End BucketFacts.

Section HourlyFacts.
Context {D : DateModel} {L : DateLaws D}.

(** the hour of a record: its instant with minutes, seconds and
    milliseconds set to zero in UTC *)
Definition hourOf (p : Post) : option Z :=
  option_map JsDate.setUTCMinutes0 (instant p).

(** how many records of [l] fall into the hour [h] *)
Definition countAt (h : Z) (l : list Post) : nat :=
  List.length
    (filter (fun r => match hourOf r with
                      | Some h' => Z.eqb h' h
                      | None => false
                      end) l).

Definition bucketHour (b : HourlyBucket) : option Z := date_parse (hour b).

Definition hourKeyOf (p : Post) : string :=
  match hourOf p with Some h => to_iso h | None => "" end.

Lemma to_iso_inj (a b : Z) :
  validTime a -> validTime b -> to_iso a = to_iso b -> a = b.
Proof.
  intros Ha Hb E. apply parse_to_iso in Ha, Hb. congruence.
Qed.

Lemma hourOf_valid (p : Post) :
  instant p <> None -> exists h, hourOf p = Some h /\ validTime h.
Proof.
  unfold hourOf. destruct (instant p) as [t |] eqn:E; [| congruence].
  intros _. exists (JsDate.setUTCMinutes0 t). split; [reflexivity |].
  apply setUTCMinutes0_valid. unfold instant, JsDate.parse in E.
  destruct (timestamp p); [| discriminate]. now apply parse_valid in E.
Qed.

Lemma toHourKey_valid (p : Post) :
  instant p <> None -> toHourKey (timestamp p) = Js.Ok (hourKeyOf p).
Proof.
  unfold toHourKey, hourKeyOf, hourOf, instant. cbv zeta.
  destruct (JsDate.parse (timestamp p)); [reflexivity | congruence].
Qed.

Lemma countHours_valid (l : list Post) (b : list (string * nat)) :
  (forall p, In p l -> instant p <> None) ->
  countHours l b = Js.Ok (fold_left bump (map hourKeyOf l) b).
Proof.
  revert b. induction l as [| p r IH]; simpl; intros b Hv; [reflexivity |].
  rewrite toHourKey_valid by (apply Hv; now left). simpl.
  apply IH. intros q Hq. apply Hv. now right.
Qed.

Lemma occurrences_hourKey (h : Z) (l : list Post) :
  validTime h ->
  (forall p, In p l -> instant p <> None) ->
  occurrences (to_iso h) (map hourKeyOf l) = countAt h l.
Proof.
  intros Hh. unfold countAt.
  induction l as [| p r IH]; simpl; intros Hv; [reflexivity |].
  rewrite IH by (intros q Hq; apply Hv; now right).
  destruct (hourOf_valid p (Hv p (or_introl eq_refl))) as (hp & Hp & Hvp).
  unfold hourKeyOf. rewrite Hp.
  destruct (Z.eqb_spec hp h) as [-> | Hne].
  - now rewrite String.eqb_refl.
  - destruct (String.eqb_spec (to_iso hp) (to_iso h)) as [E | _];
      [| reflexivity].
    exfalso. apply Hne. now apply to_iso_inj.
Qed.

Lemma occurrences_pos (k : string) (ks : list string) :
  occurrences k ks <> 0 -> In k ks.
Proof.
  induction ks as [| k0 r IH]; simpl; [congruence |].
  destruct (String.eqb_spec k0 k) as [-> | _]; [now left |].
  simpl. intros H. right. auto.
Qed.

Lemma In_occurrences (k : string) (ks : list string) :
  In k ks -> occurrences k ks <> 0.
Proof.
  induction ks as [| k0 r IH]; simpl; [tauto |].
  intros [-> | Hin].
  - rewrite String.eqb_refl. simpl. congruence.
  - specialize (IH Hin). lia.
Qed.

Lemma earlier_trans a b c : earlier a b -> earlier b c -> earlier a c.
Proof. destruct a, b, c; simpl; try tauto; lia. Qed.

(** buckets of distinct valid hours that the sort has passed are in
    strictly ascending order of their hours *)
Lemma buckets_ascending (l : list HourlyBucket) :
  (forall b, In b l -> exists h, validTime h /\ hour b = to_iso h) ->
  NoDup (map hour l) ->
  inOrder laterBucket l ->
  StronglySorted (fun a b => earlier (bucketHour a) (bucketHour b)) l.
Proof.
  intros Hv Hnd Hs. apply Sorted_StronglySorted.
  { intros a b c. apply earlier_trans. }
  unfold inOrder in Hs.
  induction l as [| a r IH]; [constructor |].
  inversion Hs as [| ? ? Hr Hh]; subst.
  apply NoDup_cons_iff in Hnd as [Hnotin Hnd].
  constructor.
  - apply IH; auto. intros b Hb. apply Hv. now right.
  - destruct r as [| b r']; constructor.
    inversion Hh as [| ? ? Hab]; subst.
    destruct (Hv a (or_introl eq_refl)) as (ha & Hva & Ea).
    destruct (Hv b (or_intror (or_introl eq_refl))) as (hb & Hvb & Eb).
    unfold laterBucket in Hab. unfold bucketHour.
    rewrite Ea, Eb in *. rewrite !parse_to_iso in * by assumption.
    simpl in *. apply Z.ltb_ge in Hab.
    assert (ha <> hb).
    { intros ->. apply Hnotin. simpl. left. congruence. }
    lia.
Qed.

End HourlyFacts.

Section HourlyResult.
Context {D : DateModel} {L : DateLaws D}.

Lemma list_sum_perm (l l' : list nat) :
  Permutation l l' -> list_sum l = list_sum l'.
Proof. induction 1; simpl; lia. Qed.

Definition bucketOf (e : string * nat) : HourlyBucket :=
  mkBucket (fst e) (snd e).

Lemma computeHourly_valid (posts : list Post) :
  (forall p, In p posts -> instant p <> None) ->
  computeHourly posts
  = Js.Ok (jsSort laterBucket
             (map bucketOf
                  (fold_left bump
                             (map hourKeyOf (normalizePosts posts)) []))).
Proof.
  intros Hv. unfold computeHourly. cbv zeta.
  rewrite countHours_valid; [reflexivity |].
  intros p. now apply normalizePosts_instants.
Qed.

Lemma bucket_entry (ks : list string) (k : string) (n : nat) :
  In (k, n) (fold_left bump ks []) <->
  (n = occurrences k ks /\ n <> 0).
Proof.
  assert (Hnd : NoDup (JsMap.keys (fold_left bump ks [])))
    by (apply NoDup_fold_bump; constructor).
  pose proof (get_fold_bump ks [] k) as G. simpl in G. split.
  - intros Hin. apply (In_get_Some _ _ _ Hnd) in Hin. rewrite Hin in G.
    destruct (occurrences k ks); [discriminate |].
    injection G as ->. split; [reflexivity | congruence].
  - intros [-> Hne]. apply get_Some_In. rewrite G.
    destruct (occurrences k ks); [congruence | reflexivity].
Qed.

End HourlyResult.

(** ** Hourly counts: the hour as the clock has it *)

Section WholeHours.
Context {D : DateModel}.

(** the instant of [r] lies in the hour that begins at [h] *)
Definition inHour (h : Z) (r : Post) : bool :=
  match instant r with
  | Some t => (h <=? t)%Z && (t <? h + 3600000)%Z
  | None => false
  end.

(** [h] is the beginning of an hour of UTC: a whole number of hours
    after the epoch *)
Definition wholeHour (h : Z) : Prop := (h mod 3600000 = 0)%Z.

Lemma setUTCMinutes0_hour (t h : Z) :
  JsDate.setUTCMinutes0 t = h
  <-> wholeHour h /\ (h <= t < h + 3600000)%Z.
Proof.
  rewrite setUTCMinutes0_floor. unfold wholeHour. split.
  - intros <-. Z.div_mod_to_equations. lia.
  - intros [Hm Hr]. Z.div_mod_to_equations. lia.
Qed.

Lemma hourOf_hour (r : Post) (h : Z) :
  hourOf r = Some h <-> wholeHour h /\ inHour h r = true.
Proof.
  unfold hourOf, inHour. destruct (instant r) as [t |]; simpl.
  - split.
    + intros [= E]. apply setUTCMinutes0_hour in E as [Hw Hr].
      split; [exact Hw |]. apply andb_true_iff.
      split; [apply Z.leb_le | apply Z.ltb_lt]; lia.
    + intros [Hw Hr]. apply andb_true_iff in Hr as [H1 H2].
      apply Z.leb_le in H1. apply Z.ltb_lt in H2. f_equal.
      apply setUTCMinutes0_hour. split; [exact Hw | lia].
  - split; [discriminate | intros [_ H]; discriminate].
Qed.

Lemma countAt_inHour (h : Z) (l : list Post) :
  wholeHour h -> countAt h l = List.length (filter (inHour h) l).
Proof.
  intros Hw. unfold countAt. f_equal. apply filter_ext. intros r.
  destruct (hourOf r) as [h' |] eqn:E.
  - destruct (Z.eqb_spec h' h) as [-> | Hne].
    + symmetry. now apply hourOf_hour.
    + destruct (inHour h r) eqn:Ei; [| reflexivity].
      exfalso. apply Hne.
      assert (E' : hourOf r = Some h) by now apply hourOf_hour.
      congruence.
  - destruct (inHour h r) eqn:Ei; [| reflexivity].
    assert (E' : hourOf r = Some h) by now apply hourOf_hour.
    congruence.
Qed.

End WholeHours.

(** C6. On a set of records whose timestamps all parse, [computeHourly]
    returns, and its buckets are determined by the normalised set: their
    counts add up to the size of that set; the hour of each bucket is
    the beginning of an hour of UTC, written by [toISOString], and its
    count is the number of records whose instant lies in that hour, from
    its beginning up to 3600000 ms later, excluded, which is at least
    one; every record's instant lies in the hour of a bucket; no hour
    has two buckets; and the buckets stand in strictly ascending order
    of their hours. *)
Theorem computeHourly_partitions_posts
        {D : DateModel} {L : DateLaws D} (posts : list Post) :
  (forall p, In p posts -> instant p <> None) ->
  exists buckets,
    computeHourly posts = Js.Ok buckets
    /\ list_sum (map count buckets) = List.length (normalizePosts posts)
    /\ (forall b, In b buckets ->
          exists h, validTime h /\ hour b = to_iso h
                    /\ (h mod 3600000 = 0)%Z
                    /\ count b
                       = List.length
                           (filter (fun r =>
                                      match instant r with
                                      | Some t => (h <=? t)%Z
                                                  && (t <? h + 3600000)%Z
                                      | None => false
                                      end)
                                   (normalizePosts posts))
                    /\ 1 <= count b)
    /\ (forall r, In r (normalizePosts posts) ->
          exists t h b, instant r = Some t
                        /\ (h mod 3600000 = 0)%Z
                        /\ (h <= t < h + 3600000)%Z
                        /\ In b buckets /\ hour b = to_iso h)
    /\ NoDup (map hour buckets)
    /\ StronglySorted (fun a b => earlier (bucketHour a) (bucketHour b))
                      buckets.
Proof.
  intros Hv.
  set (l := normalizePosts posts).
  assert (Hl : forall p, In p l -> instant p <> None)
    by (intros p; now apply normalizePosts_instants).
  set (ks := map hourKeyOf l).
  set (m := fold_left bump ks []).
  assert (Hasym : forall a b, laterBucket a b = true -> laterBucket b a = false)
    by (intros a b; apply gt_asym).
  assert (Hperm : Permutation (jsSort laterBucket (map bucketOf m))
                              (map bucketOf m)) by apply jsSort_perm.
  assert (Hnd : NoDup (JsMap.keys m))
    by (apply NoDup_fold_bump; constructor).
  assert (Hb : forall b, In b (jsSort laterBucket (map bucketOf m)) ->
                 exists h, validTime h /\ hour b = to_iso h
                           /\ wholeHour h
                           /\ count b = List.length (filter (inHour h) l)
                           /\ 1 <= count b).
  { intros b Hin. apply (Permutation_in _ Hperm) in Hin.
    apply in_map_iff in Hin as ([k n] & <- & Hin).
    apply bucket_entry in Hin as [-> Hne]. simpl.
    pose proof (occurrences_pos _ _ Hne) as Hk.
    apply in_map_iff in Hk as (p & <- & Hp).
    destruct (hourOf_valid p (Hl p Hp)) as (h & Hh & Hvh).
    pose proof (proj1 (proj1 (hourOf_hour p h) Hh)) as Hw.
    exists h. unfold hourKeyOf in Hne |- *. rewrite Hh in Hne |- *.
    split; [assumption |]. split; [reflexivity |].
    split; [exact Hw |].
    split; [| lia].
    rewrite <- (countAt_inHour h l Hw). now apply occurrences_hourKey. }
  exists (jsSort laterBucket (map bucketOf m)).
  split; [now apply computeHourly_valid |].
  split.
  { rewrite (list_sum_perm _ _ (Permutation_map count Hperm)).
    rewrite map_map. simpl.
    change (list_sum (map (fun x => snd x) m)) with (total m).
    unfold m. rewrite total_fold_bump. unfold ks. now rewrite length_map. }
  split; [exact Hb |].
  split.
  { intros r Hr. destruct (hourOf_valid r (Hl r Hr)) as (h & Hh & Hvh).
    destruct (proj1 (hourOf_hour r h) Hh) as [Hw Hi].
    unfold inHour in Hi. destruct (instant r) as [t |] eqn:Et;
      [| discriminate].
    apply andb_true_iff in Hi as [H1 H2].
    apply Z.leb_le in H1. apply Z.ltb_lt in H2.
    exists t, h, (mkBucket (to_iso h) (occurrences (to_iso h) ks)).
    split; [reflexivity |]. split; [exact Hw |]. split; [lia |].
    split; [| reflexivity].
    apply (Permutation_in _ (Permutation_sym Hperm)).
    apply in_map_iff. exists (to_iso h, occurrences (to_iso h) ks).
    split; [reflexivity |]. apply bucket_entry. split; [reflexivity |].
    apply In_occurrences. unfold ks. apply in_map_iff. exists r.
    split; [| assumption]. unfold hourKeyOf. now rewrite Hh. }
  assert (Hnd' : NoDup (map hour (jsSort laterBucket (map bucketOf m)))).
  { eapply Permutation_NoDup.
    - apply Permutation_map. symmetry. exact Hperm.
    - rewrite map_map. exact Hnd. }
  split; [exact Hnd' |].
  apply buckets_ascending; [| exact Hnd' | now apply jsSort_inOrder].
  intros b Hin. destruct (Hb b Hin) as (h & Hvh & Eh & _). now exists h.
Qed.

(** ** The fuel of the two scanning loops is never used up *)

Section FuelFacts.
Context {D : DateModel}.

Lemma dropPrefix_length (eq : ascii -> ascii -> bool) (p s a : string) :
  Str.dropPrefix eq p s = Some a ->
  String.length s = String.length p + String.length a.
Proof.
  revert s. induction p as [| c p IH]; simpl; intros s H.
  - now injection H as ->.
  - destruct s as [| c' s']; [discriminate |].
    destruct (eq c c'); [| discriminate]. simpl. now rewrite (IH s' H).
Qed.

Lemma splitAt_length (eq : ascii -> ascii -> bool) (p s b a : string) :
  Str.splitAt eq p s = Some (b, a) ->
  String.length s = String.length b + String.length p + String.length a.
Proof.
  revert b. induction s as [| c r IH]; intros b.
  - simpl. destruct (Str.dropPrefix eq p "") as [a' |] eqn:E; [| discriminate].
    intros [= <- <-]. apply dropPrefix_length in E. simpl in *. lia.
  - cbn [Str.splitAt].
    destruct (Str.dropPrefix eq p (String c r)) as [a' |] eqn:E.
    + intros [= <- <-]. apply dropPrefix_length in E. simpl in *. lia.
    + destruct (Str.splitAt eq p r) as [[b' a'] |]; [| discriminate].
      intros [= <- <-]. specialize (IH b' eq_refl). simpl. lia.
Qed.

Lemma matchBetween_length (open close s chunk rest : string) :
  matchBetween open close s = Some (chunk, rest) ->
  String.length open + String.length close + String.length rest
  <= String.length s.
Proof.
  unfold matchBetween.
  destruct (Str.splitAt Str.eqbCI open s) as [[b inner] |] eqn:E1;
    [| discriminate].
  intros E2. apply splitAt_length in E1, E2. lia.
Qed.

(** more fuel than the length of the text changes nothing *)
Lemma parseFeedFrom_fuel (n m : nat) (xml : string) (items : list Post) :
  String.length xml <= n -> String.length xml <= m ->
  parseFeedFrom n xml items = parseFeedFrom m xml items.
Proof.
  revert m xml items. induction n as [| n IH]; intros m xml items Hn Hm.
  - destruct xml; [| simpl in Hn; lia]. destruct m; reflexivity.
  - destruct m as [| m].
    + destruct xml; [reflexivity | simpl in Hm; lia].
    + cbn [parseFeedFrom].
      destruct (matchBetween "<item>" "</item>" xml) as [[chunk rest] |] eqn:E;
        [| reflexivity].
      apply matchBetween_length in E. simpl in E.
      destruct (feedItem chunk items) as [items' | e]; [| reflexivity].
      simpl. apply IH; lia.
Qed.

Lemma parseFeed_fuel (n : nat) (xml : string) :
  String.length xml <= n -> parseFeedFrom n xml [] = parseFeed xml.
Proof. intros H. unfold parseFeed. now apply parseFeedFrom_fuel. Qed.

Lemma unwrapCdata_fuel (n m : nat) (s : string) :
  String.length s <= n -> String.length s <= m ->
  unwrapCdata n s = unwrapCdata m s.
Proof.
  revert m s. induction n as [| n IH]; intros m s Hn Hm.
  - destruct s; [| simpl in Hn; lia]. destruct m; reflexivity.
  - destruct m as [| m].
    + destruct s; [reflexivity | simpl in Hm; lia].
    + cbn [unwrapCdata]. destruct s as [| c r]; [reflexivity |].
      destruct (Str.dropPrefix Ascii.eqb "<![CDATA[" (String c r))
        as [inner |] eqn:E1.
      * destruct (Str.splitAt Ascii.eqb "]]>" inner)
          as [[captured rest] |] eqn:E2.
        -- apply dropPrefix_length in E1. apply splitAt_length in E2.
           simpl in *.
           destruct (noLineTerminator captured).
           ++ f_equal. apply IH; lia.
           ++ f_equal. apply IH; lia.
        -- f_equal. simpl in *. apply IH; lia.
      * f_equal. simpl in *. apply IH; lia.
Qed.

End FuelFacts.

(** ** Feed decoders *)

Section DecoderFacts.
Context {D : DateModel}.

Definition invalidTime : Js.error := Js.RangeError "Invalid time value".

(** an element that passes the two presence tests with a timestamp
    that is no date *)
Definition badTimestamp (item : RawStatus) : Prop :=
  Js.truthy (raw_created_at item) = true
  /\ Js.truthy (Js.or (Js.or (raw_id item) (raw_url item)) (raw_uri item))
     = true
  /\ JsDate.parse (raw_created_at item) = None.

Lemma statusOfItem_bad (item : RawStatus) :
  badTimestamp item -> statusOfItem item = Js.Throw invalidTime.
Proof.
  intros (Ht & Hi & Hp). unfold statusOfItem. cbv zeta.
  rewrite Ht, Hi, Hp. reflexivity.
Qed.

(** the only exception of the callback *)
Lemma statusOfItem_throws (item : RawStatus) (e : Js.error) :
  statusOfItem item = Js.Throw e -> e = invalidTime.
Proof.
  unfold statusOfItem. cbv zeta.
  destruct (negb (Js.truthy (raw_created_at item))
            || negb (Js.truthy (Js.or (Js.or (raw_id item) (raw_url item))
                                      (raw_uri item)))); [discriminate |].
  destruct (JsDate.parse (raw_created_at item)); simpl.
  - destruct (JsDate.isNaN (date_parse (to_iso z))); discriminate.
  - now intros [= <-].
Qed.

Lemma mapM_statusOfItem_bad (items : list RawStatus) (item : RawStatus) :
  In item items -> badTimestamp item ->
  Js.mapM statusOfItem items = Js.Throw invalidTime.
Proof.
  induction items as [| x r IH]; simpl; [tauto |].
  intros [-> | Hin] Hbad.
  - now rewrite (statusOfItem_bad item Hbad).
  - destruct (statusOfItem x) as [y | e] eqn:E; simpl.
    + now rewrite (IH Hin Hbad).
    + now rewrite (statusOfItem_throws x e E).
Qed.

Lemma parseStatusList_bad (items : list RawStatus) (item : RawStatus) :
  In item items -> badTimestamp item ->
  parseStatusList (Statuses items) = Js.Throw invalidTime.
Proof.
  intros Hin Hbad. unfold parseStatusList.
  now rewrite (mapM_statusOfItem_bad items item Hin Hbad).
Qed.

(** a chunk with an identity and a publication date that is no date *)
Definition badPubDate (chunk : string) : Prop :=
  Str.nonEmpty (if Str.nonEmpty (extractTag "guid" chunk)
                then extractTag "guid" chunk
                else extractTag "link" chunk) = true
  /\ Str.nonEmpty (extractTag "pubDate" chunk) = true
  /\ date_parse (extractTag "pubDate" chunk) = None.

Lemma feedItem_bad (chunk : string) (items : list Post) :
  badPubDate chunk -> feedItem chunk items = Js.Throw invalidTime.
Proof.
  intros (Hi & Hp & Hd). unfold feedItem. cbv zeta.
  rewrite Hi, Hp, Hd. reflexivity.
Qed.

(** the only exception of the loop body *)
Lemma feedItem_throws (chunk : string) (items : list Post) (e : Js.error) :
  feedItem chunk items = Js.Throw e -> e = invalidTime.
Proof.
  unfold feedItem. cbv zeta.
  destruct (Str.nonEmpty _ && Str.nonEmpty _); [| discriminate].
  destruct (date_parse (extractTag "pubDate" chunk)); simpl.
  - destruct (negb (JsDate.isNaN (date_parse (to_iso z)))); discriminate.
  - now intros [= <-].
Qed.

(** the chunks that the item pattern matches in [xml], in order *)
Fixpoint chunksFrom (fuel : nat) (xml : string) : list string :=
  match fuel with
  | O => []
  | S fuel' =>
      match matchBetween "<item>" "</item>" xml with
      | None => []
      | Some (chunk, rest) => chunk :: chunksFrom fuel' rest
      end
  end.

Definition feedChunks (xml : string) : list string :=
  chunksFrom (String.length xml) xml.

Lemma parseFeedFrom_bad (fuel : nat) (xml chunk : string) (items : list Post) :
  In chunk (chunksFrom fuel xml) -> badPubDate chunk ->
  parseFeedFrom fuel xml items = Js.Throw invalidTime.
Proof.
  revert xml items. induction fuel as [| n IH]; intros xml items; simpl;
    [tauto |].
  destruct (matchBetween "<item>" "</item>" xml) as [[c rest] |];
    [| intros []].
  intros [-> | Hin] Hbad.
  - now rewrite (feedItem_bad chunk items Hbad).
  - destruct (feedItem c items) as [items' | e] eqn:E; simpl.
    + now apply IH.
    + now rewrite (feedItem_throws c items e E).
Qed.

Lemma parseFeed_bad (xml chunk : string) :
  In chunk (feedChunks xml) -> badPubDate chunk ->
  parseFeed xml = Js.Throw invalidTime.
Proof. apply parseFeedFrom_bad. Qed.

(** where every timestamp that is present parses, the callback returns:
    a record, or its [null] for an element without timestamp or
    identity *)
Lemma statusOfItem_returns (item : RawStatus) :
  (Js.truthy (raw_created_at item) = true ->
   JsDate.parse (raw_created_at item) <> None) ->
  exists r, statusOfItem item = Js.Ok r.
Proof.
  intros Hp. unfold statusOfItem. cbv zeta.
  destruct (Js.truthy (raw_created_at item)); simpl.
  - destruct (negb (Js.truthy (Js.or (Js.or (raw_id item) (raw_url item))
                                     (raw_uri item)))); [eauto |].
    destruct (JsDate.parse (raw_created_at item)); [| now destruct Hp].
    simpl. destruct (JsDate.isNaN (date_parse (to_iso z))); eauto.
  - eauto.
Qed.

(** so the JSON decoder returns where every timestamp that is present
    parses: elements without timestamp or identifier are left out *)
Lemma parseStatusList_returns (items : list RawStatus) :
  (forall item, In item items ->
                Js.truthy (raw_created_at item) = true ->
                JsDate.parse (raw_created_at item) <> None) ->
  exists posts, parseStatusList (Statuses items) = Js.Ok posts.
Proof.
  intros H. unfold parseStatusList.
  assert (M : exists mapped, Js.mapM statusOfItem items = Js.Ok mapped).
  { induction items as [| x r IH]; simpl; [eauto |].
    destruct (statusOfItem_returns x (H x (or_introl eq_refl))) as (y & ->).
    destruct IH as (ys & ->); [intros i Hi; apply H; now right |].
    simpl. eauto. }
  destruct M as (mapped & ->). simpl. eauto.
Qed.


End DecoderFacts.

(** C1, where the code departs from it.  An element that has a timestamp
    and an identifier, the timestamp being no date, does not get dropped:
    [toISOString] throws on the invalid date before the test that was to
    drop the element is reached, and the exception ends the decoder.  So
    it is with the JSON decoder, wherever the element stands in the
    array, and with the syndication decoder, whichever of the items of
    the feed has an identity and a publication date that is no date. *)
Theorem decoders_throw_on_unparseable_timestamp {D : DateModel} :
  (forall (items : list RawStatus) (item : RawStatus),
      In item items -> badTimestamp item ->
      parseStatusList (Statuses items) = Js.Throw invalidTime)
  /\ (forall xml chunk : string,
         In chunk (feedChunks xml) -> badPubDate chunk ->
         parseFeed xml = Js.Throw invalidTime).
Proof.
  split.
  - exact parseStatusList_bad.
  - exact parseFeed_bad.
Qed.

(** ** Binary64: the products that are exact *)

Section Binary64Facts.
Local Open Scope Z_scope.

(** [p] with [n] zeros appended to its binary digits *)
Definition shiftp (p : positive) (n : nat) : positive := Nat.iter n xO p.

Lemma shiftp_value (p : positive) (n : nat) :
  Z.pos (shiftp p n) = Z.pos p * 2 ^ Z.of_nat n.
Proof.
  induction n as [| n IH]; [simpl; lia |].
  change (shiftp p (S n)) with (xO (shiftp p n)).
  rewrite Pos2Z.inj_xO, IH, Nat2Z.inj_succ, Z.pow_succ_r by lia. lia.
Qed.

Lemma digits_shiftp (p : positive) (n : nat) :
  Z.pos (digits2_pos (shiftp p n)) = Z.pos (digits2_pos p) + Z.of_nat n.
Proof.
  induction n as [| n IH]; [simpl; lia |].
  change (shiftp p (S n)) with (xO (shiftp p n)). cbn [digits2_pos].
  rewrite Pos2Z.inj_succ, IH. lia.
Qed.

Lemma digits_bounds (p : positive) :
  2 ^ (Z.pos (digits2_pos p) - 1) <= Z.pos p < 2 ^ Z.pos (digits2_pos p).
Proof.
  induction p as [p IH | p IH |]; cbn [digits2_pos];
    [| | simpl; lia];
    rewrite Pos2Z.inj_succ;
    replace (Z.succ (Z.pos (digits2_pos p)) - 1)
      with (Z.succ (Z.pos (digits2_pos p) - 1)) by lia;
    rewrite !Z.pow_succ_r by lia; lia.
Qed.

Lemma digits_le (p : positive) (n : Z) :
  0 <= n -> Z.pos p < 2 ^ n -> Z.pos (digits2_pos p) <= n.
Proof.
  intros Hn H. destruct (Z.le_gt_cases (Z.pos (digits2_pos p)) n) as [| G];
    [assumption |].
  pose proof (digits_bounds p) as [L _].
  assert (2 ^ n <= 2 ^ (Z.pos (digits2_pos p) - 1))
    by (apply Z.pow_le_mono_r; lia).
  lia.
Qed.

Lemma digits_mono (p q : positive) :
  Z.pos p <= Z.pos q -> Z.pos (digits2_pos p) <= Z.pos (digits2_pos q).
Proof.
  intros H. apply digits_le; [lia |].
  pose proof (digits_bounds q). lia.
Qed.

Lemma iter_pos_nat {A : Type} (f : A -> A) (n : positive) (x : A) :
  iter_pos f n x = Nat.iter (Pos.to_nat n) f x.
Proof.
  revert x. induction n as [n IH | n IH |]; intros x; cbn [iter_pos].
  - rewrite !IH, Pos2Nat.inj_xI.
    change (Nat.iter (S (2 * Pos.to_nat n)) f x)
      with (f (Nat.iter (2 * Pos.to_nat n) f x)).
    replace (2 * Pos.to_nat n)%nat with (Pos.to_nat n + Pos.to_nat n)%nat
      by lia.
    rewrite Nat.iter_add. now rewrite <- !Nat.iter_swap.
  - rewrite !IH, Pos2Nat.inj_xO.
    replace (2 * Pos.to_nat n)%nat with (Pos.to_nat n + Pos.to_nat n)%nat
      by lia.
    now rewrite Nat.iter_add.
  - reflexivity.
Qed.

(** shifting out zeros leaves no remainder *)
Lemma shr_exact (m : positive) (n : nat) :
  Nat.iter n shr_1 (Build_shr_record (Z.pos (shiftp m n)) false false)
  = Build_shr_record (Z.pos m) false false.
Proof.
  induction n as [| n IH]; [reflexivity |].
  rewrite Nat.iter_succ_r.
  change (shiftp m (S n)) with (xO (shiftp m n)). exact IH.
Qed.

(** a mantissa of 53 digits followed by [k] zeros is rounded to itself *)
Lemma binary_round_aux_exact (sx : bool) (m : positive) (k : nat) (e : Z) :
  Z.pos (digits2_pos m) = 53 ->
  -1074 <= e + Z.of_nat k <= 971 ->
  binary_round_aux Num.prec Num.emax sx (Z.pos (shiftp m k)) e loc_Exact
  = S754_finite sx m (e + Z.of_nat k).
Proof.
  intros Hd He. unfold binary_round_aux.
  assert (E1 : shr_fexp Num.prec Num.emax (Z.pos (shiftp m k)) e loc_Exact
               = (Build_shr_record (Z.pos m) false false, e + Z.of_nat k)).
  { unfold shr_fexp, shr. cbn [Zdigits2 shr_record_of_loc].
    rewrite digits_shiftp, Hd.
    replace (fexp Num.prec Num.emax (53 + Z.of_nat k + e) - e)
      with (Z.of_nat k)
      by (unfold fexp, emin, Num.prec, Num.emax; lia).
    destruct k as [| k]; [simpl; f_equal; lia |].
    cbn [Z.of_nat]. rewrite iter_pos_nat, SuccNat2Pos.id_succ.
    now rewrite shr_exact. }
  rewrite E1. cbn [shr_m loc_of_shr_record round_nearest_even].
  assert (E2 : shr_fexp Num.prec Num.emax (Z.pos m) (e + Z.of_nat k) loc_Exact
               = (Build_shr_record (Z.pos m) false false, e + Z.of_nat k)).
  { unfold shr_fexp, shr. cbn [Zdigits2 shr_record_of_loc]. rewrite Hd.
    replace (fexp Num.prec Num.emax (53 + (e + Z.of_nat k))
             - (e + Z.of_nat k)) with 0
      by (unfold fexp, emin, Num.prec, Num.emax; lia).
    reflexivity. }
  rewrite E2. cbn [shr_m].
  replace (e + Z.of_nat k <=? Num.emax - Num.prec) with true; [reflexivity |].
  symmetry. apply Z.leb_le. unfold Num.emax, Num.prec. lia.
Qed.

(** the zeros that bring [p] to 53 digits *)
Definition pad (p : positive) : nat := Z.to_nat (53 - Z.pos (digits2_pos p)).

(** the binary64 of an integer below [2 ^ 53] *)
Lemma binary_round_small (sx : bool) (p : positive) :
  Z.pos p < 2 ^ 53 ->
  binary_round Num.prec Num.emax sx p 0
  = S754_finite sx (shiftp p (pad p)) (Z.pos (digits2_pos p) - 53).
Proof.
  intros Hp. pose proof (digits_le p 53 ltac:(lia) Hp) as Hd.
  unfold binary_round.
  assert (Ea : shl_align p 0
                 (fexp Num.prec Num.emax (Z.pos (digits2_pos p) + 0))
               = (shiftp p (pad p), Z.pos (digits2_pos p) - 53)).
  { unfold shl_align.
    replace (fexp Num.prec Num.emax (Z.pos (digits2_pos p) + 0))
      with (Z.pos (digits2_pos p) - 53)
      by (unfold fexp, emin, Num.prec, Num.emax; lia).
    unfold pad.
    destruct (Z.pos (digits2_pos p) - 53 - 0) as [| q | q] eqn:Eq; try lia.
    - replace (53 - Z.pos (digits2_pos p)) with 0 by lia.
      change (shiftp p (Z.to_nat 0)) with p. f_equal. lia.
    - rewrite Pos2Nat.inj_iter.
      replace (53 - Z.pos (digits2_pos p)) with (Z.pos q) by lia.
      reflexivity. }
  rewrite Ea.
  assert (Hdig : Z.pos (digits2_pos (shiftp p (pad p))) = 53)
    by (rewrite digits_shiftp; unfold pad; lia).
  pose proof (binary_round_aux_exact
                sx (shiftp p (pad p)) 0
                (Z.pos (digits2_pos p) - 53) Hdig) as H.
  change (shiftp (shiftp p (pad p)) 0) with (shiftp p (pad p)) in H.
  rewrite H by (cbn [Z.of_nat]; lia). f_equal. cbn [Z.of_nat]. lia.
Qed.

Lemma pad_digits (p : positive) :
  Z.pos p < 2 ^ 53 -> Z.of_nat (pad p) = 53 - Z.pos (digits2_pos p).
Proof.
  intros Hp. pose proof (digits_le p 53 ltac:(lia) Hp). unfold pad. lia.
Qed.

(** [Math.ceil] of [c / 2 ^ t], written with [n] more zeros *)
Lemma ceil_shiftp (sx : bool) (c : positive) (n t : nat) :
  Num.ceil (S754_finite sx (shiftp c n) (- (Z.of_nat n + Z.of_nat t)))
  = Num.Fin (- (- (if sx then Z.neg c else Z.pos c) / 2 ^ Z.of_nat t)).
Proof.
  unfold Num.ceil. cbv zeta. f_equal.
  set (v := if sx then Z.neg c else Z.pos c).
  assert (Ev : (if sx then Z.neg (shiftp c n) else Z.pos (shiftp c n))
               = v * 2 ^ Z.of_nat n).
  { unfold v. destruct sx.
    - rewrite <- !Pos2Z.opp_pos, shiftp_value. lia.
    - apply shiftp_value. }
  rewrite Ev.
  destruct (0 <=? - (Z.of_nat n + Z.of_nat t)) eqn:E.
  - apply Z.leb_le in E.
    assert (Hn : Z.of_nat n = 0) by lia.
    assert (Ht : Z.of_nat t = 0) by lia.
    rewrite Hn, Ht. simpl. rewrite Z.div_1_r. lia.
  - rewrite Z.opp_involutive, Z.pow_add_r by lia.
    f_equal.
    replace (- (v * 2 ^ Z.of_nat n)) with (- v * 2 ^ Z.of_nat n) by lia.
    rewrite (Z.mul_comm (2 ^ Z.of_nat n) (2 ^ Z.of_nat t)).
    apply Z.div_mul_cancel_r; apply Z.pow_nonzero; lia.
Qed.

(** an integer below [2 ^ 53] in absolute value is a binary64 *)
Lemma round_exact (z : Z) : Z.abs z < 2 ^ 53 -> Num.round z = Num.Fin z.
Proof.
  intros Hz. unfold Num.round, Num.ofZ, binary_normalize.
  destruct z as [| p | p]; [reflexivity | |].
  - rewrite binary_round_small by (simpl in Hz; lia).
    pose proof (ceil_shiftp false p (pad p) 0) as H. cbn [Z.of_nat] in H.
    rewrite pad_digits in H by (simpl in Hz; lia).
    replace (- (53 - Z.pos (digits2_pos p) + 0))
      with (Z.pos (digits2_pos p) - 53) in H by lia.
    rewrite H. f_equal. rewrite Z.pow_0_r, Z.div_1_r. lia.
  - rewrite binary_round_small by (simpl in Hz; lia).
    pose proof (ceil_shiftp true p (pad p) 0) as H. cbn [Z.of_nat] in H.
    rewrite pad_digits in H by (simpl in Hz; lia).
    replace (- (53 - Z.pos (digits2_pos p) + 0))
      with (Z.pos (digits2_pos p) - 53) in H by lia.
    rewrite H. f_equal. rewrite Z.pow_0_r, Z.div_1_r. lia.
Qed.

(** the sign of what [binary_round_aux] gives is the sign it is given *)
Lemma binary_round_aux_sign (sx : bool) (m e : Z) (l : location) :
  match binary_round_aux Num.prec Num.emax sx m e l with
  | S754_zero s | S754_infinity s | S754_finite s _ _ => s = sx
  | S754_nan => True
  end.
Proof.
  unfold binary_round_aux.
  destruct (shr_fexp Num.prec Num.emax m e l) as [mrs' e'].
  destruct (shr_fexp Num.prec Num.emax
              (round_nearest_even (shr_m mrs') (loc_of_shr_record mrs'))
              e' loc_Exact) as [mrs'' e''].
  destruct (shr_m mrs''); [reflexivity | | exact I].
  now destruct (e'' <=? Num.emax - Num.prec).
Qed.

(** no integer that is not positive is rounded to a positive number *)
Lemma round_nonpositive (z : Z) :
  z <= 0 ->
  Num.isNaN (Num.round z) || Num.le (Num.round z) (Num.Fin 0) = true.
Proof.
  intros Hz. unfold Num.round, Num.ofZ, binary_normalize.
  destruct z as [| p | p]; [reflexivity | lia |].
  unfold binary_round.
  destruct (shl_align p 0 (fexp Num.prec Num.emax (Z.pos (digits2_pos p) + 0)))
    as [mz ez].
  pose proof (binary_round_aux_sign true (Z.pos mz) ez loc_Exact) as H.
  destruct (binary_round_aux Num.prec Num.emax true (Z.pos mz) ez loc_Exact)
    as [s | s | | s m e]; try reflexivity.
  - subst s. reflexivity.
  - subst s. unfold Num.ceil. cbv zeta. cbn [Num.isNaN Num.le orb].
    apply Z.leb_le. destruct (0 <=? e) eqn:E.
    + apply Z.leb_le in E. pose proof (Z.pow_nonneg 2 e). nia.
    + apply Z.leb_gt in E. change (- Z.neg m) with (Z.pos m).
      assert (0 <= Z.pos m / 2 ^ (- e))
        by (apply Z.div_pos; [lia | apply Z.pow_pos_nonneg; lia]).
      lia.
Qed.

(** the product of an integer and a factor [b / 2 ^ t], when [a * b] is
    below [2 ^ 53], is exact *)
Lemma shiftp_shiftp (p : positive) (n m : nat) :
  shiftp (shiftp p n) m = shiftp p (m + n).
Proof. unfold shiftp. now rewrite Nat.iter_add. Qed.

Lemma shiftp_mul (a b : positive) (n m : nat) :
  (shiftp a n * shiftp b m)%positive = shiftp (a * b) (n + m).
Proof.
  apply Pos2Z.inj. rewrite Pos2Z.inj_mul, !shiftp_value, Pos2Z.inj_mul.
  rewrite Nat2Z.inj_add, Z.pow_add_r by lia. lia.
Qed.

Lemma mul_dyadic (a b : positive) (j t : nat) :
  Z.pos (digits2_pos b) + Z.of_nat j = 53 ->
  Z.pos a * Z.pos b < 2 ^ 53 ->
  Z.of_nat t <= 1000 ->
  Num.ceil (Num.mul (Num.ofZ (Z.pos a))
                    (S754_finite false (shiftp b j)
                                 (- (Z.of_nat j + Z.of_nat t))))
  = Num.Fin (- (- (Z.pos a * Z.pos b) / 2 ^ Z.of_nat t)).
Proof.
  intros Hb Hab Ht.
  assert (Ha : Z.pos a < 2 ^ 53) by nia.
  unfold Num.ofZ, binary_normalize. rewrite (binary_round_small false a Ha).
  unfold Num.mul, SFmul. cbn [xorb].
  rewrite shiftp_mul.
  set (c := (a * b)%positive).
  assert (Hc : Z.pos c < 2 ^ 53) by (unfold c; rewrite Pos2Z.inj_mul; exact Hab).
  pose proof (pad_digits a Ha) as Pa. pose proof (pad_digits c Hc) as Pc.
  assert (Hda : Z.pos (digits2_pos a) <= Z.pos (digits2_pos c)).
  { apply digits_mono. unfold c. rewrite Pos2Z.inj_mul. nia. }
  set (k := (pad a + j - pad c)%nat).
  assert (Ek : (pad a + j = k + pad c)%nat) by (unfold k; lia).
  rewrite Ek, <- shiftp_shiftp.
  rewrite binary_round_aux_exact.
  - pose proof (ceil_shiftp false c (pad c) t) as H.
    replace (Z.pos (digits2_pos a) - 53 + - (Z.of_nat j + Z.of_nat t)
             + Z.of_nat k)
      with (- (Z.of_nat (pad c) + Z.of_nat t)) by lia.
    rewrite H. unfold c. now rewrite Pos2Z.inj_mul.
  - rewrite digits_shiftp. lia.
  - lia.
Qed.

(** [Math.ceil] gives the least integer that is not below *)
Lemma ceil_spec (sx : bool) (m : positive) (e : Z) :
  let v := if sx then Z.neg m else Z.pos m in
  exists k,
    Num.ceil (S754_finite sx m e) = Num.Fin k
    /\ (0 <= e -> k = v * 2 ^ e)
    /\ (e < 0 -> (k - 1) * 2 ^ (- e) < v <= k * 2 ^ (- e)).
Proof.
  cbv zeta. unfold Num.ceil. cbv zeta.
  set (v := if sx then Z.neg m else Z.pos m).
  eexists. split; [reflexivity |].
  destruct (0 <=? e) eqn:E.
  - apply Z.leb_le in E. split; [reflexivity | lia].
  - apply Z.leb_gt in E. split; [lia |]. intros _.
    assert (Hp : 0 < 2 ^ (- e)) by (apply Z.pow_pos_nonneg; lia).
    pose proof (Z.div_mod (- v) (2 ^ (- e)) ltac:(lia)) as Hd.
    pose proof (Z.mod_pos_bound (- v) (2 ^ (- e)) Hp) as Hm.
    nia.
Qed.

(** the mantissa that is left after [n] shifts *)
Lemma shr_1_m (r : shr_record) :
  0 <= shr_m r -> shr_m (shr_1 r) = shr_m r / 2.
Proof.
  destruct r as [m r s]. cbn [shr_m]. intros Hm.
  destruct m as [| [p | p |] | p]; cbn [shr_1 shr_m]; try lia;
    try reflexivity.
  - apply Z.div_unique with 1; lia.
  - apply Z.div_unique with 0; lia.
Qed.

Lemma shr_iter_m (n : nat) (r : shr_record) :
  0 <= shr_m r -> shr_m (Nat.iter n shr_1 r) = shr_m r / 2 ^ Z.of_nat n.
Proof.
  intros Hm. induction n as [| n IH].
  - simpl. now rewrite Z.div_1_r.
  - change (Nat.iter (S n) shr_1 r) with (shr_1 (Nat.iter n shr_1 r)).
    rewrite shr_1_m.
    + rewrite IH, Nat2Z.inj_succ, Z.pow_succ_r, Z.div_div by lia.
      now rewrite Z.mul_comm.
    + rewrite IH. apply Z.div_pos; [assumption | apply Z.pow_pos_nonneg; lia].
Qed.

(** a positive integer is rounded to a positive number or to infinity *)
Lemma ofZ_positive (p : positive) :
  match Num.ofZ (Z.pos p) with
  | S754_finite false _ _ | S754_infinity false => True
  | _ => False
  end.
Proof.
  destruct (Z.lt_ge_cases (Z.pos p) (2 ^ 53)) as [Hs | Hl].
  { unfold Num.ofZ, binary_normalize. now rewrite binary_round_small. }
  pose proof (digits_bounds p) as [Lo Hi].
  set (d := Z.pos (digits2_pos p)) in *.
  assert (Hd : 54 <= d).
  { destruct (Z.lt_ge_cases d 54) as [G |]; [| assumption].
    assert (2 ^ d <= 2 ^ 53) by (apply Z.pow_le_mono_r; lia). lia. }
  unfold Num.ofZ, binary_normalize, binary_round.
  assert (Ea : shl_align p 0 (fexp Num.prec Num.emax (d + 0)) = (p, 0)).
  { unfold shl_align.
    replace (fexp Num.prec Num.emax (d + 0)) with (d - 53)
      by (unfold fexp, emin, Num.prec, Num.emax; lia).
    destruct (d - 53 - 0) eqn:E; try reflexivity. lia. }
  fold d. rewrite Ea. unfold binary_round_aux.
  assert (E1 : exists r1,
             shr_fexp Num.prec Num.emax (Z.pos p) 0 loc_Exact = (r1, d - 53)
             /\ 2 ^ 52 <= shr_m r1 < 2 ^ 53).
  { unfold shr_fexp, shr. cbn [Zdigits2 shr_record_of_loc]. fold d.
    replace (fexp Num.prec Num.emax (d + 0) - 0) with (d - 53)
      by (unfold fexp, emin, Num.prec, Num.emax; lia).
    destruct (d - 53) as [| q | q] eqn:Eq; try lia.
    eexists. split; [reflexivity |].
    rewrite iter_pos_nat, shr_iter_m by (cbn [shr_m]; lia).
    cbn [shr_m]. rewrite positive_nat_Z, <- Eq.
    assert (Hp : 0 < 2 ^ (d - 53)) by (apply Z.pow_pos_nonneg; lia).
    assert (E52 : 2 ^ (d - 1) = 2 ^ 52 * 2 ^ (d - 53))
      by (rewrite <- Z.pow_add_r by lia; f_equal; lia).
    assert (E53 : 2 ^ d = 2 ^ 53 * 2 ^ (d - 53))
      by (rewrite <- Z.pow_add_r by lia; f_equal; lia).
    split.
    - apply Z.div_le_lower_bound; lia.
    - apply Z.div_lt_upper_bound; lia. }
  destruct E1 as (r1 & -> & Hr1).
  set (m2 := round_nearest_even (shr_m r1) (loc_of_shr_record r1)).
  assert (Hm2 : 2 ^ 52 <= m2 <= 2 ^ 53).
  { unfold m2, round_nearest_even.
    destruct (loc_of_shr_record r1) as [| []]; try lia.
    destruct (Z.even (shr_m r1)); lia. }
  assert (E2 : exists r2 e2,
             shr_fexp Num.prec Num.emax m2 (d - 53) loc_Exact = (r2, e2)
             /\ 0 < shr_m r2).
  { unfold shr_fexp, shr. cbn [shr_record_of_loc].
    destruct (fexp Num.prec Num.emax (Zdigits2 m2 + (d - 53)) - (d - 53))
      as [| q | q] eqn:Eq.
    - do 2 eexists. split; [reflexivity |]. cbn [shr_m]. lia.
    - do 2 eexists. split; [reflexivity |].
      rewrite iter_pos_nat, shr_iter_m by (cbn [shr_m]; lia).
      cbn [shr_m]. rewrite positive_nat_Z, <- Eq.
      destruct m2 as [| pm | pm]; try lia.
      pose proof (digits_le pm 54 ltac:(lia)
                    ltac:(change (2 ^ 54) with (2 * 2 ^ 53); lia)) as Hdm.
      cbn [Zdigits2] in *.
      assert (En : fexp Num.prec Num.emax (Z.pos (digits2_pos pm) + (d - 53))
                   - (d - 53) <= 1)
        by (unfold fexp, emin, Num.prec, Num.emax; lia).
      rewrite Eq in En.
      assert (Eq1 : Z.pos q = 1) by lia. rewrite Eq in *. rewrite Eq1.
      change (2 ^ 1) with 2. apply Z.div_str_pos. lia.
    - do 2 eexists. split; [reflexivity |]. cbn [shr_m]. lia. }
  destruct E2 as (r2 & e2 & -> & Hr2).
  destruct (shr_m r2); try lia.
  now destruct (e2 <=? Num.emax - Num.prec).
Qed.

(** a positive integer is read as a positive number *)
Lemma round_positive (z : Z) :
  0 < z ->
  Num.isNaN (Num.round z) || Num.le (Num.round z) (Num.Fin 0) = false.
Proof.
  intros Hz. destruct z as [| p | p]; try lia.
  unfold Num.round. pose proof (ofZ_positive p) as H.
  destruct (Num.ofZ (Z.pos p)) as [s | s | | s m e]; try contradiction.
  - now destruct s.
  - destruct s; [contradiction |].
    destruct (ceil_spec false m e) as (k & -> & Hk1 & Hk2).
    cbn [Num.isNaN Num.le orb]. apply Z.leb_gt.
    destruct (Z.lt_ge_cases e 0) as [G | G].
    + specialize (Hk2 G).
      assert (0 < 2 ^ (- e)) by (apply Z.pow_pos_nonneg; lia). nia.
    + rewrite (Hk1 G).
      assert (0 < 2 ^ e) by (apply Z.pow_pos_nonneg; lia). nia.
Qed.

(** the numbers that are not below zero, [NaN] among them *)
Definition notNegative (x : spec_float) : bool :=
  match x with
  | S754_nan | S754_zero _ => true
  | S754_infinity s | S754_finite s _ _ => negb s
  end.

Lemma ceil_notNegative (x : spec_float) :
  notNegative x = true -> Num.lt (Num.ceil x) (Num.Fin 0) = false.
Proof.
  destruct x as [s | s | | s m e]; cbn [notNegative]; try reflexivity.
  - destruct s; [discriminate | reflexivity].
  - destruct s; [discriminate | intros _].
    destruct (ceil_spec false m e) as (k & -> & Hk1 & Hk2).
    cbn [Num.lt]. apply Z.ltb_ge.
    destruct (Z.lt_ge_cases e 0) as [G | G].
    + specialize (Hk2 G).
      assert (0 < 2 ^ (- e)) by (apply Z.pow_pos_nonneg; lia). nia.
    + rewrite (Hk1 G).
      assert (0 < 2 ^ e) by (apply Z.pow_pos_nonneg; lia). nia.
Qed.

Lemma mul_notNegative (a b : spec_float) :
  notNegative a = true -> notNegative b = true ->
  notNegative (Num.mul a b) = true.
Proof.
  unfold Num.mul, SFmul.
  destruct a as [sa | sa | | sa ma ea], b as [sb | sb | | sb mb eb];
    cbn [notNegative]; intros Ha Hb; try reflexivity;
    try (destruct sa; [discriminate |]); try (destruct sb; [discriminate |]);
    try reflexivity.
  cbn [xorb].
  pose proof (binary_round_aux_sign false (Z.pos (ma * mb)) (ea + eb) loc_Exact)
    as H.
  destruct (binary_round_aux Num.prec Num.emax false (Z.pos (ma * mb))
              (ea + eb) loc_Exact); cbn [notNegative]; try reflexivity;
    now subst.
Qed.

Lemma toFloat_notNegative (n : Num.num) :
  Num.lt n (Num.Fin 0) = false -> notNegative (Num.toFloat n) = true.
Proof.
  destruct n as [| | z |]; cbn [Num.lt Num.toFloat notNegative];
    try reflexivity; try discriminate.
  intros Hz. apply Z.ltb_ge in Hz. destruct z as [| p | p]; try lia.
  - reflexivity.
  - pose proof (ofZ_positive p) as H.
    destruct (Num.ofZ (Z.pos p)) as [s | s | | s m e]; try contradiction;
      now destruct s.
Qed.

(** [Math.max] and [Math.min] of two numbers *)
Lemma max_notNegative (a b : Num.num) :
  Num.lt b (Num.Fin 0) = false -> Num.lt (Num.max a b) (Num.Fin 0) = false.
Proof.
  destruct a as [| | x |], b as [| | y |]; cbn [Num.max Num.lt];
    intros Hy; try assumption; try reflexivity; try discriminate.
  apply Z.ltb_ge in Hy.
  destruct (x <? y) eqn:E; cbn [Num.lt]; apply Z.ltb_ge; [lia |].
  apply Z.ltb_ge in E. lia.
Qed.

Lemma min_capped (a : Num.num) (c m : Z) :
  c <= m -> Num.lt (Num.Fin m) (Num.min a (Num.Fin c)) = false.
Proof.
  intros Hc. destruct a as [| | x |]; cbn [Num.min Num.lt]; try reflexivity.
  - destruct (c <? x) eqn:E; cbn [Num.lt]; apply Z.ltb_ge; [lia |].
    apply Z.ltb_ge in E. lia.
  - apply Z.ltb_ge. lia.
Qed.

End Binary64Facts.

(** ** The fetch loop of the export tool *)

Section ExportFacts.
Context {D : DateModel} (opts : ExportTool.Options).

Import ExportTool.

(** the factor the loop multiplies by, and the cap of the delay *)
Definition factorInUse : spec_float :=
  if Num.isFinite (backoffFactor opts) then backoffFactor opts
  else S754_finite false 6755399441055744 (-52).

Definition capInUse : Z :=
  match maxDelayMs opts with
  | Some m => m
  | None => 15000%Z
  end.

(** the state after a 429: same page, longer delay, one more sleep *)
Definition backedOff (st : State) (r : Response) : State :=
  mkState (pageUrl st) (page st) (seenIds st)
          (Num.min (Num.ceil (SFmul 53 1024 (Num.toFloat (currentDelay st))
                                    factorInUse))
                   (Num.Fin capInUse))
          (rows st) (asked st ++ [pageUrl st])
          (slept st ++ [Num.max (currentDelay st)
                                (retryAfterMs (resp_retryAfter r))]).

Lemma status_429_not_ok (r : Response) :
  resp_status r = 429%Z -> resp_ok r = false.
Proof. unfold resp_ok. now intros ->. Qed.

Lemma step_429 (st : State) (r : Response) :
  resp_status r = 429%Z ->
  step opts st (Reply r) = Continue (backedOff st r).
Proof.
  intros H. unfold step. cbv zeta.
  cbn [pageUrl page seenIds currentDelay rows asked slept].
  rewrite (status_429_not_ok r H), H. reflexivity.
Qed.

(** the state an error leaves: the request has been made, nothing else *)
Definition asking (st : State) : State :=
  mkState (pageUrl st) (page st) (seenIds st) (currentDelay st)
          (rows st) (asked st ++ [pageUrl st]) (slept st).

Lemma step_other_failure (st : State) (r : Response) :
  resp_ok r = false -> resp_status r <> 429%Z ->
  step opts st (Reply r)
  = Raise (Js.Error ("Request failed (" ++ numberText (resp_status r)
                     ++ ") for " ++ pageUrl st)) (asking st).
Proof.
  intros Hok Hs. unfold step. cbv zeta.
  cbn [pageUrl page seenIds currentDelay rows asked slept].
  rewrite Hok. cbn [negb].
  destruct (Z.eqb_spec (resp_status r) 429); [contradiction |]. reflexivity.
Qed.

Lemma step_success_resets (st st' : State) (r : Response) :
  resp_ok r = true ->
  step opts st (Reply r) = Continue st'
  \/ step opts st (Reply r) = Break st' ->
  currentDelay st' = Num.Fin (delayMs opts).
Proof.
  intros Hok. unfold step. cbv zeta.
  cbn [pageUrl page seenIds currentDelay rows asked slept].
  rewrite Hok. cbn [negb].
  destruct (resp_json r) as [[| [| item items]] |].
  - intros [H | H]; [discriminate | now injection H as <-].
  - intros [H | H]; [discriminate | now injection H as <-].
  - destruct (scanPage opts (item :: items) (seenIds st) (rows st) false)
      as [[ids out] keepPaging].
    destruct (negb keepPaging);
      intros [H | H]; try discriminate; now injection H as <-.
  - intros [H | H]; discriminate.
Qed.

Lemma run_429 (st : State) (r : Response) (script : list NetEvent) :
  running opts st = true -> resp_status r = 429%Z ->
  run opts (Reply r :: script) st = run opts script (backedOff st r).
Proof.
  intros Hrun H. cbn [run]. rewrite Hrun. cbn [negb].
  now rewrite (step_429 st r H).
Qed.

Lemma run_other_failure (st : State) (r : Response) (script : list NetEvent) :
  running opts st = true -> resp_ok r = false -> resp_status r <> 429%Z ->
  run opts (Reply r :: script) st
  = Aborted (Js.Error ("Request failed (" ++ numberText (resp_status r)
                       ++ ") for " ++ pageUrl st)) (asking st).
Proof.
  intros Hrun Hok Hs. cbn [run]. rewrite Hrun. cbn [negb].
  now rewrite (step_other_failure st r Hok Hs).
Qed.

(** [Retry-After], case by case *)
Lemma retryAfterMs_not_number (h : option string) :
  parseInt (Js.toStr (Js.or h (Some "0"))) = None ->
  retryAfterMs h = Num.Fin 0.
Proof. intros E. unfold retryAfterMs. now rewrite E. Qed.

Lemma retryAfterMs_not_positive (h : option string) (n : Z) :
  parseInt (Js.toStr (Js.or h (Some "0"))) = Some n -> (n <= 0)%Z ->
  retryAfterMs h = Num.Fin 0.
Proof.
  intros E Hn. unfold retryAfterMs. rewrite E. cbv zeta.
  now rewrite (round_nonpositive n Hn).
Qed.

Lemma retryAfterMs_positive (h : option string) (n : Z) :
  parseInt (Js.toStr (Js.or h (Some "0"))) = Some n -> (0 < n)%Z ->
  retryAfterMs h
  = Num.ceil (SFmul 53 1024 (Num.toFloat (Num.round n)) (Num.ofZ 1000)).
Proof.
  intros E Hn. unfold retryAfterMs. rewrite E. cbv zeta.
  now rewrite (round_positive n Hn).
Qed.

Lemma ofZ_1000 :
  Num.ofZ 1000
  = S754_finite false (shiftp 1000 43) (- (Z.of_nat 43 + Z.of_nat 0)).
Proof. vm_compute. reflexivity. Qed.

Lemma seconds_exact (n : Z) :
  (0 < n)%Z -> (n * 1000 < 2 ^ 53)%Z ->
  Num.ceil (SFmul 53 1024 (Num.toFloat (Num.round n)) (Num.ofZ 1000))
  = Num.Fin (n * 1000).
Proof.
  intros Hn Hb. rewrite round_exact by lia. cbn [Num.toFloat].
  destruct n as [| a | a]; try lia.
  rewrite ofZ_1000.
  pose proof (mul_dyadic a 1000 43 0) as H. unfold Num.mul in H.
  change Num.prec with 53%Z in H. change Num.emax with 1024%Z in H.
  rewrite H; [| reflexivity | exact Hb | lia].
  f_equal. change (2 ^ Z.of_nat 0)%Z with 1%Z. rewrite Z.div_1_r. lia.
Qed.

(** the product by a factor [b / 2 ^ t], the factor given as it is
    stored: a mantissa of 53 bits and an exponent *)
Lemma product_dyadic (c : Z) (b m : positive) (j t : nat) :
  Z.pos (digits2_pos m) = 53%Z ->
  Z.pos m = (Z.pos b * 2 ^ Z.of_nat j)%Z ->
  (0 < c)%Z -> (c * Z.pos b < 2 ^ 53)%Z -> (t <= 1000)%nat ->
  Num.ceil (SFmul 53 1024 (Num.toFloat (Num.Fin c))
                  (S754_finite false m (- (Z.of_nat j + Z.of_nat t))))
  = Num.Fin (- (- (c * Z.pos b) / 2 ^ Z.of_nat t)).
Proof.
  intros Hd Hm Hc Hb Ht. destruct c as [| a | a]; try lia.
  assert (Em : m = shiftp b j).
  { apply Pos2Z.inj. now rewrite shiftp_value. }
  subst m. rewrite digits_shiftp in Hd.
  pose proof (mul_dyadic a b j t Hd Hb ltac:(lia)) as H.
  exact H.
Qed.

Lemma product_zero (f : spec_float) :
  Num.isFinite f = true ->
  Num.ceil (SFmul 53 1024 (Num.toFloat (Num.Fin 0)) f) = Num.Fin 0.
Proof. destruct f; try discriminate; reflexivity. Qed.

Lemma max_Fin (a b : Z) :
  Num.max (Num.Fin a) (Num.Fin b) = Num.Fin (Z.max a b).
Proof.
  cbn [Num.max Num.lt]. destruct (Z.ltb_spec a b); f_equal; lia.
Qed.

Lemma min_Fin (a b : Z) :
  Num.min (Num.Fin a) (Num.Fin b) = Num.Fin (Z.min a b).
Proof.
  cbn [Num.min Num.lt]. destruct (Z.ltb_spec b a); f_equal; lia.
Qed.

Lemma running_backedOff (st : State) (r : Response) :
  running opts (backedOff st r) = running opts st.
Proof. reflexivity. Qed.

(** however many 429s come in a row, the loop is still there after them,
    on the same page *)
Lemma run_through_429s (rs : list Response) (script : list NetEvent)
      (st : State) :
  running opts st = true ->
  Forall (fun r => resp_status r = 429%Z) rs ->
  run opts (map Reply rs ++ script) st
  = run opts script (fold_left backedOff rs st)
  /\ pageUrl (fold_left backedOff rs st) = pageUrl st
  /\ page (fold_left backedOff rs st) = page st
  /\ rows (fold_left backedOff rs st) = rows st.
Proof.
  revert st. induction rs as [| r rs IH]; intros st Hrun Hall.
  - repeat split.
  - apply Forall_cons_iff in Hall as [Hr Hall].
    destruct (IH (backedOff st r)) as (E & U & P & R);
      [now rewrite running_backedOff | assumption |].
    cbn [map app fold_left]. rewrite (run_429 st r _ Hrun Hr).
    repeat split; assumption.
Qed.

End ExportFacts.

(** ** The service: what the fetch leaves alone *)

Section ServiceFacts.
Context {D : DateModel} (cfg : Config).

(** the two worlds differ in the network only *)
Definition sameStore (w w' : World) : Prop :=
  disk w' = disk w /\ lastPollAt w' = lastPollAt w
  /\ console w' = console w /\ writeFault w' = writeFault w
  /\ clock w' = clock w.

(** a computation that touches the network only *)
Definition networkOnly {A} (m : M A) : Prop :=
  forall w, sameStore w (snd (m w)).

Lemma sameStore_refl w : sameStore w w.
Proof. repeat split. Qed.

Lemma sameStore_trans w1 w2 w3 :
  sameStore w1 w2 -> sameStore w2 w3 -> sameStore w1 w3.
Proof.
  unfold sameStore. intros (A1 & A2 & A3 & A4 & A5) (B1 & B2 & B3 & B4 & B5).
  repeat split; congruence.
Qed.

Lemma networkOnly_ret {A} (a : A) : networkOnly (ret a).
Proof. intros w. apply sameStore_refl. Qed.

Lemma networkOnly_throw {A} (e : Js.error) : networkOnly (@throw A e).
Proof. intros w. apply sameStore_refl. Qed.

Lemma networkOnly_lift {A} (r : Js.result A) : networkOnly (lift r).
Proof. intros w. apply sameStore_refl. Qed.

Lemma networkOnly_fetch (u : string) : networkOnly (fetch u).
Proof.
  intros w. unfold fetch. destruct (net w) as [| [| r] rest]; simpl;
    repeat split.
Qed.

Lemma networkOnly_bind {A B} (m : M A) (k : A -> M B) :
  networkOnly m -> (forall a, networkOnly (k a)) -> networkOnly (bindM m k).
Proof.
  intros Hm Hk w. unfold bindM. specialize (Hm w).
  destruct (m w) as [[a | e] w']; simpl in *; [| assumption].
  eapply sameStore_trans; [exact Hm | apply Hk].
Qed.

Lemma networkOnly_fetchPagesFrom (pages : nat) (pageUrl : option string)
      (collected : list Post) :
  networkOnly (fetchPagesFrom cfg pages pageUrl collected).
Proof.
  revert pageUrl collected.
  induction pages as [| n IH]; intros pageUrl collected; simpl.
  - apply networkOnly_ret.
  - destruct (negb (Js.truthy pageUrl)); [apply networkOnly_ret |].
    apply networkOnly_bind; [apply networkOnly_fetch |].
    intros r. destruct (negb (resp_ok r)); [apply networkOnly_throw |].
    destruct (negb (Str.includes _ _)); [apply networkOnly_throw |].
    destruct (resp_json r) as [payload |]; [| apply networkOnly_throw].
    apply networkOnly_bind; [apply networkOnly_lift |].
    intros [| i items]; [apply networkOnly_ret |].
    intros w. destruct (negb (shouldFetchMore cfg (clock w) _)).
    + apply sameStore_refl.
    + apply IH.
Qed.

Lemma networkOnly_fetchIncoming : networkOnly (fetchIncoming cfg).
Proof.
  unfold fetchIncoming.
  destruct (Str.includes (SOURCE_URL cfg) "/api/").
  - apply networkOnly_fetchPagesFrom.
  - apply networkOnly_bind; [apply networkOnly_fetch |].
    intros r. destruct (negb (resp_ok r)); [apply networkOnly_throw |].
    destruct (match resp_contentType r with
              | Some ct => Str.includes ct "application/json"
              | None => false
              end).
    + destruct (resp_json r); [apply networkOnly_lift |
                               apply networkOnly_throw].
    + apply networkOnly_lift.
Qed.

(** any status outside 200..299 ends [fetchStatusPages] with an error,
    429 as any other *)
Lemma fetchStatusPages_not_ok (w : World) (r : Response)
      (rest : list NetEvent) :
  (0 < MAX_STATUS_PAGES cfg)%Z -> SOURCE_URL cfg <> "" ->
  net w = Reply r :: rest -> resp_ok r = false ->
  exists w',
    fetchStatusPages cfg w
    = (Js.Throw (Js.Error ("Feed request failed: "
                           ++ numberText (resp_status r))%string), w')
    /\ requested w' = requested w ++ [SOURCE_URL cfg].
Proof.
  intros Hmax Hurl Hnet Hok. unfold fetchStatusPages.
  destruct (Z.to_nat (MAX_STATUS_PAGES cfg)) as [| n] eqn:E; [lia |].
  cbn [fetchPagesFrom]. apply nonEmpty_true in Hurl.
  cbn [Js.truthy Js.toStr]. rewrite Hurl. cbn [negb].
  unfold bindM, fetch. rewrite Hnet, Hok. cbn [negb].
  unfold throw. eexists. split; reflexivity.
Qed.

(** whichever page it is whose status is outside 200..299, the fetch
    ends at that page, with the error of that status: [k] is the number
    of requests made *)
Lemma fetchPagesFrom_failure (pages : nat) (pageUrl : option string)
      (collected : list Post) (w : World) :
  exists k,
    List.length (requested (snd (fetchPagesFrom cfg pages pageUrl collected w)))
    = List.length (requested w) + k
    /\ net (snd (fetchPagesFrom cfg pages pageUrl collected w))
       = skipn k (net w)
    /\ forall i r,
         i < k -> nth_error (net w) i = Some (Reply r) ->
         resp_ok r = false ->
         S i = k
         /\ fst (fetchPagesFrom cfg pages pageUrl collected w)
            = Js.Throw (Js.Error ("Feed request failed: "
                                  ++ numberText (resp_status r))%string).
Proof.
  revert pageUrl collected w.
  assert (Hnone : forall (w : World) (out : Js.result (list Post)),
             exists k,
               List.length (requested w) = List.length (requested w) + k
               /\ net w = skipn k (net w)
               /\ forall i r,
                    i < k -> nth_error (net w) i = Some (Reply r) ->
                    resp_ok r = false ->
                    S i = k
                    /\ out = Js.Throw
                               (Js.Error ("Feed request failed: "
                                          ++ numberText (resp_status r))%string)).
  { intros w out. exists 0. split; [lia |]. split; [reflexivity |].
    intros i r Hi. lia. }
  induction pages as [| n IH]; intros pageUrl collected w.
  - apply Hnone.
  - cbn [fetchPagesFrom].
    destruct (negb (Js.truthy pageUrl)); [apply Hnone |].
    unfold bindM, fetch.
    assert (Hone : forall (out : Js.result (list Post)) (rest : list NetEvent)
                          (ev : NetEvent),
               net w = ev :: rest \/ (net w = [] /\ rest = []) ->
               (forall r, ev = Reply r -> resp_ok r = false ->
                          net w = ev :: rest ->
                          out = Js.Throw
                                  (Js.Error ("Feed request failed: "
                                             ++ numberText (resp_status r))%string)) ->
               exists k,
                 List.length (requested w ++ [Js.toStr pageUrl])
                 = List.length (requested w) + k
                 /\ rest = skipn k (net w)
                 /\ forall i r,
                      i < k -> nth_error (net w) i = Some (Reply r) ->
                      resp_ok r = false ->
                      S i = k
                      /\ out = Js.Throw
                                 (Js.Error ("Feed request failed: "
                                            ++ numberText (resp_status r))%string)).
    { intros out rest ev Hnet Hout. exists 1.
      split; [rewrite length_app; simpl; lia |]. split.
      - destruct Hnet as [-> | [-> ->]]; reflexivity.
      - intros i r Hi Hnth Hok. assert (i = 0) by lia. subst i.
        split; [reflexivity |].
        destruct Hnet as [E | [E _]]; rewrite E in Hnth;
          [| discriminate Hnth].
        injection Hnth as ->. now apply (Hout r). }
    destruct (net w) as [| [| r] rest] eqn:Enet; cbn [tl snd fst].
    + apply (Hone _ [] NetworkFailure); [now right |]. discriminate.
    + apply (Hone _ rest NetworkFailure); [now left |]. discriminate.
    + destruct (resp_ok r) eqn:Eok; cbn [negb].
      2:{ apply (Hone _ rest (Reply r)); [now left |].
          now intros r0 [= <-] _ _. }
      assert (Hok : forall out : Js.result (list Post),
                 exists k,
                   List.length (requested w ++ [Js.toStr pageUrl])
                   = List.length (requested w) + k
                   /\ rest = skipn k (Reply r :: rest)
                   /\ forall i r0,
                        i < k ->
                        nth_error (Reply r :: rest) i = Some (Reply r0) ->
                        resp_ok r0 = false ->
                        S i = k
                        /\ out = Js.Throw
                                   (Js.Error ("Feed request failed: "
                                              ++ numberText (resp_status r0))%string)).
      { intros out. apply (Hone out rest (Reply r)); [now left |].
        intros r0 [= <-] H0. congruence. }
      destruct (negb (Str.includes _ _)); [apply Hok |].
      destruct (resp_json r) as [payload |]; [| apply Hok].
      unfold lift.
      destruct (parseStatusList payload) as [items | e]; [| apply Hok].
      destruct items as [| it items]; [apply Hok |].
      cbn [clock].
      destruct (negb (shouldFetchMore cfg (clock w) (collected ++ it :: items)));
        [apply Hok |].
      destruct (IH (JsMap.get "next" (parseLinkHeader (resp_link r)))
                   (collected ++ it :: items)
                   (mkWorld rest (requested w ++ [Js.toStr pageUrl]) (clock w)
                            (disk w) (writeFault w) (lastPollAt w)
                            (console w)))
        as (k & Hlen & Hnet & Hfail).
      cbn [net requested] in Hlen, Hnet, Hfail.
      exists (S k). split.
      { rewrite Hlen, length_app. simpl. lia. }
      split; [exact Hnet |].
      intros i r0 Hi Hnth Hbad. destruct i as [| i].
      * injection Hnth as <-. congruence.
      * destruct (Hfail i r0 ltac:(lia) Hnth Hbad) as [H1 H2].
        split; [now f_equal | exact H2].
Qed.

(** a poll whose fetch throws *)
Lemma pollFeed_fetch_throws (w w' : World) (e : Js.error) :
  fetchIncoming cfg w = (Js.Throw e, w') ->
  pollFeed cfg w
  = mkWorld (net w') (requested w') (clock w') (disk w') (writeFault w')
            (lastPollAt w') (console w' ++ [e]).
Proof.
  intros H. unfold pollFeed, pollBody, bindM. now rewrite H.
Qed.

End ServiceFacts.

(** C9. A poll cycle whose fetch raises an error writes the error to the
    console and nothing else: the persisted document is as it was before
    the cycle, and so is the time of the last successful poll. *)
Theorem pollFeed_error_leaves_store
        {D : DateModel} (cfg : Config) (w w' : World) (e : Js.error) :
  fetchIncoming cfg w = (Js.Throw e, w') ->
  disk (pollFeed cfg w) = disk w
  /\ lastPollAt (pollFeed cfg w) = lastPollAt w
  /\ console (pollFeed cfg w) = console w ++ [e].
Proof.
  intros H. rewrite (pollFeed_fetch_throws cfg w w' e H). simpl.
  pose proof (networkOnly_fetchIncoming cfg w) as S. rewrite H in S.
  destruct S as (S1 & S2 & S3 & _). simpl in *.
  rewrite S1, S2, S3. auto.
Qed.

(** C2, as the code has it.  In the fetch loop of the export tool a 429
    never ends the loop: the loop sleeps for the greater of the current
    delay and the milliseconds of [Retry-After], asks for the same page
    again with the page count as it was, and goes on with the delay
    [min(ceil(currentDelay * backoffFactor), maxDelay)]: the product is
    the binary64 product, the factor is 1.5 when the one given is not
    finite, the maximum is 15000 when the one given is not a number.
    The milliseconds of [Retry-After] are 0 when the header is absent,
    does not read as an integer or reads as one that is not positive,
    and the binary64 product of the seconds and 1000 otherwise: the
    seconds times 1000 whenever that is below [2 ^ 53].  Any other
    status outside 200..299 ends the loop with the error that names the
    status and the page; after a page that succeeded the delay is the
    base delay again.  [Math.ceil] gives the least integer that is not
    below its argument; the product by a factor [b / 2 ^ t] is exact
    while [currentDelay * b] is below [2 ^ 53].  In the polling service,
    [fetchStatusPages] ends with an error on a status outside 200..299,
    429 included, whichever page it is that has it. *)
Theorem fetch_loops_on_http_status {D : DateModel} :
  (forall opts st r script,
      ExportTool.running opts st = true -> resp_status r = 429%Z ->
      exists st',
        ExportTool.run opts (Reply r :: script) st
        = ExportTool.run opts script st'
        /\ ExportTool.pageUrl st' = ExportTool.pageUrl st
        /\ ExportTool.page st' = ExportTool.page st
        /\ ExportTool.rows st' = ExportTool.rows st
        /\ ExportTool.asked st'
           = ExportTool.asked st ++ [ExportTool.pageUrl st]
        /\ ExportTool.slept st'
           = ExportTool.slept st
             ++ [Num.max (ExportTool.currentDelay st)
                         (ExportTool.retryAfterMs (resp_retryAfter r))]
        /\ ExportTool.currentDelay st'
           = Num.min
               (Num.ceil
                  (SFmul 53 1024
                     (Num.toFloat (ExportTool.currentDelay st))
                     (if Num.isFinite (ExportTool.backoffFactor opts)
                      then ExportTool.backoffFactor opts
                      else S754_finite false 6755399441055744 (-52))))
               (Num.Fin (match ExportTool.maxDelayMs opts with
                         | Some m => m
                         | None => 15000%Z
                         end)))
  /\ (forall opts st r script,
         ExportTool.running opts st = true ->
         resp_ok r = false -> resp_status r <> 429%Z ->
         exists st',
           ExportTool.run opts (Reply r :: script) st
           = ExportTool.Aborted
               (Js.Error ("Request failed (" ++ numberText (resp_status r)
                          ++ ") for " ++ ExportTool.pageUrl st)) st'
           /\ ExportTool.rows st' = ExportTool.rows st
           /\ ExportTool.slept st' = ExportTool.slept st)
  /\ (forall opts st st' r,
         resp_ok r = true ->
         ExportTool.step opts st (Reply r) = ExportTool.Continue st'
         \/ ExportTool.step opts st (Reply r) = ExportTool.Break st' ->
         ExportTool.currentDelay st' = Num.Fin (ExportTool.delayMs opts))
  /\ ExportTool.retryAfterMs None = Num.Fin 0
  /\ (forall h : option string,
         match parseInt (Js.toStr (Js.or h (Some "0"))) with
         | None => ExportTool.retryAfterMs h = Num.Fin 0
         | Some n =>
             ((n <= 0)%Z -> ExportTool.retryAfterMs h = Num.Fin 0)
             /\ ((0 < n)%Z ->
                 ExportTool.retryAfterMs h
                 = Num.ceil (SFmul 53 1024 (Num.toFloat (Num.round n))
                                   (binary_normalize 53 1024 1000 0 false)))
             /\ ((0 < n)%Z -> (n * 1000 < 2 ^ 53)%Z ->
                 ExportTool.retryAfterMs h = Num.Fin (n * 1000))
         end)
  /\ (forall z : Z,
         Num.toFloat (Num.Fin z) = binary_normalize 53 1024 z 0 false
         /\ ((Z.abs z < 2 ^ 53)%Z -> Num.round z = Num.Fin z))
  /\ (forall (sx : bool) (m : positive) (e : Z),
         let v := if sx then Z.neg m else Z.pos m in
         exists k,
           Num.ceil (S754_finite sx m e) = Num.Fin k
           /\ ((0 <= e)%Z -> k = (v * 2 ^ e)%Z)
           /\ ((e < 0)%Z ->
               ((k - 1) * 2 ^ (- e) < v <= k * 2 ^ (- e))%Z))
  /\ (forall s : bool,
         Num.ceil S754_nan = Num.NaN
         /\ Num.ceil (S754_zero s) = Num.Fin 0
         /\ Num.ceil (S754_infinity s) = (if s then Num.NegInf else Num.PosInf))
  /\ (forall a b : Z,
         Num.max (Num.Fin a) (Num.Fin b) = Num.Fin (Z.max a b)
         /\ Num.min (Num.Fin a) (Num.Fin b) = Num.Fin (Z.min a b)
         /\ Num.min Num.PosInf (Num.Fin b) = Num.Fin b
         /\ Num.min Num.NaN (Num.Fin b) = Num.NaN)
  /\ (forall (c : Z) (b m : positive) (j t : nat),
         Z.pos (digits2_pos m) = 53%Z ->
         Z.pos m = (Z.pos b * 2 ^ Z.of_nat j)%Z ->
         (0 < c)%Z -> (c * Z.pos b < 2 ^ 53)%Z -> (t <= 1000)%nat ->
         Num.ceil (SFmul 53 1024 (Num.toFloat (Num.Fin c))
                         (S754_finite false m (- (Z.of_nat j + Z.of_nat t))))
         = Num.Fin (- (- (c * Z.pos b) / 2 ^ Z.of_nat t)))
  /\ (forall f : spec_float,
         Num.isFinite f = true ->
         Num.ceil (SFmul 53 1024 (Num.toFloat (Num.Fin 0)) f) = Num.Fin 0)
  /\ (forall cfg w r rest,
         (0 < MAX_STATUS_PAGES cfg)%Z -> SOURCE_URL cfg <> "" ->
         net w = Reply r :: rest -> resp_ok r = false ->
         exists w',
           fetchStatusPages cfg w
           = (Js.Throw (Js.Error ("Feed request failed: "
                                  ++ numberText (resp_status r))%string), w')
           /\ requested w' = requested w ++ [SOURCE_URL cfg])
  /\ (forall cfg w,
         exists k,
           List.length (requested (snd (fetchStatusPages cfg w)))
           = List.length (requested w) + k
           /\ net (snd (fetchStatusPages cfg w)) = skipn k (net w)
           /\ forall i r,
                i < k -> nth_error (net w) i = Some (Reply r) ->
                resp_ok r = false ->
                S i = k
                /\ fst (fetchStatusPages cfg w)
                   = Js.Throw (Js.Error ("Feed request failed: "
                                         ++ numberText (resp_status r))%string)).
Proof.
  repeat match goal with |- _ /\ _ => split end.
  - intros opts st r script Hrun H. exists (backedOff opts st r).
    split; [now apply run_429 |]. repeat split.
  - intros opts st r script Hrun Hok Hs. exists (asking st).
    split; [now apply run_other_failure |]. split; reflexivity.
  - intros opts st st' r. apply step_success_resets.
  - reflexivity.
  - intros h.
    destruct (parseInt (Js.toStr (Js.or h (Some "0")))) as [n |] eqn:E.
    + split; [now apply retryAfterMs_not_positive |].
      split; [now apply retryAfterMs_positive |].
      intros Hn Hb. rewrite (retryAfterMs_positive h n E Hn).
      now apply seconds_exact.
    + now apply retryAfterMs_not_number.
  - intros z. split; [reflexivity | apply round_exact].
  - intros sx m e. apply ceil_spec.
  - intros s. repeat split.
  - intros a b. split; [apply max_Fin |]. split; [apply min_Fin |].
    split; reflexivity.
  - exact product_dyadic.
  - exact product_zero.
  - intros cfg w r rest. apply fetchStatusPages_not_ok.
  - intros cfg w. apply fetchPagesFrom_failure.
Qed.

(** * Further properties *)

(** ** Identity canonicaliser: which records have an identity *)

Section IdentityFacts.

Lemma or_truthy (a b : option string) :
  Js.truthy (Js.or a b) = Js.truthy a || Js.truthy b.
Proof. unfold Js.or. destruct (Js.truthy a) eqn:E; [now rewrite E | reflexivity]. Qed.

Lemma truthy_toStr (v : option string) :
  Js.truthy v = true -> Js.toStr v <> "".
Proof. destruct v as [[| c s] |]; simpl; congruence. Qed.

(** X1. A record is without identity exactly when its [id], [url] and
    [uri] are all empty or absent. *)
Theorem canonicalId_empty_iff (p : Post) :
  canonicalId p = ""
  <-> Js.truthy (id p) = false /\ Js.truthy (url p) = false
      /\ Js.truthy (uri p) = false.
Proof.
  rewrite canonicalId_unfold. cbv zeta. unfold directOf.
  destruct (Js.truthy (id p)) eqn:Hid.
  - pose proof (truthy_toStr _ Hid) as Hne. apply nonEmpty_true in Hne.
    rewrite Hne. simpl.
    split; [| intros [H _]; discriminate].
    intros H. exfalso.
    destruct (Str.allDigits (Js.toStr (id p))).
    + rewrite H in Hne. discriminate.
    + destruct (Str.nonEmpty (matchSlashDigits (Js.toStr (id p)))) eqn:E1;
        [rewrite H in E1; discriminate |].
      destruct (Str.nonEmpty (extractNumericId (Js.or (url p) (uri p))))
        eqn:E2; [rewrite H in E2; discriminate |].
      rewrite H in Hne. discriminate.
  - simpl.
    destruct (Str.nonEmpty (extractNumericId (Js.or (url p) (uri p)))) eqn:E2.
    + split.
      * intros H. rewrite H in E2. discriminate.
      * intros (_ & Hu & Hi). rewrite extractNumericId_falsy in E2;
          [discriminate |]. now rewrite or_truthy, Hu, Hi.
    + destruct (Js.truthy (Js.or (url p) (uri p))) eqn:Ht.
      * unfold Js.or at 1. rewrite Ht. split.
        -- intros H. now apply truthy_toStr in Ht.
        -- intros (_ & Hu & Hi). rewrite or_truthy, Hu, Hi in Ht.
           discriminate.
      * unfold Js.or at 1. rewrite Ht. simpl.
        rewrite or_truthy in Ht. apply orb_false_iff in Ht. tauto.
Qed.

(** no slash of [s] has a digit right after it *)
Fixpoint slashDigitFree (s : string) : bool :=
  match s with
  | EmptyString => true
  | String c r =>
      negb (Ascii.eqb c "/"
            && match r with
               | String d _ => Str.isDigit d
               | EmptyString => false
               end)
      && slashDigitFree r
  end.

Lemma spanDigits_digits_then (ds tl : string) :
  Str.allDigits ds = true -> Str.boundaryOrEnd tl = true ->
  Str.spanDigits (ds ++ tl)%string = (ds, tl).
Proof.
  intros Hd Hb. induction ds as [| c r IH]; simpl.
  - destruct tl as [| c tl']; [reflexivity |]. simpl in *.
    assert (Str.isDigit c = false).
    { unfold Str.isWordChar in Hb. destruct (Str.isDigit c); [discriminate Hb | reflexivity]. }
    now rewrite H.
  - simpl in Hd. apply andb_true_iff in Hd as [Hc Hr].
    rewrite Hc, (IH Hr). reflexivity.
Qed.

Lemma matchSlashDigits_permalink (prefix digits tl : string) :
  slashDigitFree prefix = true ->
  digits <> "" -> Str.allDigits digits = true ->
  Str.boundaryOrEnd tl = true ->
  matchSlashDigits (prefix ++ "/" ++ digits ++ tl)%string = digits.
Proof.
  intros Hp Hne Hd Hb. induction prefix as [| c r IH].
  - simpl. rewrite (spanDigits_digits_then digits tl Hd Hb).
    apply nonEmpty_true in Hne. now rewrite Hne, Hb.
  - simpl in Hp. apply andb_true_iff in Hp as [Hc Hr].
    specialize (IH Hr).
    change ((String c r ++ "/" ++ digits ++ tl)%string)
      with (String c (r ++ "/" ++ digits ++ tl)%string).
    assert (Hs : Ascii.eqb c "/" = true ->
                 fst (Str.spanDigits (r ++ "/" ++ digits ++ tl)%string) = "").
    { intros Ec. rewrite Ec in Hc. simpl in Hc.
      destruct r as [| d r']; [reflexivity |]. simpl.
      apply negb_true_iff in Hc. now rewrite Hc. }
    remember (r ++ "/" ++ digits ++ tl)%string as rest eqn:Erest.
    cbn [matchSlashDigits].
    destruct (Ascii.eqb c "/"); [| exact IH].
    specialize (Hs eq_refl).
    destruct (Str.spanDigits rest) as [ds t].
    simpl in Hs. subst ds. simpl. exact IH.
Qed.

Lemma allDigits_app_slash (prefix rest : string) :
  Str.allDigits (prefix ++ "/" ++ rest)%string = false.
Proof.
  change ("/" ++ rest)%string with (String "/" rest).
  induction prefix as [| c r IH]; [reflexivity |].
  cbn [append Str.allDigits]. rewrite IH. apply andb_false_r.
Qed.

End IdentityFacts.

(** X2. A permalink and the bare number denote one identity: when no
    slash of the prefix has a digit right after it, an [id] that is the
    prefix, a slash, a run of digits and then nothing or a non-word
    character (a query, a fragment) has that run of digits as canonical
    identity, whatever the other fields. *)
Theorem canonicalId_permalink (p : Post) (prefix digits tl : string) :
  slashDigitFree prefix = true ->
  digits <> "" -> Str.allDigits digits = true ->
  Str.boundaryOrEnd tl = true ->
  canonicalId (setId p (prefix ++ "/" ++ digits ++ tl)%string) = digits
  /\ canonicalId (setId p digits) = digits.
Proof.
  intros Hp Hne Hd Hb. split.
  - rewrite canonicalId_unfold, directOf_setId. cbv zeta.
    rewrite allDigits_app_slash, andb_false_r.
    rewrite (matchSlashDigits_permalink prefix digits tl Hp Hne Hd Hb).
    apply nonEmpty_true in Hne. now rewrite Hne.
  - apply canonicalId_of_key; [reflexivity | assumption | now left].
Qed.

(** ** Record normaliser: the shape of the result *)

Section ResultShape.
Context {D : DateModel}.

Lemma length_set {V : Type} (m : list (string * V)) (k : string) (v : V) :
  List.length (JsMap.set k v m) <= S (List.length m).
Proof.
  induction m as [| [k0 v0] r IH]; simpl; [lia |].
  destruct (String.eqb k k0); simpl; lia.
Qed.

Lemma length_normalizeStep (m : list (string * Post)) (p : Post) :
  List.length (normalizeStep m p) <= S (List.length m).
Proof.
  unfold normalizeStep. cbv zeta.
  destruct (negb (Str.nonEmpty (canonicalId p))); [lia |].
  destruct (JsMap.get (canonicalId p) m); apply length_set.
Qed.

Lemma length_fold_normalizeStep (xs : list Post) (m : list (string * Post)) :
  List.length (fold_left normalizeStep xs m)
  <= List.length m + List.length xs.
Proof.
  revert m. induction xs as [| p r IH]; intros m; simpl; [lia |].
  specialize (IH (normalizeStep m p)).
  pose proof (length_normalizeStep m p). lia.
Qed.

Lemma length_normalizePosts (xs : list Post) :
  List.length (normalizePosts xs) <= List.length xs.
Proof.
  unfold normalizePosts. cbv zeta. rewrite jsSort_length.
  unfold JsMap.values. rewrite length_map.
  apply (length_fold_normalizeStep xs []).
Qed.

(** the comparator of the sort, on records whose timestamps parse *)
Lemma inOrder_ascending (l : list Post) :
  (forall r, In r l -> instant r <> None) ->
  inOrder laterPost l ->
  StronglySorted (fun a b => notLater (instant a) (instant b)) l.
Proof.
  intros Hv Hs. apply Sorted_StronglySorted.
  { intros a b c. apply notLater_trans. }
  unfold inOrder in Hs. induction l as [| a r IH]; [constructor |].
  inversion Hs as [| ? ? Hr Hh]; subst. constructor.
  - apply IH; [| assumption]. intros x Hx. apply Hv. now right.
  - destruct r as [| b r']; constructor.
    inversion Hh as [| ? ? Hab]; subst.
    pose proof (Hv a (or_introl eq_refl)) as Ha.
    pose proof (Hv b (or_intror (or_introl eq_refl))) as Hb.
    unfold laterPost in Hab. fold (instant a) in Hab. fold (instant b) in Hab.
    destruct (instant a), (instant b); simpl in *; try congruence.
    apply Z.ltb_ge in Hab. lia.
Qed.

End ResultShape.

(** X3. The result of [normalizePosts] holds one record for each
    identity of the input and nothing else: the [id]s of its records are
    pairwise different, each is the canonical identity of its record,
    not empty, and that of some input record; every input record that
    has an identity has its record in the result; the others are
    dropped, so the result is never longer than the input. *)
Theorem normalizePosts_one_record_per_identity
        {D : DateModel} (xs : list Post) :
  NoDup (map id (normalizePosts xs))
  /\ (forall r, In r (normalizePosts xs) ->
        id r = Some (canonicalId r) /\ canonicalId r <> ""
        /\ exists p, In p xs /\ canonicalId p = canonicalId r)
  /\ (forall p, In p xs -> canonicalId p <> "" ->
        exists r, In r (normalizePosts xs) /\ id r = Some (canonicalId p))
  /\ List.length (normalizePosts xs) <= List.length xs.
Proof.
  split; [apply normalizePosts_NoDup |].
  split; [| split; [apply normalizePosts_covers | apply length_normalizePosts]].
  intros r Hr.
  destruct (normalizePosts_records xs r Hr) as (k & Hkr & (p & Hp & Hpk & _) & _).
  rewrite (keyed_canonicalId k r Hkr). destruct Hkr as (Hid & Hne & _).
  split; [assumption |]. split; [assumption |]. now exists p.
Qed.

(** X4. Where the timestamps of the input all parse, the result of
    [normalizePosts] stands in ascending order of the parsed instants. *)
Theorem normalizePosts_ascending {D : DateModel} (xs : list Post) :
  (forall p, In p xs -> instant p <> None) ->
  StronglySorted (fun a b => notLater (instant a) (instant b))
                 (normalizePosts xs).
Proof.
  intros Hv. apply inOrder_ascending.
  - intros r. now apply normalizePosts_instants.
  - unfold normalizePosts. cbv zeta. apply jsSort_inOrder, laterPost_asym.
Qed.

(** ** Record normaliser: which values are kept *)

Section KeptValues.
Context {D : DateModel}.

(** the first record of identity [k] *)
Definition firstOf (k : string) (xs : list Post) : option Post :=
  find (fun p => String.eqb (canonicalId p) k) xs.

(** the first record of identity [k] whose field [f] is not empty *)
Definition firstWith (f : Post -> option string) (k : string)
           (xs : list Post) : option Post :=
  find (fun p => String.eqb (canonicalId p) k && Js.truthy (f p)) xs.

(** what the merges leave in the field [f], starting from [mine] *)
Definition keptFrom (f : Post -> option string) (k : string)
           (mine : option string) (xs : list Post) : option string :=
  if Js.truthy mine then mine
  else match firstWith f k xs with
       | Some p => f p
       | None => mine
       end.

(** the three optional fields: read from a record, kept by [setId], and
    filled by the merge *)
Definition optionalField (f : Post -> option string) : Prop :=
  (forall p k, f (setId p k) = f p)
  /\ (forall e n, f (mergePost e n) = filled (f e) (f n)).

Lemma optionalField_url : optionalField url.
Proof. split; [reflexivity | intros; now rewrite mergePost_fields]. Qed.

Lemma optionalField_uri : optionalField uri.
Proof. split; [reflexivity | intros; now rewrite mergePost_fields]. Qed.

Lemma optionalField_content : optionalField content.
Proof. split; [reflexivity | intros; now rewrite mergePost_fields]. Qed.

Lemma fold_mergeInto_Some (k : string) (xs : list Post) (e : Post) :
  exists r, fold_left (mergeInto k) xs (Some e) = Some r
            /\ extra r = extra e
            /\ forall f, optionalField f -> f r = keptFrom f k (f e) xs.
Proof.
  revert e. induction xs as [| p xs IH]; intros e; simpl.
  - exists e. split; [reflexivity |]. split; [reflexivity |].
    intros f _. unfold keptFrom. simpl. now destruct (Js.truthy (f e)).
  - unfold mergeInto at 2.
    destruct (String.eqb (canonicalId p) k) eqn:Ek.
    + destruct (IH (mergePost e (setId p k))) as (r & Hr & Hx & Hf).
      exists r. split; [exact Hr |].
      split; [rewrite Hx; now rewrite mergePost_fields |].
      intros f Hopt. rewrite (Hf f Hopt). destruct Hopt as [Hset Hmerge].
      rewrite Hmerge, Hset. unfold keptFrom, firstWith. simpl. rewrite Ek.
      simpl. unfold filled.
      destruct (Js.truthy (f e)) eqn:Te; simpl; [now rewrite Te |].
      destruct (Js.truthy (f p)) eqn:Tp; simpl.
      * now rewrite Tp.
      * now rewrite Te.
    + destruct (IH e) as (r & Hr & Hx & Hf).
      exists r. split; [exact Hr |]. split; [exact Hx |].
      intros f Hopt. rewrite (Hf f Hopt).
      unfold keptFrom, firstWith. simpl. rewrite Ek. reflexivity.
Qed.

Lemma mergedAt_kept (k : string) (xs : list Post) (r : Post) :
  mergedAt k xs = Some r ->
  exists p0, firstOf k xs = Some p0
             /\ extra r = extra p0
             /\ forall f, optionalField f ->
                          f r = match firstWith f k xs with
                                | Some p => f p
                                | None => f p0
                                end.
Proof.
  unfold mergedAt, firstOf.
  induction xs as [| p xs IH]; simpl; [discriminate |].
  unfold mergeInto at 2.
  destruct (String.eqb (canonicalId p) k) eqn:Ek.
  - intros Hm.
    destruct (fold_mergeInto_Some k xs (setId p k)) as (r' & Hr' & Hx & Hf).
    rewrite Hr' in Hm. injection Hm as <-.
    exists p. split; [reflexivity |]. split; [exact Hx |].
    intros f Hopt. rewrite (Hf f Hopt). destruct Hopt as [Hset _].
    rewrite Hset. unfold keptFrom, firstWith. simpl.
    destruct (Js.truthy (f p)); [reflexivity |].
    now destruct (find _ xs).
  - intros Hm. destruct (IH Hm) as (p0 & H0 & Hx & Hf).
    exists p0. split; [exact H0 |]. split; [exact Hx |].
    intros f Hopt. rewrite (Hf f Hopt). reflexivity.
Qed.

End KeptValues.

(** X5. First non-empty wins, for any number of records: a record of the
    result keeps the other properties of the first input record of its
    identity, and in each of [url], [uri] and [content] the value of the
    first input record of its identity in which that field is not
    empty; when the field is empty in all of them, that of the first
    record. *)
Theorem normalizePosts_first_non_empty_wins
        {D : DateModel} (xs : list Post) (r : Post) :
  In r (normalizePosts xs) ->
  exists p0,
    firstOf (canonicalId r) xs = Some p0
    /\ extra r = extra p0
    /\ url r = match firstWith url (canonicalId r) xs with
               | Some p => url p
               | None => url p0
               end
    /\ uri r = match firstWith uri (canonicalId r) xs with
               | Some p => uri p
               | None => uri p0
               end
    /\ content r = match firstWith content (canonicalId r) xs with
                   | Some p => content p
                   | None => content p0
                   end.
Proof.
  intros Hr. apply In_normalizePosts_mergedAt in Hr as (k & Hne & Hm).
  rewrite (keyed_canonicalId k r (mergedAt_key k xs r Hne Hm)).
  destruct (mergedAt_kept k xs r Hm) as (p0 & H0 & Hx & Hf).
  exists p0. split; [exact H0 |]. split; [exact Hx |].
  split; [apply Hf, optionalField_url |].
  split; [apply Hf, optionalField_uri | apply Hf, optionalField_content].
Qed.

Lemma canonicalId_of_id (p : Post) :
  Js.truthy (id p) = true -> canonicalId p <> "".
Proof.
  intros Hid. rewrite canonicalId_unfold. cbv zeta. unfold directOf.
  rewrite Hid.
  assert (Hne : Str.nonEmpty (Js.toStr (id p)) = true).
  { destruct (id p) as [[| c s] |]; simpl in *; congruence. }
  rewrite Hne. simpl.
  destruct (Str.allDigits (Js.toStr (id p))); [now apply nonEmpty_true |].
  destruct (Str.nonEmpty (matchSlashDigits _)) eqn:E1; [now apply nonEmpty_true |].
  destruct (Str.nonEmpty (extractNumericId _)) eqn:E2; [now apply nonEmpty_true |].
  now apply nonEmpty_true.
Qed.

(** ** The recency window *)

Section WindowFacts.
Context {D : DateModel} (cfg : Config).

Lemma minTime_Some (items : list Post) (m : Z) :
  minTime items = Some m ->
  (forall p, In p items -> exists t, instant p = Some t /\ (m <= t)%Z)
  /\ (exists p, In p items /\ instant p = Some m).
Proof.
  revert m. induction items as [| p r IH]; intros m; [discriminate |].
  destruct r as [| q r'].
  - simpl. intros H. split.
    + intros x [<- | []]. exists m. split; [exact H | lia].
    + exists p. split; [now left | exact H].
  - change (minTime (p :: q :: r'))
      with (match JsDate.parse (timestamp p), minTime (q :: r') with
            | Some a, Some b => Some (Z.min a b)
            | _, _ => None
            end).
    fold (instant p).
    destruct (instant p) as [a |] eqn:Ea; [| discriminate].
    destruct (minTime (q :: r')) as [b |]; [| discriminate].
    intros [= <-]. destruct (IH b eq_refl) as (Hall & (x & Hx & Hxb)).
    split.
    + intros y [<- | Hy].
      * exists a. split; [assumption | lia].
      * destruct (Hall y Hy) as (t & Ht & Hle). exists t. split; [assumption | lia].
    + destruct (Z.min_spec a b) as [[_ ->] | [_ ->]].
      * exists p. split; [now left | assumption].
      * exists x. split; [now right | assumption].
Qed.

Lemma minTime_None (items : list Post) :
  minTime items = None ->
  items = [] \/ exists p, In p items /\ instant p = None.
Proof.
  induction items as [| p r IH]; [now left |].
  destruct r as [| q r'].
  - simpl. intros H. right. exists p. split; [now left | exact H].
  - change (minTime (p :: q :: r'))
      with (match JsDate.parse (timestamp p), minTime (q :: r') with
            | Some a, Some b => Some (Z.min a b)
            | _, _ => None
            end).
    fold (instant p).
    destruct (instant p) as [a |] eqn:Ea.
    + destruct (minTime (q :: r')) as [b |] eqn:Em; [discriminate |].
      intros _. destruct (IH eq_refl) as [H | (x & Hx & Hn)]; [discriminate |].
      right. exists x. split; [now right | assumption].
    + intros _. right. exists p. split; [now left | assumption].
Qed.

Lemma shouldFetchMore_window (now : Z) (items : list Post) :
  shouldFetchMore cfg now items = true
  <-> items <> []
      /\ forall p, In p items ->
           exists t, instant p = Some t
                     /\ (now - t < HISTORY_WINDOW_HOURS cfg * 60 * 60 * 1000)%Z.
Proof.
  unfold shouldFetchMore. destruct items as [| p r]; [split; [discriminate | tauto] |].
  destruct (minTime (p :: r)) as [m |] eqn:Em.
  - destruct (minTime_Some _ _ Em) as (Hall & (x & Hx & Hxm)).
    rewrite Z.ltb_lt. split.
    + intros H. split; [discriminate |]. intros y Hy.
      destruct (Hall y Hy) as (t & Ht & Hle). exists t. split; [assumption | lia].
    + intros (_ & H). destruct (H x Hx) as (t & Ht & Hlt).
      assert (t = m) by congruence. lia.
  - split; [discriminate |]. intros (_ & H).
    destruct (minTime_None _ Em) as [? | (x & Hx & Hn)]; [discriminate |].
    destruct (H x Hx) as (t & Ht & _). congruence.
Qed.

End WindowFacts.

(** X6. [shouldFetchMore] asks for another page exactly when something
    has been collected and every record collected parses to an instant
    less than the history window before now: one record at or beyond the
    window, or one timestamp that is no date, ends the paging. *)
Theorem shouldFetchMore_iff_all_recent
        {D : DateModel} (cfg : Config) (now : Z) (items : list Post) :
  shouldFetchMore cfg now items = true
  <-> items <> []
      /\ forall p, In p items ->
           exists t, instant p = Some t
                     /\ (now - t < HISTORY_WINDOW_HOURS cfg * 60 * 60 * 1000)%Z.
Proof. apply shouldFetchMore_window. Qed.

(** ** What the decoders return *)

Section DecodedRecords.
Context {D : DateModel}.

(** a record that can be stored and aggregated: it has an identity and a
    timestamp that parses *)
Definition storable (r : Post) : Prop :=
  canonicalId r <> "" /\ instant r <> None.

Lemma statusOfItem_storable (item : RawStatus) (r : Post) :
  statusOfItem item = Js.Ok (Some r) ->
  Js.truthy (id r) = true /\ storable r
  /\ (exists t, JsDate.parse (raw_created_at item) = Some t
                /\ timestamp r = Some (to_iso t))
  /\ uri r = None /\ extra r = [].
Proof.
  unfold statusOfItem. cbv zeta.
  destruct (negb (Js.truthy (raw_created_at item))
            || negb (Js.truthy (Js.or (Js.or (raw_id item) (raw_url item))
                                      (raw_uri item)))) eqn:E;
    [discriminate |].
  apply orb_false_iff in E as [_ Hid]. apply negb_false_iff in Hid.
  destruct (JsDate.parse (raw_created_at item)) as [t |]; [| discriminate].
  simpl. destruct (date_parse (to_iso t)) as [t' |] eqn:Ep; [| discriminate].
  simpl. intros [= <-].
  assert (Ht : Js.truthy (Some (Js.toStr (Js.or (Js.or (raw_id item)
                                   (raw_url item)) (raw_uri item)))) = true).
  { destruct (Js.or (Js.or (raw_id item) (raw_url item)) (raw_uri item))
      as [[| c s] |]; simpl in *; congruence. }
  split; [exact Ht |]. split.
  - split; [now apply canonicalId_of_id |].
    unfold instant. simpl. rewrite Ep. discriminate.
  - split; [exists t; auto | auto].
Qed.

Lemma filterBoolean_In {A} (l : list (option A)) (a : A) :
  In a (filterBoolean l) <-> In (Some a) l.
Proof.
  induction l as [| [x |] r IH]; simpl; [tauto | |].
  - rewrite IH. split; intros [H | H]; auto; left; congruence.
  - rewrite IH. split; [auto | intros [H | H]; [discriminate | auto]].
Qed.

Lemma filterBoolean_length {A} (l : list (option A)) :
  List.length (filterBoolean l) <= List.length l.
Proof. induction l as [| [x |] r IH]; simpl; lia. Qed.

Lemma mapM_Ok_In {A B} (f : A -> Js.result B) (l : list A) (ys : list B) :
  Js.mapM f l = Js.Ok ys ->
  List.length ys = List.length l
  /\ forall y, In y ys -> exists x, In x l /\ f x = Js.Ok y.
Proof.
  revert ys. induction l as [| x r IH]; simpl; intros ys.
  - intros [= <-]. split; [reflexivity | intros y []].
  - destruct (f x) as [y0 | e] eqn:E; [| discriminate]. simpl.
    destruct (Js.mapM f r) as [ys0 | e]; [| discriminate]. simpl.
    intros [= <-]. destruct (IH ys0 eq_refl) as (Hl & Hin). split.
    + simpl. now rewrite Hl.
    + intros y [<- | Hy]; [exists x; auto |].
      destruct (Hin y Hy) as (x' & Hx' & Hf). exists x'. auto.
Qed.

Lemma parseStatusList_storable (payload : Payload) (posts : list Post) :
  parseStatusList payload = Js.Ok posts ->
  match payload with
  | NotArray => posts = []
  | Statuses items => List.length posts <= List.length items
  end
  /\ forall r, In r posts ->
       Js.truthy (id r) = true /\ storable r
       /\ (exists t, timestamp r = Some (to_iso t))
       /\ uri r = None /\ extra r = [].
Proof.
  destruct payload as [| items]; simpl.
  - intros [= <-]. split; [reflexivity | intros r []].
  - destruct (Js.mapM statusOfItem items) as [mapped |] eqn:E; [| discriminate].
    simpl. intros [= <-]. destruct (mapM_Ok_In _ _ _ E) as (Hl & Hin). split.
    + rewrite <- Hl. apply filterBoolean_length.
    + intros r Hr. apply filterBoolean_In in Hr.
      destruct (Hin _ Hr) as (item & _ & Hf).
      destruct (statusOfItem_storable item r Hf) as (A & B & (t & _ & C) & E1 & E2).
      split; [exact A |]. split; [exact B |]. split; [now exists t | auto].
Qed.

Lemma feedItem_storable (chunk : string) (items items' : list Post) :
  feedItem chunk items = Js.Ok items' ->
  List.length items' <= S (List.length items)
  /\ forall r, In r items' ->
       In r items
       \/ (Js.truthy (id r) = true /\ storable r
           /\ (exists t, timestamp r = Some (to_iso t))
           /\ url r = None /\ uri r = None /\ content r = None
           /\ extra r = []).
Proof.
  unfold feedItem. cbv zeta.
  destruct (Str.nonEmpty _ && Str.nonEmpty (extractTag "pubDate" chunk)) eqn:E.
  - apply andb_true_iff in E as [Hid _].
    destruct (date_parse (extractTag "pubDate" chunk)) as [t |]; [| discriminate].
    simpl. destruct (date_parse (to_iso t)) as [t' |] eqn:Ep; simpl.
    + intros [= <-]. split; [rewrite length_app; simpl; lia |].
      intros r Hr. apply in_app_or in Hr as [Hr | [<- | []]]; [now left |].
      right. split; [exact Hid |]. split.
      * split; [now apply canonicalId_of_id |].
        unfold instant. simpl. rewrite Ep. discriminate.
      * split; [now exists t | auto].
    + intros [= <-]. split; [lia | auto].
  - intros [= <-]. split; [lia | auto].
Qed.

Lemma parseFeedFrom_storable (fuel : nat) (xml : string)
      (items posts : list Post) :
  parseFeedFrom fuel xml items = Js.Ok posts ->
  List.length posts <= List.length items + List.length (chunksFrom fuel xml)
  /\ forall r, In r posts ->
       In r items
       \/ (Js.truthy (id r) = true /\ storable r
           /\ (exists t, timestamp r = Some (to_iso t))
           /\ url r = None /\ uri r = None /\ content r = None
           /\ extra r = []).
Proof.
  revert xml items. induction fuel as [| n IH]; intros xml items; simpl.
  - intros [= <-]. split; [lia | auto].
  - destruct (matchBetween "<item>" "</item>" xml) as [[chunk rest] |].
    + destruct (feedItem chunk items) as [items' |] eqn:E; [| discriminate].
      simpl. intros H. destruct (IH rest items' H) as (Hl & Hin).
      destruct (feedItem_storable chunk items items' E) as (Hl' & Hin').
      split; [simpl; lia |].
      intros r Hr. destruct (Hin r Hr) as [Hr' | Hok]; [| now right].
      apply Hin', Hr'.
    + intros [= <-]. split; [simpl; lia | auto].
Qed.

Lemma parseFeed_storable (xml : string) (posts : list Post) :
  parseFeed xml = Js.Ok posts ->
  List.length posts <= List.length (feedChunks xml)
  /\ forall r, In r posts ->
       Js.truthy (id r) = true /\ storable r
       /\ (exists t, timestamp r = Some (to_iso t))
       /\ url r = None /\ uri r = None /\ content r = None /\ extra r = [].
Proof.
  intros H. destruct (parseFeedFrom_storable _ _ _ _ H) as (Hl & Hin).
  split; [exact Hl |]. intros r Hr.
  destruct (Hin r Hr) as [[] | Hok]. exact Hok.
Qed.

End DecodedRecords.


(** X8. What the syndication decoder returns can be stored and
    aggregated: there are no more records than items in the feed, and
    each record has an [id] that is not empty, hence an identity, a
    timestamp written by [toISOString] that parses, and nothing else. *)
Theorem parseFeed_records_storable
        {D : DateModel} (xml : string) (posts : list Post) :
  parseFeed xml = Js.Ok posts ->
  List.length posts <= List.length (feedChunks xml)
  /\ forall r, In r posts ->
       Js.truthy (id r) = true /\ storable r
       /\ (exists t, timestamp r = Some (to_iso t))
       /\ url r = None /\ uri r = None /\ content r = None /\ extra r = [].
Proof. apply parseFeed_storable. Qed.

(** ** The paginated fetch: how much it asks *)

Section FetchBounds.
Context {D : DateModel} (cfg : Config).

(** [w'] is [w] after [k] calls of [fetch] and nothing else *)
Definition afterRequests (k : nat) (w w' : World) : Prop :=
  List.length (requested w') = List.length (requested w) + k
  /\ net w' = skipn k (net w)
  /\ sameStore w w'.

Lemma afterRequests_refl (w : World) : afterRequests 0 w w.
Proof. repeat split; simpl; lia. Qed.

Lemma skipn_tl {A} (k : nat) (l : list A) : skipn k (tl l) = skipn (S k) l.
Proof. destruct l; simpl; [now destruct k | reflexivity]. Qed.

Lemma afterRequests_fetch (u : string) (w : World) :
  afterRequests 1 w (snd (fetch u w)).
Proof.
  unfold fetch, afterRequests, sameStore.
  destruct (net w) as [| [| r] rest] eqn:E; simpl;
    rewrite length_app; simpl; repeat split; lia.
Qed.

Lemma afterRequests_trans (a b : nat) (w1 w2 w3 : World) :
  afterRequests a w1 w2 -> afterRequests b w2 w3 ->
  afterRequests (a + b) w1 w3.
Proof.
  intros (A1 & A2 & A3) (B1 & B2 & B3). split; [lia |]. split.
  - rewrite B2, A2. rewrite skipn_skipn. f_equal. lia.
  - eapply sameStore_trans; eassumption.
Qed.

Lemma fetchPagesFrom_bounded (pages : nat) (pageUrl : option string)
      (collected : list Post) (w : World) :
  Forall storable collected ->
  exists k, k <= pages
            /\ afterRequests k w (snd (fetchPagesFrom cfg pages pageUrl collected w))
            /\ forall posts,
                 fst (fetchPagesFrom cfg pages pageUrl collected w) = Js.Ok posts ->
                 Forall storable posts.
Proof.
  revert pageUrl collected w.
  induction pages as [| n IH]; intros pageUrl collected w Hc.
  - exists 0. split; [lia |]. split; [apply afterRequests_refl |].
    simpl. now intros posts [= <-].
  - cbn [fetchPagesFrom].
    destruct (negb (Js.truthy pageUrl)).
    { exists 0. split; [lia |]. split; [apply afterRequests_refl |].
      simpl. now intros posts [= <-]. }
    unfold bindM.
    pose proof (afterRequests_fetch (Js.toStr pageUrl) w) as Hf.
    destruct (fetch (Js.toStr pageUrl) w) as [[r | e] w1]; simpl in Hf.
    2:{ exists 1. split; [lia |]. split; [exact Hf | simpl; intros ? Hd; discriminate Hd]. }
    destruct (negb (resp_ok r)).
    { exists 1. split; [lia |]. split; [exact Hf | simpl; intros ? Hd; discriminate Hd]. }
    destruct (negb (Str.includes _ _)).
    { exists 1. split; [lia |]. split; [exact Hf | simpl; intros ? Hd; discriminate Hd]. }
    destruct (resp_json r) as [payload |].
    2:{ exists 1. split; [lia |]. split; [exact Hf | simpl; intros ? Hd; discriminate Hd]. }
    unfold lift.
    destruct (parseStatusList payload) as [items | e] eqn:Ep.
    2:{ exists 1. split; [lia |]. split; [exact Hf | simpl; intros ? Hd; discriminate Hd]. }
    destruct items as [| i items].
    { exists 1. split; [lia |]. split; [exact Hf |].
      simpl. now intros posts [= <-]. }
    assert (Hc' : Forall storable (collected ++ i :: items)).
    { apply Forall_app. split; [assumption |].
      apply Forall_forall. intros x Hx.
      apply (proj2 (parseStatusList_storable payload _ Ep) x Hx). }
    destruct (negb (shouldFetchMore cfg (clock w1) (collected ++ i :: items))).
    { exists 1. split; [lia |]. split; [exact Hf |].
      simpl. now intros posts [= <-]. }
    destruct (IH (JsMap.get "next" (parseLinkHeader (resp_link r)))
                 (collected ++ i :: items) w1 Hc') as (k & Hk & Ha & Hs).
    exists (1 + k). split; [lia |].
    split; [eapply afterRequests_trans; eassumption | exact Hs].
Qed.

Lemma fetchIncoming_bounded (w : World) :
  exists k, (Z.of_nat k <= Z.max 1 (MAX_STATUS_PAGES cfg))%Z
            /\ afterRequests k w (snd (fetchIncoming cfg w))
            /\ forall posts, fst (fetchIncoming cfg w) = Js.Ok posts ->
                             Forall storable posts.
Proof.
  unfold fetchIncoming.
  destruct (Str.includes (SOURCE_URL cfg) "/api/").
  - unfold fetchStatusPages.
    destruct (fetchPagesFrom_bounded (Z.to_nat (MAX_STATUS_PAGES cfg))
                (Some (SOURCE_URL cfg)) [] w (Forall_nil _)) as (k & Hk & H).
    exists k. split; [lia | exact H].
  - exists 1. split; [lia |]. unfold bindM.
    pose proof (afterRequests_fetch (SOURCE_URL cfg) w) as Hf.
    destruct (fetch (SOURCE_URL cfg) w) as [[r | e] w1]; simpl in Hf;
      [| split; [exact Hf | simpl; intros ? Hd; discriminate Hd]].
    destruct (negb (resp_ok r)); [split; [exact Hf | simpl; intros ? Hd; discriminate Hd] |].
    destruct (match resp_contentType r with
              | Some ct => Str.includes ct "application/json"
              | None => false
              end).
    + destruct (resp_json r) as [payload |];
        [| split; [exact Hf | simpl; intros ? Hd; discriminate Hd]].
      split; [exact Hf |]. unfold lift. simpl. intros posts Hp.
      apply Forall_forall. intros x Hx.
      apply (proj2 (parseStatusList_storable payload _ Hp) x Hx).
    + split; [exact Hf |]. unfold lift. simpl. intros posts Hp.
      apply Forall_forall. intros x Hx.
      apply (proj2 (parseFeed_storable _ _ Hp) x Hx).
Qed.

End FetchBounds.


(** ** The poll cycle: what it writes *)

Section PollFacts.
Context {D : DateModel} (cfg : Config).

(** the posts that [loadData] finds in a document that can be read *)
Definition stored (d : Disk) : list Post :=
  match d with
  | Document (Some posts) => posts
  | _ => []
  end.

Definition readable (d : Disk) : Prop :=
  match d with Unreadable _ => False | _ => True end.

Lemma loadData_readable (w : World) :
  readable (disk w) -> loadData w = (Js.Ok (stored (disk w)), w).
Proof.
  unfold loadData, readable, stored.
  destruct (disk w) as [| e | [posts |]]; tauto.
Qed.

(** the four ways a poll goes on once the fetch has returned *)
Lemma pollFeed_after_fetch (w w1 : World) (incoming : list Post) :
  fetchIncoming cfg w = (Js.Ok incoming, w1) ->
  pollFeed cfg w =
  match incoming with
  | [] =>
      mkWorld (net w1) (requested w1) (clock w1) (disk w1) (writeFault w1)
              (Some (to_iso (clock w1))) (console w1)
  | _ :: _ =>
      match disk w1 with
      | Unreadable e =>
          mkWorld (net w1) (requested w1) (clock w1) (disk w1)
                  (writeFault w1) (lastPollAt w1) (console w1 ++ [e])
      | _ =>
          match writeFault w1 with
          | Some e =>
              mkWorld (net w1) (requested w1) (clock w1) (disk w1)
                      (writeFault w1) (lastPollAt w1) (console w1 ++ [e])
          | None =>
              mkWorld (net w1) (requested w1) (clock w1)
                      (Document
                         (Some (normalizePosts (stored (disk w1) ++ incoming))))
                      (writeFault w1) (Some (to_iso (clock w1))) (console w1)
          end
      end
  end.
Proof.
  intros Hf. unfold pollFeed, pollBody, bindM. rewrite Hf.
  destruct incoming as [| i incoming]; [reflexivity |].
  unfold loadData, saveData, stored.
  destruct w1 as [n rq c d wf lp co]. simpl.
  destruct d as [| e | [posts |]]; simpl; destruct wf; reflexivity.
Qed.

Lemma normalizePosts_storable (xs : list Post) :
  Forall storable xs -> Forall storable (normalizePosts xs).
Proof.
  intros Hx. apply Forall_forall. intros r Hr.
  destruct (normalizePosts_records xs r Hr) as (k & Hkr & (p & Hp & _ & Ht) & _).
  split.
  - rewrite (keyed_canonicalId k r Hkr). apply Hkr.
  - rewrite Forall_forall in Hx. destruct (Hx p Hp) as [_ Hi].
    unfold instant in *. now rewrite <- Ht.
Qed.

Lemma pollFeed_merges (w w1 : World) (incoming : list Post) :
  fetchIncoming cfg w = (Js.Ok incoming, w1) ->
  incoming <> [] -> readable (disk w) -> writeFault w = None ->
  disk (pollFeed cfg w)
  = Document (Some (normalizePosts (stored (disk w) ++ incoming)))
  /\ lastPollAt (pollFeed cfg w) = Some (to_iso (clock w))
  /\ console (pollFeed cfg w) = console w.
Proof.
  intros Hf Hne Hr Hw. rewrite (pollFeed_after_fetch w w1 incoming Hf).
  pose proof (networkOnly_fetchIncoming cfg w) as S. rewrite Hf in S.
  destruct S as (S1 & S2 & S3 & S4 & S5). simpl in *.
  destruct incoming as [| i incoming]; [congruence |].
  rewrite S1, S4, Hw. unfold readable in Hr.
  destruct (disk w) as [| e | posts]; try tauto; simpl; rewrite S5; auto.
Qed.

Lemma pollFeed_idle (w w1 : World) :
  fetchIncoming cfg w = (Js.Ok [], w1) ->
  disk (pollFeed cfg w) = disk w
  /\ lastPollAt (pollFeed cfg w) = Some (to_iso (clock w))
  /\ console (pollFeed cfg w) = console w.
Proof.
  intros Hf. rewrite (pollFeed_after_fetch w w1 [] Hf).
  pose proof (networkOnly_fetchIncoming cfg w) as S. rewrite Hf in S.
  destruct S as (S1 & S2 & S3 & S4 & S5). simpl in *.
  rewrite S5. auto.
Qed.

Lemma pollFeed_storage_fails (w w1 : World) (incoming : list Post)
      (e : Js.error) :
  fetchIncoming cfg w = (Js.Ok incoming, w1) ->
  incoming <> [] ->
  disk w = Unreadable e \/ (readable (disk w) /\ writeFault w = Some e) ->
  disk (pollFeed cfg w) = disk w
  /\ lastPollAt (pollFeed cfg w) = lastPollAt w
  /\ console (pollFeed cfg w) = console w ++ [e].
Proof.
  intros Hf Hne Hfail. rewrite (pollFeed_after_fetch w w1 incoming Hf).
  pose proof (networkOnly_fetchIncoming cfg w) as S. rewrite Hf in S.
  destruct S as (S1 & S2 & S3 & S4 & S5). simpl in *.
  destruct incoming as [| i incoming]; [congruence |].
  rewrite S1, S4.
  destruct Hfail as [Hd | [Hr Hw]].
  - rewrite Hd. simpl. rewrite S2, S3. auto.
  - rewrite Hw. unfold readable in Hr.
    destruct (disk w) as [| e' | posts]; try tauto; simpl;
      rewrite S2, S3; auto.
Qed.

(** whatever happens, the document is as before or the merge of what was
    stored with records of the decoders *)
Lemma pollFeed_disk (w : World) :
  disk (pollFeed cfg w) = disk w
  \/ exists incoming,
       Forall storable incoming
       /\ disk (pollFeed cfg w)
          = Document (Some (normalizePosts (stored (disk w) ++ incoming))).
Proof.
  pose proof (networkOnly_fetchIncoming cfg w) as S.
  destruct (fetchIncoming_bounded cfg w) as (k & _ & _ & Hst).
  destruct (fetchIncoming cfg w) as [[incoming | e] w1] eqn:Hf.
  - rewrite (pollFeed_after_fetch w w1 incoming Hf).
    destruct S as (S1 & _). simpl in *.
    destruct incoming as [| i incoming]; [now left |].
    destruct (disk w1) as [| e | posts] eqn:Ed; simpl;
      destruct (writeFault w1); simpl; try (left; congruence);
      right; exists (i :: incoming);
      (split; [now apply Hst | rewrite <- S1; reflexivity]).
  - left. rewrite (pollFeed_fetch_throws cfg w w1 e Hf). simpl. apply S.
Qed.

Lemma pollFeed_storable (w : World) :
  Forall storable (stored (disk w)) ->
  Forall storable (stored (disk (pollFeed cfg w))).
Proof.
  intros Hs. destruct (pollFeed_disk w) as [-> | (incoming & Hi & ->)];
    [assumption |].
  simpl. apply normalizePosts_storable. apply Forall_app. now split.
Qed.

Lemma countHours_total (l : list Post) (b b' : list (string * nat)) :
  countHours l b = Js.Ok b' -> total b' = total b + List.length l.
Proof.
  revert b. induction l as [| p r IH]; intros b; simpl.
  - intros [= <-]. lia.
  - destruct (toHourKey (timestamp p)) as [k | e]; [| discriminate]. simpl.
    intros H. apply IH in H. fold (bump b k) in H.
    rewrite total_bump in H. lia.
Qed.

Lemma computeHourly_sum (posts : list Post) (buckets : list HourlyBucket) :
  computeHourly posts = Js.Ok buckets ->
  list_sum (map count buckets) = List.length (normalizePosts posts).
Proof.
  unfold computeHourly. cbv zeta.
  destruct (countHours (normalizePosts posts) []) as [b |] eqn:E;
    [| discriminate].
  simpl. intros [= <-]. apply countHours_total in E.
  rewrite (list_sum_perm _ _
             (Permutation_map count (jsSort_perm laterBucket _))).
  rewrite map_map. simpl.
  change (list_sum (map (fun x => snd x) b)) with (total b). exact E.
Qed.

Lemma computeHourly_storable (posts : list Post) :
  Forall storable posts -> exists buckets, computeHourly posts = Js.Ok buckets.
Proof.
  intros Hs. eexists. apply computeHourly_valid.
  intros p Hp. rewrite Forall_forall in Hs. apply (Hs p Hp).
Qed.

Lemma fold_pickLater_Some (l : list Post) (a : Post) :
  exists r, fold_left pickLater l (Some a) = Some r.
Proof.
  revert a. induction l as [| y l IH]; intros a; simpl; [eauto |].
  destruct (JsDate.gt _ _); apply IH.
Qed.

Lemma computeLatest_None (posts : list Post) :
  computeLatest posts = None <-> normalizePosts posts = [].
Proof.
  unfold computeLatest. cbv zeta.
  destruct (normalizePosts posts) as [| a l]; [tauto |].
  simpl. destruct (fold_pickLater_Some l a) as (r & ->).
  split; discriminate.
Qed.

End PollFacts.

(** X10. A poll whose fetch returns records, with a document that can be
    read and written, replaces the stored posts by the normalised merge
    of the stored posts followed by the fetched ones, and sets the time
    of the last poll to now.  So no stored identity is ever lost, and
    the new document is a fixed point of [normalizePosts].  A poll whose
    fetch returns no record leaves the document as it is and still sets
    the time of the last poll. *)
Theorem pollFeed_success_merges
        {D : DateModel} (cfg : Config) (w w1 : World) (incoming : list Post) :
  fetchIncoming cfg w = (Js.Ok incoming, w1) ->
  (incoming <> [] -> readable (disk w) -> writeFault w = None ->
   disk (pollFeed cfg w)
   = Document (Some (normalizePosts (stored (disk w) ++ incoming)))
   /\ lastPollAt (pollFeed cfg w) = Some (to_iso (clock w))
   /\ console (pollFeed cfg w) = console w
   /\ (forall p, In p (stored (disk w)) -> canonicalId p <> "" ->
         exists r, In r (stored (disk (pollFeed cfg w)))
                   /\ id r = Some (canonicalId p))
   /\ normalizePosts (stored (disk (pollFeed cfg w)))
      = stored (disk (pollFeed cfg w)))
  /\ (incoming = [] ->
      disk (pollFeed cfg w) = disk w
      /\ lastPollAt (pollFeed cfg w) = Some (to_iso (clock w))
      /\ console (pollFeed cfg w) = console w).
Proof.
  intros Hf. split.
  - intros Hne Hr Hw.
    destruct (pollFeed_merges cfg w w1 incoming Hf Hne Hr Hw) as (Hd & Hl & Hc).
    split; [exact Hd |]. split; [exact Hl |]. split; [exact Hc |].
    rewrite Hd. simpl. split.
    + intros p Hp Hid. apply normalizePosts_covers; [| assumption].
      apply in_or_app. now left.
    + apply normalizePosts_again.
  - intros ->. now apply (pollFeed_idle cfg w w1).
Qed.

(** X11. A poll that has fetched records and then cannot read the
    document, or cannot write it, writes the error to the console and
    leaves the document and the time of the last poll as they were. *)
Theorem pollFeed_storage_failure
        {D : DateModel} (cfg : Config) (w w1 : World)
        (incoming : list Post) (e : Js.error) :
  fetchIncoming cfg w = (Js.Ok incoming, w1) ->
  incoming <> [] ->
  disk w = Unreadable e \/ (readable (disk w) /\ writeFault w = Some e) ->
  disk (pollFeed cfg w) = disk w
  /\ lastPollAt (pollFeed cfg w) = lastPollAt w
  /\ console (pollFeed cfg w) = console w ++ [e].
Proof. apply pollFeed_storage_fails. Qed.

(** X12. The poll keeps the store fit for the read routes: when every
    stored record has an identity and a timestamp that parses, so it is
    after a poll, however the poll went, and [computeHourly] returns on
    the stored posts. *)
Theorem pollFeed_keeps_store_storable
        {D : DateModel} (cfg : Config) (w : World) :
  Forall storable (stored (disk w)) ->
  Forall storable (stored (disk (pollFeed cfg w)))
  /\ exists buckets,
       computeHourly (stored (disk (pollFeed cfg w))) = Js.Ok buckets.
Proof.
  intros Hs. pose proof (pollFeed_storable cfg w Hs) as H.
  split; [exact H | now apply computeHourly_storable].
Qed.

(** ** Seeding and the read routes *)

Section RouteFacts.
Context {D : DateModel} (cfg : Config).

Lemma loadData_snd (w : World) : snd (loadData w) = w.
Proof. unfold loadData. now destruct (disk w) as [| e | [posts |]]. Qed.

Lemma ensureSeeded_quiet (s : Server) :
  stored (disk (world s)) <> []
  \/ (clock (world s) - lastSeedAttempt s < POLL_INTERVAL_MS cfg)%Z ->
  readable (disk (world s)) ->
  ensureSeeded cfg s = (Js.Ok (stored (disk (world s))), s).
Proof.
  intros Hq Hr. unfold ensureSeeded.
  rewrite (loadData_readable _ Hr). destruct s as [w last]. simpl in *.
  destruct (stored (disk w)) as [| p ps]; [| reflexivity].
  destruct Hq as [Hq | Hq]; [congruence |].
  apply Z.ltb_lt in Hq. now rewrite Hq.
Qed.

Lemma ensureSeeded_polls (s : Server) :
  stored (disk (world s)) = [] -> readable (disk (world s)) ->
  (POLL_INTERVAL_MS cfg <= clock (world s) - lastSeedAttempt s)%Z ->
  ensureSeeded cfg s
  = (fst (loadData (pollFeed cfg (world s))),
     mkServer (pollFeed cfg (world s)) (clock (world s))).
Proof.
  intros He Hr Hi. unfold ensureSeeded.
  rewrite (loadData_readable _ Hr), He.
  apply Z.ltb_ge in Hi. rewrite Hi. cbv zeta.
  rewrite (surjective_pairing (loadData (pollFeed cfg (world s)))).
  now rewrite loadData_snd.
Qed.

Lemma ensureSeeded_unreadable (s : Server) (e : Js.error) :
  disk (world s) = Unreadable e -> ensureSeeded cfg s = (Js.Throw e, s).
Proof.
  intros Hd. unfold ensureSeeded, loadData. rewrite Hd.
  now destruct s.
Qed.

Lemma pollFeed_clock (w : World) : clock (pollFeed cfg w) = clock w.
Proof.
  pose proof (networkOnly_fetchIncoming cfg w) as S.
  destruct (fetchIncoming cfg w) as [[incoming | e] w1] eqn:Hf.
  - rewrite (pollFeed_after_fetch cfg w w1 incoming Hf).
    destruct S as (_ & _ & _ & _ & S5). simpl in S5.
    destruct incoming; [exact S5 |].
    destruct (disk w1); [| exact S5 |]; destruct (writeFault w1); exact S5.
  - rewrite (pollFeed_fetch_throws cfg w w1 e Hf). apply S.
Qed.

Lemma pollFeed_readable (w : World) :
  readable (disk w) -> readable (disk (pollFeed cfg w)).
Proof.
  intros Hr. destruct (pollFeed_disk cfg w) as [-> | (i & _ & ->)];
    [assumption | exact I].
Qed.

Lemma ensureSeeded_again (s : Server) :
  (0 < POLL_INTERVAL_MS cfg)%Z ->
  snd (ensureSeeded cfg (snd (ensureSeeded cfg s)))
  = snd (ensureSeeded cfg s).
Proof.
  intros Hpos.
  destruct (disk (world s)) as [| e | posts] eqn:Hd.
  2:{ rewrite (ensureSeeded_unreadable s e Hd). simpl.
      now rewrite (ensureSeeded_unreadable s e Hd). }
  all: assert (Hr : readable (disk (world s))) by (rewrite Hd; exact I).
  all: destruct (stored (disk (world s))) as [| p ps] eqn:Hs.
  all: try (rewrite (ensureSeeded_quiet s);
            [simpl; rewrite (ensureSeeded_quiet s); [reflexivity | | assumption]
            | | assumption]; left; rewrite Hs; discriminate).
  all: destruct (Z.ltb_spec (clock (world s) - lastSeedAttempt s)
                            (POLL_INTERVAL_MS cfg)) as [Hlt | Hge].
  all: try (rewrite (ensureSeeded_quiet s (or_intror Hlt) Hr); simpl;
            now rewrite (ensureSeeded_quiet s (or_intror Hlt) Hr)).
  all: rewrite (ensureSeeded_polls s Hs Hr Hge); simpl.
  all: rewrite ensureSeeded_quiet; [reflexivity | | ].
  all: simpl; try (apply pollFeed_readable; assumption).
  all: right; rewrite pollFeed_clock; lia.
Qed.

End RouteFacts.

(** X13. [ensureSeeded] polls only a cold store, and not too often:
    when posts are stored, or when less than [POLL_INTERVAL_MS] has
    passed since the last seed attempt, it returns the stored posts and
    changes nothing, asking nothing of the network.  When it does poll,
    it notes the time, so that (the interval being positive) a second
    call right after changes nothing more. *)
Theorem ensureSeeded_throttled {D : DateModel} (cfg : Config) (s : Server) :
  (stored (disk (world s)) <> []
   \/ (clock (world s) - lastSeedAttempt s < POLL_INTERVAL_MS cfg)%Z ->
   readable (disk (world s)) ->
   ensureSeeded cfg s = (Js.Ok (stored (disk (world s))), s))
  /\ (stored (disk (world s)) = [] -> readable (disk (world s)) ->
      (POLL_INTERVAL_MS cfg <= clock (world s) - lastSeedAttempt s)%Z ->
      snd (ensureSeeded cfg s)
      = mkServer (pollFeed cfg (world s)) (clock (world s)))
  /\ ((0 < POLL_INTERVAL_MS cfg)%Z ->
      snd (ensureSeeded cfg (snd (ensureSeeded cfg s)))
      = snd (ensureSeeded cfg s)).
Proof.
  split; [apply ensureSeeded_quiet |]. split.
  - intros He Hr Hi. now rewrite (ensureSeeded_polls cfg s He Hr Hi).
  - apply ensureSeeded_again.
Qed.

(** X14. The two read routes agree: answered from the same state,
    [GET /latest] reports as [totalPosts] the sum of the counts that
    [GET /history/hourly] reports, and it reports no latest post exactly
    when [totalPosts] is zero. *)
Theorem routes_agree_on_total
        {D : DateModel} (cfg : Config) (s s1 s2 : Server)
        (body : LatestBody) (buckets : list HourlyBucket) :
  getLatest cfg s = (Js.Ok body, s1) ->
  (latest body = None <-> totalPosts body = 0)
  /\ (getHistoryHourly cfg s = (Js.Ok buckets, s2) ->
      list_sum (map count buckets) = totalPosts body).
Proof.
  unfold getLatest, getHistoryHourly.
  destruct (ensureSeeded cfg s) as [[posts | e] s']; [| discriminate].
  intros [= <- <-]. simpl. split.
  - rewrite computeLatest_None. split.
    + now intros ->.
    + now destruct (normalizePosts posts).
  - intros [= H _]. now apply computeHourly_sum.
Qed.

(** ** The export tool: the rows can be read back *)

Section CsvFacts.

(** A reader of one line of CSV: cells end at a comma outside quotes; a
    quote opens or closes a quoted stretch, two quotes inside one stand
    for a quote.  [cur] is the cell being read. *)
Fixpoint readRow (s : string) (quoted : bool) (cur : string) : list string :=
  match s with
  | EmptyString => [cur]
  | String c r =>
      if quoted then
        if Ascii.eqb c dquote then
          match r with
          | String c2 r2 =>
              if Ascii.eqb c2 dquote
              then readRow r2 true (cur ++ String dquote "")%string
              else readRow r false cur
          | EmptyString => readRow r false cur
          end
        else readRow r true (cur ++ String c "")%string
      else if Ascii.eqb c "," then cur :: readRow r false ""
      else if Ascii.eqb c dquote then readRow r true cur
      else readRow r false (cur ++ String c "")%string
  end.

Definition cellText (value : option string) : string :=
  match value with Some s => s | None => "" end.

Lemma app_snoc (a : string) (c : ascii) (b : string) :
  ((a ++ String c "") ++ b = a ++ String c b)%string.
Proof. induction a; simpl; congruence. Qed.

Lemma app_empty_r (a : string) : (a ++ "")%string = a.
Proof. induction a; simpl; congruence. Qed.

Lemma readRow_plain (text rest cur : string) :
  needsQuotes text = false ->
  readRow (text ++ rest)%string false cur
  = readRow rest false (cur ++ text)%string.
Proof.
  revert cur. induction text as [| c r IH]; intros cur Hn; simpl.
  - now rewrite app_empty_r.
  - simpl in Hn. apply orb_false_iff in Hn as [Hc Hr].
    apply orb_false_iff in Hc as [Hc _].
    apply orb_false_iff in Hc as [Hq Hcomma].
    rewrite Hcomma, Hq, (IH _ Hr), app_snoc. reflexivity.
Qed.

(** [rest] does not go on with a quote *)
Definition noQuoteAhead (rest : string) : bool :=
  match rest with
  | String c _ => negb (Ascii.eqb c dquote)
  | EmptyString => true
  end.

Lemma readRow_quoted (text rest cur : string) :
  noQuoteAhead rest = true ->
  readRow (doubleQuotes text ++ String dquote rest)%string true cur
  = readRow rest false (cur ++ text)%string.
Proof.
  revert cur. induction text as [| c r IH]; intros cur Hr.
  - simpl. rewrite app_empty_r.
    destruct rest as [| c2 r2]; [reflexivity |].
    simpl in Hr. apply negb_true_iff in Hr.
    change (Ascii.eqb dquote dquote) with true. cbv iota. now rewrite Hr.
  - cbn [doubleQuotes]. destruct (Ascii.eqb c dquote) eqn:E.
    + apply Ascii.eqb_eq in E. subst c. cbn [append readRow].
      change (Ascii.eqb dquote dquote) with true. cbv iota.
      rewrite (IH _ Hr), app_snoc. reflexivity.
    + cbn [append readRow]. rewrite E, (IH _ Hr), app_snoc. reflexivity.
Qed.

Lemma readRow_cell (value : option string) (rest cur : string) :
  noQuoteAhead rest = true ->
  readRow (csvEscape value ++ rest)%string false cur
  = readRow rest false (cur ++ cellText value)%string.
Proof.
  intros Hr. unfold csvEscape. fold (cellText value). cbv zeta.
  destruct (needsQuotes (cellText value)) eqn:E.
  - cbn [append readRow].
    change (Ascii.eqb dquote ",") with false.
    change (Ascii.eqb dquote dquote) with true. cbv iota.
    rewrite <- (readRow_quoted (cellText value) rest cur Hr).
    f_equal. induction (doubleQuotes (cellText value)); simpl; congruence.
  - now apply readRow_plain.
Qed.

Lemma readRow_toCsvRow (v : option string) (row : list (option string)) :
  readRow (toCsvRow (v :: row)) false "" = map cellText (v :: row).
Proof.
  unfold toCsvRow. revert v. induction row as [| w row IH]; intros v.
  - simpl. rewrite <- (app_empty_r (csvEscape v)).
    now rewrite readRow_cell.
  - change (join "," (map csvEscape (v :: w :: row)))
      with (csvEscape v ++ String "," (join "," (map csvEscape (w :: row))))%string.
    rewrite readRow_cell by reflexivity. cbn [readRow].
    change (Ascii.eqb "," ",") with true. cbv iota.
    rewrite IH. reflexivity.
Qed.

End CsvFacts.

(** X15. A row written by [toCsvRow] can be read back: reading it as a
    line of CSV (cells end at a comma outside quotes, a quote opens or
    closes a quoted stretch, a doubled quote inside one is a quote) gives
    the texts of its cells, an absent value reading as the empty text.
    So two rows of texts that differ never give the same line. *)
Theorem toCsvRow_reads_back (v : option string) (row : list (option string)) :
  readRow (toCsvRow (v :: row)) false "" = map cellText (v :: row).
Proof. apply readRow_toCsvRow. Qed.

(** ** The export tool: what the loop keeps true *)

Section ExportInvariants.
Import ExportTool.
Context {D : DateModel} (opts : Options).

Definition rowId (r : RawStatus) : string := Js.toStr (raw_id r).

Definition stateOf (o : Outcome) : State :=
  match o with
  | Finished st => st
  | Aborted _ st => st
  end.

Definition reached (s : Step) : State :=
  match s with
  | Continue st => st
  | Break st => st
  | Raise _ st => st
  end.

(** the rows are of different statuses, each one seen and in range *)
Definition tidyRows (ids : list string) (out : list RawStatus) : Prop :=
  NoDup (map rowId out)
  /\ Forall (fun r => Js.truthy (raw_id r) = true
                      /\ In (rowId r) ids
                      /\ withinRange opts (raw_created_at r) = true) out.

Lemma seen_In (ids : list string) (v : string) :
  seen ids v = true <-> In v ids.
Proof.
  unfold seen. rewrite existsb_exists. split.
  - intros [x [Hx E]]. apply String.eqb_eq in E. now subst.
  - intros H. exists v. split; [exact H | apply String.eqb_refl].
Qed.

Lemma tidyRows_more (ids : list string) (v : string) (out : list RawStatus) :
  tidyRows ids out -> tidyRows (ids ++ [v]) out.
Proof.
  intros [Hn Hf]. split; [exact Hn |].
  eapply Forall_impl; [| exact Hf]. cbv beta. intros r (Ht & Hi & Hw).
  repeat split; trivial. apply in_or_app. now left.
Qed.

Lemma scanPage_tidy (payload : list RawStatus) :
  forall (ids : list string) (out : list RawStatus) (k : bool),
    NoDup ids -> tidyRows ids out ->
    let '(ids', out', k') := scanPage opts payload ids out k in
    NoDup ids' /\ tidyRows ids' out'
    /\ (List.length out <= List.length out')%nat
    /\ (k' = true ->
        k = true \/ (List.length out < List.length out')%nat).
Proof.
  induction payload as [| item r IH]; intros ids out k Hids Hrows.
  - simpl. repeat split; try apply Hrows; trivial; try lia. now left.
  - cbn [scanPage].
    destruct (negb (Js.truthy (raw_id item))
              || seen ids (Js.toStr (raw_id item))) eqn:E.
    + now apply IH.
    + apply orb_false_iff in E as [Et Es]. apply negb_false_iff in Et.
      assert (Hnew : ~ In (rowId item) ids).
      { intros Hi. apply seen_In in Hi. unfold rowId in Hi. congruence. }
      assert (Hids' : NoDup (ids ++ [rowId item])).
      { apply NoDup_app; [exact Hids | repeat constructor; intros [] | ].
        intros x Hx [<- | []]. contradiction. }
      cbv zeta. fold (rowId item).
      destruct (negb (withinRange opts (raw_created_at item))) eqn:Ew.
      * apply IH; [exact Hids' | now apply tidyRows_more].
      * apply negb_false_iff in Ew.
        assert (Hrows' : tidyRows (ids ++ [rowId item]) (out ++ [item])).
        { destruct (tidyRows_more ids (rowId item) out Hrows) as [Hn Hf].
          split.
          - rewrite map_app. apply NoDup_app; [exact Hn | | ].
            + repeat constructor. intros [].
            + intros x Hx [<- | []].
              apply in_map_iff in Hx as [r0 [E0 H0]].
              destruct Hrows as [_ Hall].
              rewrite Forall_forall in Hall.
              destruct (Hall _ H0) as (_ & Hi & _).
              rewrite E0 in Hi. contradiction.
          - apply Forall_app. split; [exact Hf |].
            constructor; [| constructor].
            repeat split; trivial. apply in_or_app. right. now left. }
        specialize (IH (ids ++ [rowId item]) (out ++ [item]) true
                       Hids' Hrows').
        destruct (scanPage opts r (ids ++ [rowId item]) (out ++ [item]) true)
          as [[ids' out'] k'].
        destruct IH as (H1 & H2 & H3 & H4).
        rewrite length_app in H3. simpl in H3.
        split; [exact H1 |]. split; [exact H2 |]. split; [lia |].
        intros _. right. lia.
Qed.

Definition cap : Z :=
  match maxDelayMs opts with
  | Some m => m
  | None => DEFAULT_MAX_DELAY_MS
  end.

(** what every turn of the loop keeps *)
Record kept (st : State) : Prop := mkKept {
  kept_ids : NoDup (seenIds st);
  kept_rows : tidyRows (seenIds st) (rows st);
  kept_page : (0 <= page st <= Z.max 0 (maxPages opts))%Z;
  kept_delay :
    Num.lt (Num.Fin (Z.max (delayMs opts) cap)) (currentDelay st) = false;
  kept_slept : Forall (fun ms => Num.lt ms (Num.Fin 0) = false) (slept st)
}.

Lemma retryAfterMs_nonneg (h : option string) :
  Num.lt (retryAfterMs h) (Num.Fin 0) = false.
Proof.
  unfold retryAfterMs. cbv zeta.
  set (retryAfter := match parseInt (Js.toStr (Js.or h (Some "0"))) with
                     | Some z => Num.round z
                     | None => Num.NaN
                     end).
  destruct (Num.isNaN retryAfter || Num.le retryAfter (Num.Fin 0)) eqn:E;
    [reflexivity |].
  apply ceil_notNegative, mul_notNegative; [| reflexivity].
  apply toFloat_notNegative.
  destruct retryAfter as [| | z |]; try discriminate E; [| reflexivity].
  cbn [Num.isNaN Num.le orb] in E. cbn [Num.lt].
  apply Z.leb_gt in E. apply Z.ltb_ge. lia.
Qed.

(** not below, and not above, with [NaN] set apart *)
Lemma not_lt_Fin (a : Num.num) (z : Z) :
  Num.lt a (Num.Fin z) = false ->
  a = Num.NaN \/ Num.le (Num.Fin z) a = true.
Proof.
  destruct a as [| | x |]; cbn [Num.lt Num.le]; intros H;
    try discriminate; auto.
  right. apply Z.ltb_ge in H. now apply Z.leb_le.
Qed.

Lemma Fin_not_lt (z : Z) (a : Num.num) :
  Num.lt (Num.Fin z) a = false ->
  a = Num.NaN \/ Num.le a (Num.Fin z) = true.
Proof.
  destruct a as [| | x |]; cbn [Num.lt Num.le]; intros H;
    try discriminate; auto.
  right. apply Z.ltb_ge in H. now apply Z.leb_le.
Qed.

Lemma kept_initial : kept (initial opts).
Proof.
  constructor; cbn [initial seenIds rows page currentDelay slept];
    try constructor; try constructor; try lia.
  cbn [Num.lt]. apply Z.ltb_ge. lia.
Qed.

Lemma step_kept (st : State) (ev : NetEvent) :
  running opts st = true -> kept st -> kept (reached (step opts st ev)).
Proof.
  intros Hrun [Hids Hrows Hpage Hdelay Hslept].
  unfold running in Hrun. apply andb_true_iff in Hrun as [_ Hlt].
  apply Z.ltb_lt in Hlt.
  unfold step. cbv zeta. cbn [pageUrl page seenIds currentDelay rows asked slept].
  destruct ev as [| response]; [constructor; simpl; trivial |].
  destruct (negb (resp_ok response)).
  - destruct (resp_status response =? 429)%Z;
      constructor; simpl; trivial.
    + unfold capDelay. fold cap. apply min_capped. lia.
    + apply Forall_app. split; [exact Hslept |].
      constructor; [| constructor].
      apply max_notNegative, retryAfterMs_nonneg.
  - assert (Hbase : Num.lt (Num.Fin (Z.max (delayMs opts) cap))
                           (Num.Fin (delayMs opts)) = false)
      by (cbn [Num.lt]; apply Z.ltb_ge; lia).
    destruct (resp_json response) as [[| payload] |].
    + constructor; simpl; trivial; lia.
    + destruct payload as [| item r].
      * constructor; simpl; trivial; lia.
      * pose proof (scanPage_tidy (item :: r) (seenIds st) (rows st) false
                                  Hids Hrows) as H.
        destruct (scanPage opts (item :: r) (seenIds st) (rows st) false)
          as [[ids' out'] k'].
        destruct H as (H1 & H2 & _ & _).
        destruct (negb k'); constructor; simpl; trivial; try lia.
        destruct (0 <? delayMs opts)%Z eqn:E; [| exact Hslept].
        apply Z.ltb_lt in E. apply Forall_app. split; [exact Hslept |].
        constructor; [| constructor].
        cbn [Num.lt]. apply Z.ltb_ge. lia.
    + constructor; simpl; trivial; lia.
Qed.

Lemma run_kept (script : list NetEvent) :
  forall st : State, kept st -> kept (stateOf (run opts script st)).
Proof.
  induction script as [| ev script IH]; intros st Hk; cbn [run];
    destruct (negb (running opts st)) eqn:Er; trivial;
    apply negb_false_iff in Er.
  - pose proof (step_kept st NetworkFailure Er Hk) as H.
    destruct (step opts st NetworkFailure); exact H.
  - pose proof (step_kept st ev Er Hk) as H.
    destruct (step opts st ev); simpl in H; [now apply IH | exact H ..].
Qed.

(** the pages read and the requests made *)
Definition paced (n : nat) (st0 st : State) : Prop :=
  (page st - page st0 <= Z.of_nat (List.length (rows st))
                         - Z.of_nat (List.length (rows st0)) + 1)%Z
  /\ (List.length (asked st) <= List.length (asked st0) + n)%nat.

Lemma step_paced (st : State) (ev : NetEvent) :
  match step opts st ev with
  | Continue st' =>
      (page st' - page st <= Z.of_nat (List.length (rows st'))
                             - Z.of_nat (List.length (rows st)))%Z
      /\ List.length (asked st') = S (List.length (asked st))
  | Break st' | Raise _ st' =>
      (page st' - page st <= Z.of_nat (List.length (rows st'))
                             - Z.of_nat (List.length (rows st)) + 1)%Z
      /\ List.length (asked st') = S (List.length (asked st))
  end.
Proof.
  unfold step. cbv zeta. cbn [pageUrl page seenIds currentDelay rows asked slept].
  assert (Ha : List.length (asked st ++ [pageUrl st])
               = S (List.length (asked st))).
  { rewrite length_app. simpl. lia. }
  destruct ev as [| response]; [simpl; split; [lia | exact Ha] |].
  destruct (negb (resp_ok response)).
  - destruct (resp_status response =? 429)%Z; simpl; split; trivial; lia.
  - destruct (resp_json response) as [[| payload] |];
      [simpl; split; trivial; lia | | simpl; split; trivial; lia].
    destruct payload as [| item r]; [simpl; split; trivial; lia |].
    assert (H : let '(ids', out', k') :=
                  scanPage opts (item :: r) (seenIds st) (rows st) false in
                (List.length (rows st) <= List.length out')%nat
                /\ (k' = true ->
                    (List.length (rows st) < List.length out')%nat)).
    { clear Ha. generalize (item :: r) (seenIds st) (rows st).
      intros payload. 
      assert (G : forall ids out k,
                 let '(ids', out', k') := scanPage opts payload ids out k in
                 (List.length out <= List.length out')%nat
                 /\ (k' = true -> k = true
                     \/ (List.length out < List.length out')%nat)).
      { induction payload as [| it p IH]; intros ids out k.
        - simpl. split; [lia | now left].
        - cbn [scanPage].
          destruct (negb (Js.truthy (raw_id it))
                    || seen ids (Js.toStr (raw_id it))); [apply IH |].
          cbv zeta.
          destruct (negb (withinRange opts (raw_created_at it)));
            [apply IH |].
          specialize (IH (ids ++ [Js.toStr (raw_id it)]) (out ++ [it]) true).
          destruct (scanPage opts p (ids ++ [Js.toStr (raw_id it)])
                             (out ++ [it]) true) as [[i o] k'].
          rewrite length_app in IH. simpl in IH.
          split; [lia | intros _; right; lia]. }
      intros ids out. specialize (G ids out false).
      destruct (scanPage opts payload ids out false) as [[i o] k'].
      destruct G as [G1 G2]. split; [exact G1 |].
      intros Hk. destruct (G2 Hk) as [? | ?]; [discriminate | trivial]. }
    destruct (scanPage opts (item :: r) (seenIds st) (rows st) false)
      as [[ids' out'] k'].
    destruct H as [H1 H2].
    destruct k'; simpl; (split; [| exact Ha]).
    + specialize (H2 eq_refl). lia.
    + lia.
Qed.

Lemma run_paced (script : list NetEvent) :
  forall st : State,
    paced (S (List.length script)) st (stateOf (run opts script st)).
Proof.
  unfold paced.
  induction script as [| ev script IH]; intros st; cbn [run];
    (destruct (negb (running opts st)); [simpl; split; lia |]).
  - pose proof (step_paced st NetworkFailure) as H.
    destruct (step opts st NetworkFailure);
      cbv beta iota in H; cbn [stateOf List.length]; lia.
  - pose proof (step_paced st ev) as H.
    destruct (step opts st ev) as [st' | st' | e st'];
      cbv beta iota in H; cbn [stateOf List.length]; try lia.
    specialize (IH st'). lia.
Qed.

End ExportInvariants.


(** X17. Whatever the network answers, when the loop of the export tool
    ends it has read at most [maxPages] pages and at most one page more
    than it has rows, has made at most one request more than the network
    gave answers, has never slept a negative time, and its delay is at
    most the larger of the configured delay and the cap.  The times and
    the delay are numbers of the language: one that is [NaN], as the
    product of infinity and zero is, is neither negative nor above the
    cap. *)
Theorem export_loop_bounded
    {D : DateModel} (opts : ExportTool.Options) (script : list NetEvent) :
  let st := stateOf (ExportTool.run opts script (ExportTool.initial opts)) in
  (0 <= ExportTool.page st <= Z.max 0 (ExportTool.maxPages opts))%Z
  /\ (ExportTool.page st
      <= Z.of_nat (List.length (ExportTool.rows st)) + 1)%Z
  /\ (List.length (ExportTool.asked st) <= S (List.length script))%nat
  /\ Forall (fun ms => ms = Num.NaN \/ Num.le (Num.Fin 0) ms = true)
            (ExportTool.slept st)
  /\ (ExportTool.currentDelay st = Num.NaN
      \/ Num.le (ExportTool.currentDelay st)
                (Num.Fin (Z.max (ExportTool.delayMs opts) (cap opts)))
         = true).
Proof.
  cbv zeta.
  destruct (run_kept opts script _ (kept_initial opts))
    as [_ _ Hpage Hdelay Hslept].
  destruct (run_paced opts script (ExportTool.initial opts)) as [Hp Ha].
  cbn [ExportTool.initial ExportTool.page ExportTool.rows ExportTool.asked
       List.length] in Hp, Ha.
  repeat split; trivial; try lia.
  - eapply Forall_impl; [| exact Hslept]. intros ms. apply not_lt_Fin.
  - now apply Fin_not_lt.
Qed.

(** ** The [Link] header *)

Section LinkFacts.

Fixpoint hasChar (c : ascii) (s : string) : bool :=
  match s with
  | EmptyString => false
  | String a r => Ascii.eqb a c || hasChar c r
  end.

(** one link of a header, as servers write it *)
Definition linkText (link : string * string) : string :=
  ("<" ++ snd link ++ ">; rel=" ++ String dquote (fst link ++ String dquote ""))%string.

(** the links of a header, a comma and a blank between them *)
Fixpoint linksText (links : list (string * string)) : string :=
  match links with
  | [] => ""
  | [l] => linkText l
  | l :: r => (linkText l ++ ", " ++ linksText r)%string
  end.

(** a relation and a url that can be written in a header *)
Definition writable (link : string * string) : Prop :=
  fst link <> "" /\ hasChar dquote (fst link) = false
  /\ hasChar "," (fst link) = false
  /\ snd link <> "" /\ hasChar ">" (snd link) = false
  /\ hasChar "," (snd link) = false.

(** the url of the last link with the relation [k] *)
Fixpoint lastRel (k : string) (links : list (string * string))
  : option string :=
  match links with
  | [] => None
  | (rel, url) :: r =>
      match lastRel k r with
      | Some u => Some u
      | None => if String.eqb k rel then Some url else None
      end
  end.

Lemma hasChar_app (c : ascii) (a b : string) :
  hasChar c (a ++ b)%string = hasChar c a || hasChar c b.
Proof. induction a; simpl; [reflexivity | now rewrite IHa, orb_assoc]. Qed.

Lemma split_plain (sep : ascii) (s : string) :
  hasChar sep s = false -> Str.split sep s = [s].
Proof.
  induction s as [| c r IH]; simpl; [reflexivity |]. intros H.
  apply orb_false_iff in H as [Hc Hr]. now rewrite Hc, (IH Hr).
Qed.

Lemma split_app (sep : ascii) (a b : string) :
  hasChar sep a = false ->
  Str.split sep (a ++ String sep b)%string = a :: Str.split sep b.
Proof.
  induction a as [| c r IH]; simpl; intros H.
  - now rewrite Ascii.eqb_refl.
  - apply orb_false_iff in H as [Hc Hr]. now rewrite Hc, (IH Hr).
Qed.

Lemma split_free (sep : ascii) (s : string) :
  Forall (fun part => hasChar sep part = false) (Str.split sep s).
Proof.
  induction s as [| c r IH]; simpl.
  - now constructor.
  - destruct (Ascii.eqb c sep) eqn:E; [now constructor |].
    destruct (Str.split sep r) as [| h t]; inversion IH; subst;
      constructor; simpl; rewrite ?E; simpl; trivial.
Qed.

Lemma spanUntil_app (c : ascii) (a b : string) :
  hasChar c a = false ->
  spanUntil c (a ++ String c b)%string = (a, String c b).
Proof.
  induction a as [| x r IH]; simpl; intros H.
  - now rewrite Ascii.eqb_refl.
  - apply orb_false_iff in H as [Hc Hr]. now rewrite Hc, (IH Hr).
Qed.

Lemma spanUntil_parts (c : ascii) (s : string) :
  s = (fst (spanUntil c s) ++ snd (spanUntil c s))%string
  /\ hasChar c (fst (spanUntil c s)) = false.
Proof.
  induction s as [| x r [IH1 IH2]]; simpl; [split; reflexivity |].
  destruct (Ascii.eqb x c) eqn:E; simpl; [split; reflexivity |].
  destruct (spanUntil c r) as [a b]. simpl in *. rewrite E.
  split; [now f_equal | exact IH2].
Qed.


Lemma afterUrl_semicolon (x : string) :
  Str.dropPrefix Ascii.eqb ">;" (String ">" (String ";" x)) = Some x.
Proof. reflexivity. Qed.

Lemma afterUrl_blank (x : string) :
  Str.dropSpaces (String " " (String "r" x)) = String "r" x.
Proof. reflexivity. Qed.

Lemma afterUrl_rel (x : string) :
  Str.dropPrefix Ascii.eqb ("rel=" ++ String dquote "")
    (String "r" (String "e" (String "l" (String "=" (String dquote x)))))
  = Some x.
Proof. reflexivity. Qed.

Lemma linkHere_text (rel url rest : string) :
  writable (rel, url) ->
  linkHere (url ++ ">; rel=" ++ String dquote (rel ++ String dquote rest))%string
  = Some (url, rel).
Proof.
  intros (Hr & Hq & _ & Hu & Hg & _). simpl in *.
  unfold linkHere.
  change (url ++ ">; rel=" ++ String dquote (rel ++ String dquote rest))%string
    with (url ++ String ">" ("; rel=" ++ String dquote (rel ++ String dquote rest)))%string.
  rewrite (spanUntil_app _ _ _ Hg). cbv beta iota.
  apply nonEmpty_true in Hu. rewrite Hu. cbn [negb]. cbv beta iota.
  rewrite afterUrl_semicolon, afterUrl_blank, afterUrl_rel.
  rewrite (spanUntil_app _ _ _ Hq). cbv beta iota.
  apply nonEmpty_true in Hr. now rewrite Hr.
Qed.

Lemma matchLink_text (blanks rel url : string) :
  hasChar "<" blanks = false -> writable (rel, url) ->
  matchLink (blanks ++ linkText (rel, url))%string = Some (url, rel).
Proof.
  intros Hb Hw. induction blanks as [| c r IH].
  - pose proof (linkHere_text rel url "" Hw) as E.
    unfold linkText. cbn [append matchLink fst snd] in E |- *.
    change (Ascii.eqb "<" "<") with true. cbv iota. now rewrite E.
  - simpl in Hb. apply orb_false_iff in Hb as [Hc Hr].
    cbn [append matchLink]. rewrite Hc. now apply IH.
Qed.

Lemma linkText_free (link : string * string) :
  writable link -> hasChar "," (linkText link) = false.
Proof.
  intros (_ & _ & Hr & _ & _ & Hu). unfold linkText. simpl.
  rewrite hasChar_app, Hu. simpl. now rewrite hasChar_app, Hr.
Qed.

Definition record (links : list (string * string)) (part : string)
  : list (string * string) :=
  match matchLink part with
  | Some (url, rel) =>
      if String.eqb rel "__proto__" then links
      else JsMap.set rel url links
  | None => links
  end.

(** the assignment [links[rel] = url] *)
Definition assign (links : list (string * string)) (link : string * string)
  : list (string * string) :=
  if String.eqb (fst link) "__proto__" then links
  else JsMap.set (fst link) (snd link) links.

Lemma split_linksText (l : string * string) (links : list (string * string)) :
  Forall writable (l :: links) ->
  Str.split "," (linksText (l :: links))
  = linkText l :: map (fun x => (" " ++ linkText x)%string) links.
Proof.
  revert l. induction links as [| l2 r IH]; intros l H.
  - inversion H; subst. simpl linksText.
    now rewrite split_plain by now apply linkText_free.
  - inversion H as [| ? ? Hl Hrest]; subst.
    change (linksText (l :: l2 :: r))
      with (linkText l ++ String "," (" " ++ linksText (l2 :: r)))%string.
    rewrite split_app by now apply linkText_free.
    f_equal. specialize (IH l2 Hrest).
    change (" " ++ linksText (l2 :: r))%string
      with (String " " (linksText (l2 :: r))).
    cbn [Str.split]. change (Ascii.eqb " " ",") with false. cbv iota.
    rewrite IH. reflexivity.
Qed.

Lemma fold_record_links (links : list (string * string)) :
  Forall writable links ->
  forall (blank : string) (m : list (string * string)),
    hasChar "<" blank = false ->
    fold_left record (map (fun x => (blank ++ linkText x)%string) links) m
    = fold_left assign links m.
Proof.
  induction 1 as [| [rel url] r Hw Hr IH]; intros blank m Hb;
    [reflexivity |].
  simpl. unfold record at 2.
  rewrite (matchLink_text blank rel url Hb Hw). now apply IH.
Qed.

(** [next] is no name that the assignment treats apart *)
Lemma get_next_fold_assign (links : list (string * string)) :
  forall m : list (string * string),
    JsMap.get "next" (fold_left assign links m)
    = match lastRel "next" links with
      | Some u => Some u
      | None => JsMap.get "next" m
      end.
Proof.
  induction links as [| [rel url] r IH]; intros m; [reflexivity |].
  cbn [fold_left lastRel]. rewrite IH.
  destruct (lastRel "next" r); [reflexivity |].
  unfold assign. cbn [fst snd].
  destruct (String.eqb_spec rel "__proto__") as [-> | Hp]; [reflexivity |].
  destruct (String.eqb_spec "next" rel) as [<- | Hne].
  - apply get_set_same.
  - apply get_set_other. congruence.
Qed.

Lemma parseLinkHeader_fold (header : string) :
  header <> "" ->
  parseLinkHeader (Some header)
  = fold_left record (Str.split "," header) [].
Proof.
  intros H. unfold parseLinkHeader. simpl.
  apply nonEmpty_true in H. rewrite H. reflexivity.
Qed.

Lemma parseLinkHeader_next (links : list (string * string)) :
  Forall writable links ->
  JsMap.get "next" (parseLinkHeader (Some (linksText links)))
  = lastRel "next" links.
Proof.
  intros H. destruct links as [| l r]; [reflexivity |].
  rewrite parseLinkHeader_fold.
  2:{ destruct r; simpl; discriminate. }
  rewrite (split_linksText l r H). inversion H as [| ? ? Hl Hr]; subst.
  cbn [fold_left]. unfold record at 2.
  destruct l as [rel url].
  rewrite (matchLink_text "" rel url eq_refl Hl : matchLink (linkText (rel, url)) = _).
  rewrite (fold_record_links r Hr " " _ eq_refl).
  change (if String.eqb rel "__proto__" then [] else JsMap.set rel url [])
    with (fold_left assign [(rel, url)] []).
  rewrite <- fold_left_app. rewrite get_next_fold_assign.
  cbn [app lastRel JsMap.get].
  now destruct (lastRel "next" r); [| destruct (String.eqb "next" rel)].
Qed.

(** suffixes *)
Inductive tailOf : string -> string -> Prop :=
| tail_here s : tailOf s s
| tail_next c s t : tailOf s t -> tailOf s (String c t).

Lemma hasChar_tail (c : ascii) (s t : string) :
  tailOf s t -> hasChar c t = false -> hasChar c s = false.
Proof.
  induction 1 as [| x s t Ht IH]; simpl; trivial. intros Hc.
  apply orb_false_iff in Hc as [_ Hc]. auto.
Qed.

Lemma tailOf_trans (a b c : string) :
  tailOf a b -> tailOf b c -> tailOf a c.
Proof. intros Hab Hbc. induction Hbc; [exact Hab | constructor; auto]. Qed.

Lemma tailOf_app (a b : string) : tailOf b (a ++ b)%string.
Proof. induction a; simpl; constructor; trivial. Qed.

Lemma dropPrefix_tail (p s t : string) :
  Str.dropPrefix Ascii.eqb p s = Some t -> tailOf t s.
Proof.
  revert s. induction p as [| a p IH]; intros s; simpl.
  - intros [= <-]. constructor.
  - destruct s as [| b s]; [discriminate |].
    destruct (Ascii.eqb a b); [| discriminate].
    intros H. constructor. now apply IH.
Qed.

Lemma dropSpaces_tail (s : string) : tailOf (Str.dropSpaces s) s.
Proof.
  induction s as [| c r IH]; simpl; [constructor |].
  destruct (Str.isSpace c); constructor; trivial.
Qed.

Lemma hasChar_prefix (c : ascii) (a b : string) :
  hasChar c (a ++ b)%string = false -> hasChar c a = false.
Proof. rewrite hasChar_app. intros H. now apply orb_false_iff in H. Qed.

Lemma spanUntil_tail (c : ascii) (s : string) :
  tailOf (snd (spanUntil c s)) s.
Proof.
  destruct (spanUntil_parts c s) as [E _].
  rewrite E at 2. apply tailOf_app.
Qed.

Lemma linkHere_sound (s url rel : string) :
  linkHere s = Some (url, rel) ->
  url <> "" /\ hasChar ">" url = false
  /\ rel <> "" /\ hasChar dquote rel = false
  /\ forall c, hasChar c s = false ->
               hasChar c url = false /\ hasChar c rel = false.
Proof.
  unfold linkHere.
  pose proof (spanUntil_parts ">" s) as [E1 F1].
  pose proof (spanUntil_tail ">" s) as T1.
  destruct (spanUntil ">" s) as [u tl]. simpl in E1, F1, T1.
  destruct (Str.nonEmpty u) eqn:Nu; [| discriminate]. cbn [negb].
  destruct (Str.dropPrefix Ascii.eqb ">;" tl) as [tl1 |] eqn:D1;
    [| discriminate].
  destruct (Str.dropPrefix Ascii.eqb ("rel=" ++ String dquote "")
                           (Str.dropSpaces tl1)) as [tl2 |] eqn:D2;
    [| discriminate].
  pose proof (spanUntil_parts dquote tl2) as [E2 F2].
  destruct (spanUntil dquote tl2) as [r tl3]. simpl in E2, F2.
  destruct (Str.nonEmpty r && Str.nonEmpty tl3) eqn:N; [| discriminate].
  intros [= <- <-]. apply andb_true_iff in N as [Nr _].
  apply nonEmpty_true in Nu, Nr.
  repeat split; trivial.
  - rewrite E1 in H. now apply hasChar_prefix in H.
  - assert (T : tailOf tl2 s).
    { apply dropPrefix_tail in D1, D2.
      eapply tailOf_trans; [exact D2 |].
      eapply tailOf_trans; [apply dropSpaces_tail |].
      eapply tailOf_trans; [exact D1 | exact T1]. }
    pose proof (hasChar_tail c _ _ T H) as H2.
    rewrite E2 in H2. now apply hasChar_prefix in H2.
Qed.

Lemma matchLink_sound (part url rel : string) :
  matchLink part = Some (url, rel) ->
  url <> "" /\ hasChar ">" url = false
  /\ rel <> "" /\ hasChar dquote rel = false
  /\ forall c, hasChar c part = false ->
               hasChar c url = false /\ hasChar c rel = false.
Proof.
  induction part as [| x r IH]; simpl; [discriminate |].
  assert (G : matchLink r = Some (url, rel) ->
              url <> "" /\ hasChar ">" url = false
              /\ rel <> "" /\ hasChar dquote rel = false
              /\ forall c, Ascii.eqb x c || hasChar c r = false ->
                           hasChar c url = false /\ hasChar c rel = false).
  { intros H. destruct (IH H) as (H1 & H2 & H3 & H4 & H5).
    repeat split; trivial; apply orb_false_iff in H0 as [_ H0];
      now apply H5. }
  destruct (Ascii.eqb x "<"); [| exact G].
  destruct (linkHere r) as [[u rl] |] eqn:E; [| exact G].
  intros [= -> ->]. destruct (linkHere_sound _ _ _ E) as (H1 & H2 & H3 & H4 & H5).
  repeat split; trivial; apply orb_false_iff in H as [_ H];
    now apply H5.
Qed.

Definition sound (e : string * string) : Prop :=
  snd e <> "" /\ hasChar ">" (snd e) = false /\ hasChar "," (snd e) = false
  /\ fst e <> "" /\ hasChar dquote (fst e) = false
  /\ hasChar "," (fst e) = false.

Lemma In_set_inv {V : Type} (m : list (string * V)) (k : string) (v : V)
      (e : string * V) :
  In e (JsMap.set k v m) -> e = (k, v) \/ In e m.
Proof.
  induction m as [| [k0 v0] r IH]; simpl.
  - intros [<- | []]. now left.
  - destruct (String.eqb k k0); simpl.
    + intros [<- | H]; [now left | right; now right].
    + intros [<- | H]; [right; now left |].
      destruct (IH H) as [-> | H']; [now left | right; now right].
Qed.

Lemma fold_record_sound (parts : list string) :
  Forall (fun part => hasChar "," part = false) parts ->
  forall m, Forall sound m -> Forall sound (fold_left record parts m).
Proof.
  induction 1 as [| part r Hp Hr IH]; intros m Hm; [exact Hm |].
  simpl. apply IH. unfold record.
  destruct (matchLink part) as [[url rel] |] eqn:E; [| exact Hm].
  destruct (String.eqb rel "__proto__"); [exact Hm |].
  destruct (matchLink_sound _ _ _ E) as (H1 & H2 & H3 & H4 & H5).
  destruct (H5 ","%char Hp) as [H6 H7].
  rewrite Forall_forall in *. intros e He.
  apply In_set_inv in He as [-> | He]; [| now apply Hm].
  repeat split; trivial.
Qed.

Lemma parseLinkHeader_sound (header : option string) :
  Forall sound (parseLinkHeader header).
Proof.
  unfold parseLinkHeader. destruct (negb (Js.truthy header)); [constructor |].
  apply fold_record_sound; [apply split_free | constructor].
Qed.

End LinkFacts.

(** X18. A [Link] header written the usual way, each link as its url in
    angle brackets, a semicolon, a blank and [rel=] with the relation in
    double quotes, the links separated by a comma and a blank, is read
    back by [parseLinkHeader] in the one property its callers read:
    provided no url holds a comma or a closing angle bracket and no
    relation a comma or a double quote, and none is empty, [links.next]
    is the url of the last link whose relation is [next], and is
    [undefined] when the header has no such link. *)
Theorem parseLinkHeader_reads_links (links : list (string * string)) :
  Forall writable links ->
  JsMap.get "next" (parseLinkHeader (Some (linksText links)))
  = lastRel "next" links.
Proof. apply parseLinkHeader_next. Qed.

(** X19. Whatever the header, a url that [parseLinkHeader] returns is
    not empty and holds no comma and no closing angle bracket, and its
    relation is not empty and holds no comma and no double quote: the
    header is cut at every comma first, so a link whose url has a comma
    in it is never returned whole. *)
Theorem parseLinkHeader_never_keeps_comma
    (header : option string) (rel url : string) :
  JsMap.get rel (parseLinkHeader header) = Some url ->
  url <> "" /\ hasChar "," url = false /\ hasChar ">" url = false
  /\ rel <> "" /\ hasChar "," rel = false /\ hasChar dquote rel = false.
Proof.
  intros H. apply get_Some_In in H.
  pose proof (parseLinkHeader_sound header) as Hs.
  rewrite Forall_forall in Hs.
  destruct (Hs _ H) as (H1 & H2 & H3 & H4 & H5 & H6). simpl in *.
  repeat split; trivial.
Qed.

(** ** The tags of a feed item *)

Section TagFacts.

Lemma app_assoc_s (a b c : string) :
  ((a ++ b) ++ c = a ++ b ++ c)%string.
Proof. induction a; simpl; congruence. Qed.

Lemma eqbCI_refl (c : ascii) : Str.eqbCI c c = true.
Proof. unfold Str.eqbCI. apply Ascii.eqb_refl. Qed.

Lemma eqbCI_lt (x : ascii) : Str.eqbCI "<" x = Ascii.eqb x "<".
Proof. destruct x as [[] [] [] [] [] [] [] []]; reflexivity. Qed.

Lemma dropPrefix_here (eq : ascii -> ascii -> bool) (p x : string) :
  (forall c, eq c c = true) ->
  Str.dropPrefix eq p (p ++ x)%string = Some x.
Proof.
  intros Hrefl. induction p as [| c p IH]; simpl; [reflexivity |].
  now rewrite Hrefl.
Qed.

Lemma splitAt_here (eq : ascii -> ascii -> bool) (p x : string) :
  (forall c, eq c c = true) ->
  Str.splitAt eq p (p ++ x)%string = Some ("", x).
Proof.
  intros Hrefl.
  destruct (p ++ x)%string eqn:E; cbn [Str.splitAt];
    rewrite <- E, (dropPrefix_here eq p x Hrefl); reflexivity.
Qed.

(** a text that has no [<] is skipped by the search of a tag *)
Lemma splitAt_tag_skip (p a s : string) :
  hasChar "<" a = false ->
  Str.splitAt Str.eqbCI (String "<" p) (a ++ s)%string
  = match Str.splitAt Str.eqbCI (String "<" p) s with
    | Some (b, r) => Some ((a ++ b)%string, r)
    | None => None
    end.
Proof.
  induction a as [| c a IH]; intros H.
  - simpl append. now destruct (Str.splitAt Str.eqbCI (String "<" p) s) as [[] |].
  - simpl in H. apply orb_false_iff in H as [Hc Ha].
    change (String c a ++ s)%string with (String c (a ++ s)).
    cbn [Str.splitAt Str.dropPrefix]. rewrite eqbCI_lt, Hc, (IH Ha).
    now destruct (Str.splitAt Str.eqbCI (String "<" p) s) as [[] |].
Qed.

Lemma matchBetween_tag (tag value rest : string) :
  hasChar "<" value = false ->
  matchBetween ("<" ++ tag ++ ">") ("</" ++ tag ++ ">")
               ("<" ++ tag ++ ">" ++ value ++ "</" ++ tag ++ ">" ++ rest)
  = Some (value, rest).
Proof.
  intros H. unfold matchBetween.
  replace ("<" ++ tag ++ ">" ++ value ++ "</" ++ tag ++ ">" ++ rest)%string
    with (("<" ++ tag ++ ">") ++ value ++ ("</" ++ tag ++ ">") ++ rest)%string.
  2:{ simpl. f_equal. rewrite !app_assoc_s. reflexivity. }
  rewrite (splitAt_here _ _ _ eqbCI_refl).
  change ("</" ++ tag ++ ">")%string with (String "<" ("/" ++ tag ++ ">")).
  rewrite (splitAt_tag_skip _ _ _ H).
  now rewrite (splitAt_here _ _ _ eqbCI_refl), app_empty_r.
Qed.

Lemma unwrapCdata_empty (n : nat) : unwrapCdata n "" = "".
Proof. now destruct n. Qed.

Lemma unwrapCdata_plain (n : nat) :
  forall s : string, hasChar "<" s = false -> unwrapCdata n s = s.
Proof.
  induction n as [| n IH]; intros s H; [reflexivity |].
  destruct s as [| c r]; [reflexivity |].
  simpl in H. apply orb_false_iff in H as [Hc Hr].
  cbn [unwrapCdata Str.dropPrefix append].
  rewrite Ascii.eqb_sym, Hc. now rewrite (IH r Hr).
Qed.

(** the end of a CDATA section is found where it is, when the text
    before it has no [>] *)
Lemma splitAt_cdata_end (a : string) :
  hasChar ">" a = false ->
  Str.splitAt Ascii.eqb "]]>" (a ++ "]]>")%string = Some (a, "").
Proof.
  induction a as [| x a IH]; intros H; [reflexivity |].
  simpl in H. apply orb_false_iff in H as [Hx Ha].
  change (String x a ++ "]]>")%string with (String x (a ++ "]]>")).
  cbn [Str.splitAt]. rewrite (IH Ha).
  assert (E : Str.dropPrefix Ascii.eqb "]]>" (String x (a ++ "]]>")) = None).
  { cbn [Str.dropPrefix]. destruct (Ascii.eqb "]" x); [| reflexivity].
    destruct a as [| y a]; [reflexivity |].
    cbn [append]. destruct (Ascii.eqb "]" y); [| reflexivity].
    simpl in Ha. apply orb_false_iff in Ha as [Hy Ha].
    destruct a as [| z a]; [reflexivity |].
    cbn [append]. simpl in Ha. apply orb_false_iff in Ha as [Hz _].
    now rewrite Ascii.eqb_sym, Hz. }
  now rewrite E.
Qed.

Definition cdata (value : string) : string :=
  ("<![CDATA[" ++ value ++ "]]>")%string.

Lemma normalizeCdata_plain (value : string) :
  hasChar "<" value = false -> normalizeCdata value = Str.trim value.
Proof.
  intros H. unfold normalizeCdata.
  destruct value as [| c r]; [reflexivity |]. cbn [Str.nonEmpty negb].
  now rewrite unwrapCdata_plain.
Qed.

Lemma unwrapCdata_cdata (n : nat) (value : string) :
  hasChar "<" value = false -> hasChar ">" value = false ->
  unwrapCdata (S n) (cdata value)
  = if noLineTerminator value then value else cdata value.
Proof.
  intros Hl Hg. unfold cdata.
  change ("<![CDATA[" ++ value ++ "]]>")%string
    with (String "<" ("![CDATA[" ++ value ++ "]]>")).
  cbn [unwrapCdata].
  change (Str.dropPrefix Ascii.eqb "<![CDATA["
            (String "<" ("![CDATA[" ++ value ++ "]]>")))
    with (Some (value ++ "]]>")%string).
  cbv beta iota. rewrite (splitAt_cdata_end _ Hg).
  destruct (noLineTerminator value).
  - now rewrite unwrapCdata_empty, app_empty_r.
  - rewrite unwrapCdata_plain; [reflexivity |].
    simpl. rewrite hasChar_app, Hl. reflexivity.
Qed.

Lemma normalizeCdata_cdata (value : string) :
  hasChar "<" value = false -> hasChar ">" value = false ->
  normalizeCdata (cdata value)
  = if noLineTerminator value then Str.trim value
    else Str.trim (cdata value).
Proof.
  intros Hl Hg. unfold normalizeCdata.
  change (Str.nonEmpty (cdata value)) with true. cbn [negb].
  change (String.length (cdata value))
    with (S (String.length ("![CDATA[" ++ value ++ "]]>"))).
  rewrite (unwrapCdata_cdata _ _ Hl Hg).
  now destruct (noLineTerminator value).
Qed.

Lemma matchBetween_cdata (tag value rest : string) :
  hasChar "<" value = false ->
  matchBetween ("<" ++ tag ++ ">") ("</" ++ tag ++ ">")
               ("<" ++ tag ++ ">" ++ cdata value ++ "</" ++ tag ++ ">" ++ rest)
  = Some (cdata value, rest).
Proof.
  intros H. unfold matchBetween.
  replace ("<" ++ tag ++ ">" ++ cdata value ++ "</" ++ tag ++ ">" ++ rest)%string
    with (("<" ++ tag ++ ">") ++ cdata value ++ ("</" ++ tag ++ ">") ++ rest)%string.
  2:{ simpl. f_equal. rewrite !app_assoc_s. reflexivity. }
  rewrite (splitAt_here _ _ _ eqbCI_refl).
  change ("</" ++ tag ++ ">")%string with (String "<" ("/" ++ tag ++ ">")).
  change (cdata value) with (String "<" ("![CDATA[" ++ value ++ "]]>")) at 1.
  change (String "<" ("![CDATA[" ++ value ++ "]]>")
          ++ String "<" ("/" ++ tag ++ ">") ++ rest)%string
    with (String "<" (("![CDATA[" ++ value ++ "]]>")
                      ++ String "<" ("/" ++ tag ++ ">") ++ rest))%string.
  cbn [Str.splitAt].
  change (Str.dropPrefix Str.eqbCI (String "<" ("/" ++ tag ++ ">"))
            (String "<" (("![CDATA[" ++ value ++ "]]>")
                         ++ String "<" ("/" ++ tag ++ ">") ++ rest)))
    with (@None string).
  rewrite splitAt_tag_skip.
  2:{ simpl. rewrite hasChar_app, H. reflexivity. }
  now rewrite (splitAt_here _ _ _ eqbCI_refl), app_empty_r.
Qed.

End TagFacts.

(** X20. [extractTag] reads back what a feed writes between the tags of
    an item: for a text with no [<] in it, written plainly between the
    opening and the closing tag, it returns the text trimmed; written as
    a CDATA section (the text having no [>] either) it returns the text
    trimmed as well when the text is on one line, and the whole section
    with its markers when the text has a line break in it, the pattern
    of [normalizeCdata] not matching over a line break.  What follows
    the closing tag does not matter. *)
Theorem extractTag_reads_back (tag value rest : string) :
  In tag ["guid"; "link"; "pubDate"] ->
  hasChar "<" value = false ->
  extractTag tag ("<" ++ tag ++ ">" ++ value ++ "</" ++ tag ++ ">" ++ rest)
  = Str.trim value
  /\ (hasChar ">" value = false ->
      extractTag tag
        ("<" ++ tag ++ ">" ++ cdata value ++ "</" ++ tag ++ ">" ++ rest)
      = if noLineTerminator value then Str.trim value
        else Str.trim (cdata value)).
Proof.
  intros _ Hl. unfold extractTag. split.
  - rewrite (matchBetween_tag tag value rest Hl).
    now apply normalizeCdata_plain.
  - intros Hg. rewrite (matchBetween_cdata tag value rest Hl).
    now apply normalizeCdata_cdata.
Qed.

(** ** The dashboard shows what the service counted *)

Section DashboardFacts.
Context {D : DateModel} {L : DateLaws D}.

Definition entryOf (b : HourlyBucket) : string * nat := (hour b, count b).

Lemma hourMap_entries (hours : list HourlyBucket) :
  NoDup (map hour hours) -> hourMap hours = map entryOf hours.
Proof.
  unfold hourMap.
  assert (G : forall m,
             NoDup (JsMap.keys m ++ map hour hours) ->
             fold_left (fun m entry => JsMap.set (hour entry) (count entry) m)
                       hours m
             = m ++ map entryOf hours).
  { induction hours as [| b r IH]; intros m Hn; simpl.
    - now rewrite app_nil_r.
    - rewrite set_new.
      + rewrite IH.
        * now rewrite <- app_assoc.
        * unfold JsMap.keys in *. rewrite map_app. simpl.
          rewrite <- app_assoc. exact Hn.
      + apply get_None_notin. intros Hin. simpl in Hn.
        apply NoDup_remove_2 in Hn. apply Hn. apply in_or_app. now left. }
  intros Hn. now rewrite (G [] Hn).
Qed.

Lemma bucketOf_entryOf (e : string * nat) : entryOf (bucketOf e) = e.
Proof. now destruct e. Qed.

(** the buckets of the service, as the dashboard's map has them *)
Lemma hourMap_computeHourly (posts : list Post) (buckets : list HourlyBucket)
      (h : Z) :
  Forall storable posts -> validTime h ->
  computeHourly posts = Js.Ok buckets ->
  match JsMap.get (to_iso h) (hourMap buckets) with
  | Some n => n
  | None => 0
  end = countAt h (normalizePosts posts).
Proof.
  intros Hs Hh Hc.
  assert (Hi : forall p, In p posts -> instant p <> None).
  { intros p Hp. rewrite Forall_forall in Hs. apply (Hs p Hp). }
  assert (Hn : forall p, In p (normalizePosts posts) -> instant p <> None).
  { intros p Hp. pose proof (normalizePosts_storable posts Hs) as Hf.
    rewrite Forall_forall in Hf. apply (Hf p Hp). }
  rewrite (computeHourly_valid posts Hi) in Hc. injection Hc as <-.
  set (ks := map hourKeyOf (normalizePosts posts)).
  set (m := fold_left bump ks []).
  assert (Hk : NoDup (JsMap.keys m)) by (apply NoDup_fold_bump; constructor).
  set (bs := jsSort laterBucket (map bucketOf m)).
  assert (Hp : Permutation (map entryOf bs) m).
  { unfold bs. rewrite (Permutation_map entryOf (jsSort_perm laterBucket _)).
    rewrite map_map. erewrite map_ext; [rewrite map_id; reflexivity |].
    apply bucketOf_entryOf. }
  assert (Hb : NoDup (map hour bs)).
  { replace (map hour bs) with (JsMap.keys (map entryOf bs))
      by (unfold JsMap.keys; now rewrite map_map).
    eapply Permutation_NoDup; [| exact Hk].
    unfold JsMap.keys. apply Permutation_map. now symmetry. }
  rewrite (hourMap_entries bs Hb).
  assert (Hkeys : NoDup (JsMap.keys (map entryOf bs))).
  { unfold JsMap.keys. rewrite map_map. exact Hb. }
  rewrite <- (occurrences_hourKey h _ Hh Hn). fold ks.
  destruct (JsMap.get (to_iso h) (map entryOf bs)) as [n |] eqn:E.
  - apply get_Some_In in E. apply (Permutation_in _ Hp) in E.
    now apply bucket_entry in E.
  - destruct (occurrences (to_iso h) ks) as [| c] eqn:Eo; [reflexivity |].
    assert (Hin : In (to_iso h, S c) m)
      by (apply bucket_entry; split; [now rewrite Eo | discriminate]).
    apply (Permutation_in _ (Permutation_sym Hp)) in Hin.
    apply (In_get_Some _ _ _ Hkeys) in Hin. congruence.
Qed.

(** the hours of [getLastHours] *)
Definition hourBefore (current : Z) (i : nat) : Z :=
  (JsDate.setUTCMinutes0 current - Z.of_nat i * JsDate.msPerHour)%Z.

Lemma hourBefore_whole (current : Z) (i : nat) :
  JsDate.setUTCMinutes0 (hourBefore current i) = hourBefore current i.
Proof.
  unfold hourBefore. rewrite !setUTCMinutes0_floor.
  unfold JsDate.msPerHour.
  replace (3600000 * (current / 3600000) - Z.of_nat i * 3600000)%Z
    with ((current / 3600000 - Z.of_nat i) * 3600000)%Z by lia.
  rewrite Z.div_mul by lia. lia.
Qed.

Lemma hourBefore_valid (current : Z) (i : nat) :
  validTime current ->
  (- maxTime <= current - Z.of_nat i * JsDate.msPerHour)%Z ->
  validTime (hourBefore current i).
Proof.
  unfold hourBefore. intros Hv Hlow.
  pose proof (setUTCMinutes0_valid current Hv) as [H1 H2].
  rewrite setUTCMinutes0_floor in *.
  unfold validTime, maxTime, JsDate.msPerHour in *.
  Z.div_mod_to_equations. lia.
Qed.

Lemma timeClip_valid (t : Z) : validTime t -> timeClip t = Some t.
Proof.
  unfold timeClip, validTime. intros H.
  destruct (Z.abs t <=? maxTime)%Z eqn:E; [reflexivity |].
  apply Z.leb_gt in E. unfold maxTime in *. lia.
Qed.

Lemma recent_computeHourly (posts : list Post) (buckets : list HourlyBucket)
      (current : Z) :
  Forall storable posts ->
  computeHourly posts = Js.Ok buckets ->
  validTime current ->
  (- maxTime <= current - 23 * JsDate.msPerHour)%Z ->
  recent buckets current
  = Js.Ok (map (fun i =>
                  mkBucket (to_iso (hourBefore current i))
                           (countAt (hourBefore current i)
                                    (normalizePosts posts)))
               (rev (seq 0 24))).
Proof.
  intros Hs Hc Hv Hlow. unfold recent, getLastHours. cbv zeta.
  assert (Hall : Forall (fun i => (i <= 23)%nat) (rev (seq 0 24))).
  { apply Forall_forall. intros i Hi. apply in_rev in Hi.
    apply in_seq in Hi. lia. }
  induction Hall as [| i r Hi Hr IH]; [reflexivity |].
  cbn [map Js.mapM]. rewrite IH. clear IH.
  assert (Hh : validTime (hourBefore current i)).
  { apply hourBefore_valid; [exact Hv |].
    unfold JsDate.msPerHour in *. lia. }
  replace (JsDate.setUTCMinutes0 current - Z.of_nat i * 60 * 60 * 1000)%Z
    with (hourBefore current i)
    by (unfold hourBefore, JsDate.msPerHour; lia).
  rewrite (timeClip_valid _ Hh). unfold toUtcHourKey. cbv zeta.
  cbn [option_map JsDate.toISOString Js.bind].
  rewrite hourBefore_whole.
  now rewrite (hourMap_computeHourly posts buckets _ Hs Hh Hc).
Qed.

(** the sum of the counts under the keys that [keep] accepts *)
Definition kept_sum (keep : string -> bool) (m : list (string * nat)) : nat :=
  list_sum (map snd (filter (fun e => keep (fst e)) m)).

Lemma kept_sum_set_new keep (m : list (string * nat)) (k : string) (n : nat) :
  JsMap.get k m = None ->
  kept_sum keep (JsMap.set k n m)
  = kept_sum keep m + (if keep k then n else 0).
Proof.
  intros H. rewrite (set_new _ _ _ H). unfold kept_sum.
  rewrite filter_app, map_app, list_sum_app. simpl.
  destruct (keep k); simpl; lia.
Qed.

Lemma kept_sum_set_present keep (m : list (string * nat)) (k : string)
      (n n0 : nat) :
  JsMap.get k m = Some n0 ->
  kept_sum keep (JsMap.set k n m) + (if keep k then n0 else 0)
  = kept_sum keep m + (if keep k then n else 0).
Proof.
  unfold kept_sum. induction m as [| [k1 v1] r IH]; simpl; [discriminate |].
  destruct (String.eqb_spec k k1) as [-> | Hk].
  - intros [= ->]. simpl. destruct (keep k1); simpl; lia.
  - intros H. specialize (IH H). simpl.
    destruct (keep k1); simpl; lia.
Qed.

Lemma kept_sum_bump keep (m : list (string * nat)) (k : string) :
  kept_sum keep (bump m k) = kept_sum keep m + (if keep k then 1 else 0).
Proof.
  unfold bump. destruct (JsMap.get k m) as [n0 |] eqn:E.
  - pose proof (kept_sum_set_present keep m k (n0 + 1) n0 E).
    destruct (keep k); lia.
  - rewrite (kept_sum_set_new keep m k _ E). now destruct (keep k).
Qed.

Lemma kept_sum_fold_bump keep (ks : list string) :
  forall m,
    kept_sum keep (fold_left bump ks m)
    = kept_sum keep m + List.length (filter keep ks).
Proof.
  induction ks as [| k r IH]; intros m; simpl; [lia |].
  rewrite IH, kept_sum_bump. destruct (keep k); simpl; lia.
Qed.

Definition inPeriod (start finish : Z) (k : string) : bool :=
  match date_parse k with
  | Some t => (start <=? t)%Z && (t <=? finish)%Z
  | None => false
  end.

Lemma updatePostCounter_sum (hours : list HourlyBucket) (start finish : Z) :
  updatePostCounter hours start finish
  = kept_sum (inPeriod start finish) (map entryOf hours).
Proof.
  unfold updatePostCounter, kept_sum.
  assert (G : forall acc,
             fold_left
               (fun sum entry =>
                  match date_parse (hour entry) with
                  | Some entryTime =>
                      if (start <=? entryTime)%Z && (entryTime <=? finish)%Z
                      then sum + count entry
                      else sum
                  | None => sum
                  end) hours acc
             = acc + list_sum
                       (map snd (filter (fun e => inPeriod start finish (fst e))
                                        (map entryOf hours)))).
  { induction hours as [| b r IH]; intros acc; simpl; [lia |].
    rewrite IH. unfold inPeriod at 2. simpl.
    destruct (date_parse (hour b)) as [t |]; [| lia].
    destruct ((start <=? t)%Z && (t <=? finish)%Z); simpl; lia. }
  apply G.
Qed.

Lemma kept_sum_perm keep (m m' : list (string * nat)) :
  Permutation m m' -> kept_sum keep m = kept_sum keep m'.
Proof.
  intros H. unfold kept_sum. apply list_sum_perm, Permutation_map.
  induction H; simpl.
  - constructor.
  - destruct (keep (fst x)); [now constructor | assumption].
  - destruct (keep (fst x)), (keep (fst y)); try reflexivity.
    apply perm_swap.
  - etransitivity; eassumption.
Qed.

Lemma updatePostCounter_computeHourly
      (posts : list Post) (buckets : list HourlyBucket) (start finish : Z) :
  Forall storable posts ->
  computeHourly posts = Js.Ok buckets ->
  updatePostCounter buckets start finish
  = List.length
      (filter (fun r => match hourOf r with
                        | Some h => (start <=? h)%Z && (h <=? finish)%Z
                        | None => false
                        end)
              (normalizePosts posts)).
Proof.
  intros Hs Hc.
  assert (Hi : forall p, In p posts -> instant p <> None).
  { intros p Hp. rewrite Forall_forall in Hs. apply (Hs p Hp). }
  pose proof (normalizePosts_storable posts Hs) as Hf.
  rewrite (computeHourly_valid posts Hi) in Hc. injection Hc as <-.
  rewrite updatePostCounter_sum.
  rewrite (kept_sum_perm _ _ _
             (Permutation_map entryOf (jsSort_perm laterBucket _))).
  rewrite map_map.
  erewrite (map_ext (fun x => entryOf (bucketOf x)) (fun x => x))
    by apply bucketOf_entryOf.
  rewrite map_id, kept_sum_fold_bump. simpl.
  induction Hf as [| r l Hr Hl IH]; [reflexivity |].
  destruct Hr as [_ Hr]. destruct (hourOf_valid r Hr) as (h & Eh & Hv).
  cbn [map filter]. unfold hourKeyOf at 1. rewrite Eh.
  unfold inPeriod at 1. rewrite (parse_to_iso h Hv).
  destruct ((start <=? h)%Z && (h <=? finish)%Z); cbn [List.length];
    now rewrite IH.
Qed.

End DashboardFacts.


(** X22. The counter of the dashboard counts posts: for posts that all
    have a canonical id and a timestamp that parses, the total that
    [updatePostCounter] computes from the buckets of [computeHourly] is
    the number of normalized records whose hour, the timestamp with its
    minutes, seconds and milliseconds set to zero, lies between the start
    and the end of the counting period, both included. *)
Theorem updatePostCounter_counts_posts
    {D : DateModel} {L : DateLaws D}
    (posts : list Post) (buckets : list HourlyBucket) (start finish : Z) :
  Forall storable posts ->
  computeHourly posts = Js.Ok buckets ->
  updatePostCounter buckets start finish
  = List.length
      (filter (fun r => match hourOf r with
                        | Some h => (start <=? h)%Z && (h <=? finish)%Z
                        | None => false
                        end)
              (normalizePosts posts)).
Proof. apply updatePostCounter_computeHourly. Qed.

(** ** The export tool: the text of a status *)

Section StripFacts.

(** no [<] with a [>] somewhere after it *)
Fixpoint tagFree (s : string) : bool :=
  match s with
  | EmptyString => true
  | String c r => (negb (Ascii.eqb c "<") || negb (hasChar ">" r)) && tagFree r
  end.

Definition startsSpace (s : string) : bool :=
  match s with
  | String c _ => Str.isSpace c
  | EmptyString => false
  end.

(** white space is a blank, and no two are next to each other *)
Fixpoint spaced (s : string) : bool :=
  match s with
  | EmptyString => true
  | String c r =>
      (if Str.isSpace c then Ascii.eqb c " " && negb (startsSpace r)
       else true)
      && spaced r
  end.

Lemma space_not (c x : ascii) :
  Str.isSpace x = false -> Str.isSpace c = true -> Ascii.eqb c x = false.
Proof.
  intros Hx Hc. destruct (Ascii.eqb_spec c x) as [-> |]; congruence.
Qed.

Lemma spanUntil_none (c : ascii) (s : string) :
  hasChar c s = false -> spanUntil c s = (s, "").
Proof.
  induction s as [| x r IH]; simpl; [reflexivity |]. intros H.
  apply orb_false_iff in H as [Hx Hr]. now rewrite Hx, (IH Hr).
Qed.

Lemma spanUntil_found (c : ascii) (s : string) (x : ascii) (rest : string) :
  snd (spanUntil c s) = String x rest ->
  hasChar c s = true /\ String.length rest < String.length s.
Proof.
  induction s as [| y r IH]; simpl; [discriminate |].
  destruct (Ascii.eqb y c) eqn:E; simpl.
  - intros [= _ <-]. split; [reflexivity | lia].
  - destruct (spanUntil c r) as [a b]. simpl in *. intros H.
    destruct (IH H) as [H1 H2]. split; [exact H1 | lia].
Qed.

Lemma replaceTags_gt (n : nat) :
  forall s : string,
    hasChar ">" s = false -> hasChar ">" (replaceTags n s) = false.
Proof.
  induction n as [| n IH]; intros s H; [exact H |].
  destruct s as [| c r]; [reflexivity |].
  simpl in H. apply orb_false_iff in H as [Hc Hr].
  cbn [replaceTags]. rewrite (spanUntil_none _ _ Hr). cbn [snd].
  destruct (Ascii.eqb c "<"); simpl; now rewrite Hc, (IH r Hr).
Qed.

Lemma replaceTags_tagFree (n : nat) :
  forall s : string,
    String.length s <= n -> tagFree (replaceTags n s) = true.
Proof.
  induction n as [| n IH]; intros s Hlen.
  - destruct s; [reflexivity | simpl in Hlen; lia].
  - destruct s as [| c r]; [reflexivity |]. simpl in Hlen.
    cbn [replaceTags]. destruct (Ascii.eqb c "<") eqn:Ec.
    + destruct (snd (spanUntil ">" r)) as [| x rest] eqn:Es.
      * assert (Hr : hasChar ">" r = false).
        { destruct (spanUntil_parts ">" r) as [E F].
          rewrite Es, app_empty_r in E. now rewrite E. }
        cbn [tagFree]. rewrite (replaceTags_gt n r Hr).
        rewrite IH by lia. now rewrite orb_true_r.
      * destruct (spanUntil_found _ _ _ _ Es) as [_ Hl].
        cbn [tagFree]. rewrite IH by lia. reflexivity.
    + cbn [tagFree]. rewrite Ec, IH by lia. reflexivity.
Qed.

Lemma replaceTags_fixed (n : nat) :
  forall s : string, tagFree s = true -> replaceTags n s = s.
Proof.
  induction n as [| n IH]; intros s H; [reflexivity |].
  destruct s as [| c r]; [reflexivity |].
  simpl in H. apply andb_true_iff in H as [Hc Hr].
  cbn [replaceTags]. rewrite (IH r Hr).
  destruct (Ascii.eqb c "<"); [| reflexivity].
  simpl in Hc. apply negb_true_iff in Hc.
  now rewrite (spanUntil_none _ _ Hc).
Qed.

Lemma hasChar_collapse (x : ascii) (s : string) :
  Str.isSpace x = false ->
  hasChar x (collapseSpaces s) = hasChar x s.
Proof.
  intros Hx. induction s as [| c r IH]; [reflexivity |].
  cbn [collapseSpaces hasChar]. destruct (Str.isSpace c) eqn:Ec.
  - rewrite (space_not c x Hx Ec). cbn [orb].
    assert (E : Ascii.eqb " " x = false) by now apply space_not.
    destruct r as [| c2 r2]; [cbn [hasChar]; now rewrite E |].
    destruct (Str.isSpace c2); [exact IH |].
    cbn [hasChar]. rewrite IH. now rewrite E.
  - cbn [hasChar]. now rewrite IH.
Qed.

Lemma collapseSpaces_tagFree (s : string) :
  tagFree s = true -> tagFree (collapseSpaces s) = true.
Proof.
  induction s as [| c r IH]; [reflexivity |].
  cbn [tagFree collapseSpaces]. intros H.
  apply andb_true_iff in H as [Hc Hr]. specialize (IH Hr).
  destruct (Str.isSpace c) eqn:Ec.
  - destruct r as [| c2 r2]; [reflexivity |].
    destruct (Str.isSpace c2); [exact IH |].
    cbn [tagFree]. now rewrite IH.
  - cbn [tagFree]. rewrite hasChar_collapse by reflexivity.
    now rewrite Hc, IH.
Qed.

Lemma collapseSpaces_starts (s : string) :
  startsSpace s = false -> startsSpace (collapseSpaces s) = false.
Proof.
  destruct s as [| c r]; [reflexivity |]. simpl. intros H. now rewrite H.
Qed.

Lemma collapseSpaces_spaced (s : string) : spaced (collapseSpaces s) = true.
Proof.
  induction s as [| c r IH]; [reflexivity |].
  cbn [collapseSpaces]. destruct (Str.isSpace c) eqn:Ec.
  - destruct r as [| c2 r2]; [reflexivity |].
    destruct (Str.isSpace c2) eqn:E2; [exact IH |].
    cbn [spaced]. change (Str.isSpace " ") with true. cbv iota.
    rewrite IH, collapseSpaces_starts by exact E2. reflexivity.
  - cbn [spaced]. now rewrite Ec, IH.
Qed.

Lemma collapseSpaces_fixed (s : string) :
  spaced s = true -> collapseSpaces s = s.
Proof.
  induction s as [| c r IH]; [reflexivity |].
  cbn [spaced collapseSpaces]. intros H.
  apply andb_true_iff in H as [Hc Hr]. rewrite (IH Hr).
  destruct (Str.isSpace c); [| reflexivity].
  apply andb_true_iff in Hc as [E Hs]. apply Ascii.eqb_eq in E. subst c.
  apply negb_true_iff in Hs. destruct r as [| c2 r2]; [reflexivity |].
  simpl in Hs. now rewrite Hs.
Qed.

(** [trim] *)
Lemma allSpaces_hasChar (x : ascii) (s : string) :
  Str.isSpace x = false -> Str.allSpaces s = true -> hasChar x s = false.
Proof.
  intros Hx. induction s as [| c r IH]; simpl; [reflexivity |]. intros H.
  apply andb_true_iff in H as [Hc Hr].
  now rewrite (space_not c x Hx Hc), (IH Hr).
Qed.

Lemma hasChar_dropTrailing (x : ascii) (s : string) :
  Str.isSpace x = false ->
  hasChar x (Str.dropTrailingSpaces s) = hasChar x s.
Proof.
  intros Hx. induction s as [| c r IH]; [reflexivity |].
  cbn [Str.dropTrailingSpaces].
  destruct (Str.allSpaces (String c r)) eqn:E.
  - now rewrite (allSpaces_hasChar x _ Hx E).
  - simpl. now rewrite IH.
Qed.

Lemma dropTrailing_tagFree (s : string) :
  tagFree s = true -> tagFree (Str.dropTrailingSpaces s) = true.
Proof.
  induction s as [| c r IH]; [reflexivity |].
  cbn [Str.dropTrailingSpaces tagFree]. intros H.
  apply andb_true_iff in H as [Hc Hr].
  destruct (Str.allSpaces (String c r)); [reflexivity |].
  cbn [tagFree]. rewrite hasChar_dropTrailing by reflexivity.
  now rewrite Hc, (IH Hr).
Qed.

Lemma dropSpaces_tagFree (s : string) :
  tagFree s = true -> tagFree (Str.dropSpaces s) = true.
Proof.
  induction s as [| c r IH]; [reflexivity |].
  cbn [Str.dropSpaces]. intros H. destruct (Str.isSpace c); [| exact H].
  simpl in H. apply andb_true_iff in H as [_ Hr]. auto.
Qed.

Lemma dropSpaces_spaced (s : string) :
  spaced s = true -> spaced (Str.dropSpaces s) = true.
Proof.
  induction s as [| c r IH]; [reflexivity |].
  cbn [Str.dropSpaces]. intros H. destruct (Str.isSpace c) eqn:E; [| exact H].
  cbn [spaced] in H. apply andb_true_iff in H as [_ Hr]. auto.
Qed.

Lemma dropSpaces_starts (s : string) : startsSpace (Str.dropSpaces s) = false.
Proof.
  induction s as [| c r IH]; [reflexivity |].
  cbn [Str.dropSpaces]. destruct (Str.isSpace c) eqn:E; [exact IH |].
  simpl. exact E.
Qed.

Lemma dropTrailing_starts (s : string) :
  startsSpace s = false -> startsSpace (Str.dropTrailingSpaces s) = false.
Proof.
  destruct s as [| c r]; [reflexivity |]. cbn [Str.dropTrailingSpaces].
  destruct (Str.allSpaces (String c r)); [reflexivity |]. trivial.
Qed.

Lemma dropTrailing_spaced (s : string) :
  spaced s = true -> spaced (Str.dropTrailingSpaces s) = true.
Proof.
  induction s as [| c r IH]; [reflexivity |].
  cbn [Str.dropTrailingSpaces spaced]. intros H.
  apply andb_true_iff in H as [Hc Hr].
  destruct (Str.allSpaces (String c r)); [reflexivity |].
  cbn [spaced]. rewrite (IH Hr), andb_true_r.
  destruct (Str.isSpace c); [| reflexivity].
  apply andb_true_iff in Hc as [E Hs]. rewrite E. cbn [andb].
  apply negb_true_iff in Hs. now rewrite dropTrailing_starts.
Qed.

Lemma dropTrailing_allSpaces (s : string) :
  Str.allSpaces s = false ->
  Str.allSpaces (Str.dropTrailingSpaces s) = false.
Proof.
  induction s as [| c r IH]; [discriminate |].
  intros H. cbn [Str.dropTrailingSpaces]. rewrite H.
  cbn [Str.allSpaces] in *.
  destruct (Str.isSpace c); [| reflexivity]. cbn [andb] in *. auto.
Qed.

Lemma dropTrailing_twice (s : string) :
  Str.dropTrailingSpaces (Str.dropTrailingSpaces s)
  = Str.dropTrailingSpaces s.
Proof.
  induction s as [| c r IH]; [reflexivity |].
  cbn [Str.dropTrailingSpaces].
  destruct (Str.allSpaces (String c r)) eqn:E; [reflexivity |].
  cbn [Str.dropTrailingSpaces].
  assert (E' : Str.allSpaces (String c (Str.dropTrailingSpaces r)) = false).
  { cbn [Str.allSpaces] in *. destruct (Str.isSpace c); [| reflexivity].
    cbn [andb] in *. now apply dropTrailing_allSpaces. }
  now rewrite E', IH.
Qed.

Lemma dropSpaces_fixed (s : string) :
  startsSpace s = false -> Str.dropSpaces s = s.
Proof.
  destruct s as [| c r]; [reflexivity |]. simpl. now intros ->.
Qed.

Lemma trim_twice (s : string) : Str.trim (Str.trim s) = Str.trim s.
Proof.
  unfold Str.trim.
  rewrite (dropSpaces_fixed (Str.dropTrailingSpaces (Str.dropSpaces s))).
  - apply dropTrailing_twice.
  - apply dropTrailing_starts, dropSpaces_starts.
Qed.

(** a text with no tag and no white space but single blanks inside it *)
Definition plainText (s : string) : Prop :=
  tagFree s = true /\ spaced s = true /\ Str.trim s = s.

Lemma stripHtml_plainText (html : string) : plainText (stripHtml html).
Proof.
  unfold stripHtml. destruct (negb (Str.nonEmpty html)).
  - repeat split.
  - set (t := collapseSpaces (replaceTags (String.length html) html)).
    assert (Ht : tagFree t = true)
      by (apply collapseSpaces_tagFree, replaceTags_tagFree; lia).
    assert (Hs : spaced t = true) by apply collapseSpaces_spaced.
    split; [| split].
    + unfold Str.trim. now apply dropTrailing_tagFree, dropSpaces_tagFree.
    + unfold Str.trim. now apply dropTrailing_spaced, dropSpaces_spaced.
    + apply trim_twice.
Qed.

Lemma stripHtml_fixed (s : string) : plainText s -> stripHtml s = s.
Proof.
  intros (Ht & Hs & Hr). unfold stripHtml.
  destruct s as [| c r]; [reflexivity |]. cbn [Str.nonEmpty negb].
  now rewrite (replaceTags_fixed _ _ Ht), (collapseSpaces_fixed _ Hs).
Qed.

End StripFacts.

(** X23. The text that [stripHtml] of the export tool returns has no
    tag left, no [<] with a [>] somewhere after it; its only white space
    is single blanks, none of them at either end; and stripping it again
    changes nothing. *)
Theorem stripHtml_leaves_plain_text (html : string) :
  tagFree (stripHtml html) = true
  /\ spaced (stripHtml html) = true
  /\ Str.trim (stripHtml html) = stripHtml html
  /\ stripHtml (stripHtml html) = stripHtml html.
Proof.
  pose proof (stripHtml_plainText html) as H.
  pose proof (stripHtml_fixed _ H) as F.
  destruct H as (H1 & H2 & H3). repeat split; assumption.
Qed.

(** ** The earlier service *)

Section LegacyFacts.
Context {D : DateModel}.

Lemma sameId_eq (a b : option string) : Legacy.sameId a b = true <-> a = b.
Proof.
  destruct a as [x |], b as [y |]; simpl; split; try congruence;
    try discriminate.
  - intros H. apply String.eqb_eq in H. now subst.
  - intros [= ->]. apply String.eqb_refl.
Qed.

Lemma has_In (seen : list (option string)) (v : option string) :
  Legacy.has seen v = true <-> In v seen.
Proof.
  unfold Legacy.has. rewrite existsb_exists. split.
  - intros [x [Hx E]]. apply sameId_eq in E. now subst.
  - intros H. exists v. split; [exact H | now apply sameId_eq].
Qed.

(** the set [seen] holds the ids of [merged] *)
Definition tracksIds (seen : list (option string)) (merged : list Post)
  : Prop :=
  forall v, In v seen <-> In v (map id merged).

Lemma tracksIds_add (seen : list (option string)) (merged : list Post)
      (post : Post) :
  tracksIds seen merged -> tracksIds (seen ++ [id post]) (merged ++ [post]).
Proof.
  intros H v. rewrite map_app, !in_app_iff, (H v). simpl. tauto.
Qed.

Lemma addUnseen_spec (incoming : list Post) :
  forall (seen : list (option string)) (merged : list Post),
    tracksIds seen merged ->
    exists fresh,
      Legacy.addUnseen incoming seen merged = merged ++ fresh
      /\ (forall p, In p fresh -> In p incoming)
      /\ (forall p, In p fresh -> ~ In (id p) (map id merged))
      /\ NoDup (map id fresh)
      /\ (forall p, In p incoming ->
            In (id p) (map id (merged ++ fresh))).
Proof.
  induction incoming as [| post r IH]; intros seen merged Ht.
  - exists []. rewrite app_nil_r. repeat split; simpl; try tauto.
    constructor.
  - cbn [Legacy.addUnseen].
    destruct (Legacy.has seen (id post)) eqn:E; cbn [negb].
    + destruct (IH seen merged Ht) as (fresh & E1 & H1 & H2 & H3 & H4).
      exists fresh. split; [exact E1 |]. split; [| split; [| split]].
      * intros p Hp. right. now apply H1.
      * exact H2.
      * exact H3.
      * intros p [<- | Hp]; [| now apply H4].
        apply has_In, Ht in E. rewrite map_app. apply in_or_app. now left.
    + assert (Hnew : ~ In (id post) (map id merged)).
      { intros Hin. apply Ht, has_In in Hin. congruence. }
      destruct (IH _ _ (tracksIds_add seen merged post Ht))
        as (fresh & E1 & H1 & H2 & H3 & H4).
      exists (post :: fresh). rewrite E1, <- app_assoc.
      split; [reflexivity |]. split; [| split; [| split]].
      * intros p [<- | Hp]; [now left | right; now apply H1].
      * intros p [<- | Hp]; [exact Hnew |].
        intros Hin. apply (H2 p Hp). rewrite map_app.
        apply in_or_app. now left.
      * simpl. constructor; [| exact H3].
        intros Hin. apply in_map_iff in Hin as (q & Eq & Hq).
        apply (H2 q Hq). rewrite Eq, map_app. apply in_or_app.
        right. now left.
      * intros p Hp. rewrite <- app_assoc in H4. simpl in H4.
        destruct Hp as [<- | Hp]; [| now apply H4].
        rewrite map_app. apply in_or_app. right. now left.
Qed.

Lemma addUnseen_known (incoming : list Post) :
  forall (seen : list (option string)) (merged : list Post),
    (forall p, In p incoming -> In (id p) seen) ->
    Legacy.addUnseen incoming seen merged = merged.
Proof.
  induction incoming as [| post r IH]; intros seen merged H;
    [reflexivity |].
  cbn [Legacy.addUnseen].
  assert (E : Legacy.has seen (id post) = true)
    by (apply has_In, H; now left).
  rewrite E. cbn [negb]. apply IH. intros p Hp. apply H. now right.
Qed.

Lemma mergeIncoming_spec (posts incoming : list Post) :
  exists fresh,
    Permutation (Legacy.mergeIncoming posts incoming) (posts ++ fresh)
    /\ (forall p, In p fresh -> In p incoming)
    /\ (forall p, In p fresh -> ~ In (id p) (map id posts))
    /\ NoDup (map id fresh)
    /\ (forall p, In p incoming ->
          In (id p) (map id (Legacy.mergeIncoming posts incoming))).
Proof.
  unfold Legacy.mergeIncoming. cbv zeta.
  destruct (addUnseen_spec incoming (map id posts) posts)
    as (fresh & E & H1 & H2 & H3 & H4); [intros v; tauto |].
  exists fresh. rewrite E. split; [apply jsSort_perm |].
  repeat split; trivial.
  intros p Hp. specialize (H4 p Hp).
  eapply Permutation_in; [| exact H4].
  apply Permutation_map. symmetry. apply jsSort_perm.
Qed.

Lemma mergeIncoming_again (posts incoming : list Post) :
  Legacy.mergeIncoming (Legacy.mergeIncoming posts incoming) incoming
  = Legacy.mergeIncoming posts incoming.
Proof.
  destruct (mergeIncoming_spec posts incoming) as (fresh & _ & _ & _ & _ & H).
  unfold Legacy.mergeIncoming at 1. cbv zeta.
  rewrite addUnseen_known by exact H.
  unfold Legacy.mergeIncoming. cbv zeta.
  apply jsSort_idempotent. apply laterPost_asym.
Qed.

Lemma mergeIncoming_NoDup (posts incoming : list Post) :
  NoDup (map id posts) ->
  NoDup (map id (Legacy.mergeIncoming posts incoming)).
Proof.
  intros Hn.
  destruct (mergeIncoming_spec posts incoming)
    as (fresh & Hp & _ & H2 & H3 & _).
  eapply Permutation_NoDup;
    [apply Permutation_map; symmetry; exact Hp |].
  rewrite map_app. apply NoDup_app; trivial.
  intros v Hv Hf. apply in_map_iff in Hf as (q & <- & Hq).
  now apply (H2 q Hq).
Qed.

(** the poll *)
Lemma legacy_pollFeed_disk (FEED_URL : string) (w : World) :
  requested (Legacy.pollFeed FEED_URL w) = requested w ++ [FEED_URL]
  /\ (disk (Legacy.pollFeed FEED_URL w) = disk w
      \/ exists r incoming,
           hd_error (net w) = Some (Reply r)
           /\ parseFeed (resp_body r) = Js.Ok incoming
           /\ incoming <> []
           /\ disk (Legacy.pollFeed FEED_URL w)
              = Document (Some (Legacy.mergeIncoming (stored (disk w))
                                                     incoming))).
Proof.
  unfold Legacy.pollFeed, Legacy.pollBody, bindM, fetch, throw, lift, ret.
  destruct (net w) as [| [| r] rest]; simpl; try (split; [reflexivity | now left]).
  destruct (negb (resp_ok r)); simpl; [split; [reflexivity | now left] |].
  destruct (parseFeed (resp_body r)) as [incoming | e] eqn:Ep; simpl;
    [| split; [reflexivity | now left]].
  destruct incoming as [| i incoming]; simpl;
    [split; [reflexivity | now left] |].
  unfold loadData, saveData. simpl.
  destruct (disk w) as [| e | [posts |]] eqn:Ed; simpl;
    try (split; [reflexivity | now left]);
    (destruct (writeFault w); simpl; [split; [reflexivity | left; now rewrite ?Ed] |]);
    (split; [reflexivity |]); right; exists r, (i :: incoming);
    repeat split; try discriminate; try reflexivity; exact Ep.
Qed.

End LegacyFacts.

(** X24. The merge of the earlier service adds and never touches: what
    it saves is, up to the order, the stored posts followed by incoming
    records whose [id] was not stored, each such [id] once; every
    incoming [id] is in the result; stored [id]s that are pairwise
    different stay so; the result is in the order of the sort; and
    merging the same incoming records a second time changes nothing. *)
Theorem legacy_merge_adds_unseen
    {D : DateModel} (posts incoming : list Post) :
  (exists fresh,
      Permutation (Legacy.mergeIncoming posts incoming) (posts ++ fresh)
      /\ (forall p, In p fresh -> In p incoming)
      /\ (forall p, In p fresh -> ~ In (id p) (map id posts))
      /\ NoDup (map id fresh))
  /\ (forall p, In p incoming ->
        In (id p) (map id (Legacy.mergeIncoming posts incoming)))
  /\ (NoDup (map id posts) ->
      NoDup (map id (Legacy.mergeIncoming posts incoming)))
  /\ inOrder laterPost (Legacy.mergeIncoming posts incoming)
  /\ Legacy.mergeIncoming (Legacy.mergeIncoming posts incoming) incoming
     = Legacy.mergeIncoming posts incoming.
Proof.
  destruct (mergeIncoming_spec posts incoming)
    as (fresh & H1 & H2 & H3 & H4 & H5).
  split; [exists fresh; now repeat split |].
  split; [exact H5 |].
  split; [apply mergeIncoming_NoDup |].
  split; [| apply mergeIncoming_again].
  unfold Legacy.mergeIncoming. cbv zeta.
  apply jsSort_inOrder. apply laterPost_asym.
Qed.

(** X25. A poll of the earlier service asks the feed once, and never
    loses a stored record: the document is left as it is, or the feed
    was read, gave records, and the document now holds the merge of the
    stored posts with them; in both cases every record stored before is
    stored after, as it was. *)
Theorem legacy_pollFeed_keeps_records
    {D : DateModel} (FEED_URL : string) (w : World) :
  requested (Legacy.pollFeed FEED_URL w) = requested w ++ [FEED_URL]
  /\ (disk (Legacy.pollFeed FEED_URL w) = disk w
      \/ exists r incoming,
           hd_error (net w) = Some (Reply r)
           /\ parseFeed (resp_body r) = Js.Ok incoming
           /\ incoming <> []
           /\ disk (Legacy.pollFeed FEED_URL w)
              = Document (Some (Legacy.mergeIncoming (stored (disk w))
                                                     incoming)))
  /\ forall p, In p (stored (disk w)) ->
               In p (stored (disk (Legacy.pollFeed FEED_URL w))).
Proof.
  destruct (legacy_pollFeed_disk FEED_URL w) as [Hr Hd].
  split; [exact Hr |]. split; [exact Hd |].
  intros p Hp. destruct Hd as [-> | (r & incoming & _ & _ & _ & ->)];
    [exact Hp |].
  simpl. destruct (mergeIncoming_spec (stored (disk w)) incoming)
    as (fresh & Hperm & _).
  eapply Permutation_in; [symmetry; exact Hperm |].
  apply in_or_app. now left.
Qed.

(** ** The posts route *)

Section PostsRoute.
Context {D : DateModel} (cfg : Config).

Lemma getPosts_stored (s : Server) (xs : list Post) :
  disk (world s) = Document (Some (normalizePosts xs)) ->
  getPosts s = (Js.Ok (normalizePosts xs), s).
Proof.
  intros H. unfold getPosts, loadData. rewrite H.
  rewrite normalizePosts_again. now destruct s.
Qed.

End PostsRoute.

(** X26. After a poll that merged, [GET /posts] returns the stored
    document as it is, the normalised merge of what was stored and what
    was fetched, and changes nothing: normalising it again on the way
    out has no effect. *)
Theorem getPosts_after_poll
    {D : DateModel} (cfg : Config) (w w1 : World) (incoming : list Post)
    (attempt : Z) :
  fetchIncoming cfg w = (Js.Ok incoming, w1) ->
  incoming <> [] -> readable (disk w) -> writeFault w = None ->
  getPosts (mkServer (pollFeed cfg w) attempt)
  = (Js.Ok (normalizePosts (stored (disk w) ++ incoming)),
     mkServer (pollFeed cfg w) attempt).
Proof.
  intros Hf Hne Hr Hw.
  destruct (pollFeed_merges cfg w w1 incoming Hf Hne Hr Hw) as [Hd _].
  now apply getPosts_stored.
Qed.

(** ** The ISO instance of the dates keeps the laws *)

Section IsoFacts.
Import Iso.
Local Open Scope Z_scope.

Lemma eraFields_bounds (doe : Z) :
  0 <= doe < 146097 ->
  let '(yoe, doy, mp, d) := eraFields doe in
  0 <= yoe <= 399 /\ 0 <= mp <= 11 /\ 1 <= d <= 31
  /\ doy = (153 * mp + 2) / 5 + d - 1
  /\ doe = yoe * 365 + yoe / 4 - yoe / 100 + doy.
Proof.
  intros H. unfold eraFields. cbv zeta.
  assert (Hy : 0 <= (doe - doe / 1460 + doe / 36524 - doe / 146096) / 365
               <= 399) by (Z.div_mod_to_equations; lia).
  split; [exact Hy |].
  set (yoe := (doe - doe / 1460 + doe / 36524 - doe / 146096) / 365) in *.
  assert (Hd : 0 <= doe - (365 * yoe + yoe / 4 - yoe / 100) <= 365)
    by (subst yoe; Z.div_mod_to_equations; lia).
  set (doy := doe - (365 * yoe + yoe / 4 - yoe / 100)) in *.
  split; [Z.div_mod_to_equations; lia |].
  split; [Z.div_mod_to_equations; lia |].
  split; [lia |]. subst doy. lia.
Qed.

(** the calendar date of a day number is that day *)
Lemma daysFromCivil_civilFromDays (z : Z) :
  let '(y, m, d) := civilFromDays z in
  daysFromCivil y m d = z /\ 1 <= m <= 12 /\ 1 <= d <= 31
  /\ (z + 719468) / 146097 * 400 <= y <= (z + 719468) / 146097 * 400 + 400.
Proof.
  unfold civilFromDays. cbv zeta.
  pose proof (Z.mod_pos_bound (z + 719468) 146097 eq_refl) as Hdoe.
  pose proof (eraFields_bounds _ Hdoe) as Hb.
  pose proof (Z.div_mod (z + 719468) 146097 ltac:(lia)) as Hz.
  destruct (eraFields ((z + 719468) mod 146097)) as [[[yoe doy] mp] d].
  destruct Hb as (Hyoe & Hmp & Hd & Hdoy & Hdoe').
  set (era := (z + 719468) / 146097) in *.
  destruct (Z.ltb_spec mp 10) as [Hlt | Hge].
  - (* March to December *)
    destruct (Z.leb_spec (mp + 3) 2) as [? | _]; [lia |].
    split; [| lia]. unfold daysFromCivil. cbv zeta.
    destruct (Z.leb_spec (mp + 3) 2) as [? | _]; [lia |].
    destruct (Z.ltb_spec 2 (mp + 3)) as [_ | ?]; [| lia].
    replace ((yoe + era * 400) / 400) with era
      by (Z.div_mod_to_equations; lia).
    replace (mp + 3 - 3) with mp by lia.
    replace (yoe + era * 400 - era * 400) with yoe by lia. lia.
  - (* January and February, of the next year *)
    destruct (Z.leb_spec (mp - 9) 2) as [_ | ?]; [| lia].
    split; [| lia]. unfold daysFromCivil. cbv zeta.
    destruct (Z.leb_spec (mp - 9) 2) as [_ | ?]; [| lia].
    destruct (Z.ltb_spec 2 (mp - 9)) as [? | _]; [lia |].
    replace (yoe + era * 400 + 1 - 1) with (yoe + era * 400) by lia.
    replace ((yoe + era * 400) / 400) with era
      by (Z.div_mod_to_equations; lia).
    replace (mp - 9 + 9) with mp by lia.
    replace (yoe + era * 400 - era * 400) with yoe by lia. lia.
Qed.

Lemma digitChar_isDigit (d : Z) :
  0 <= d < 10 -> Str.isDigit (digitChar d) = true /\ digitVal (digitChar d) = d.
Proof.
  intros H.
  assert (C : d = 0 \/ d = 1 \/ d = 2 \/ d = 3 \/ d = 4 \/ d = 5 \/ d = 6
              \/ d = 7 \/ d = 8 \/ d = 9) by lia.
  repeat destruct C as [-> | C]; try subst d; split; reflexivity.
Qed.

Lemma takeDigits_app (k j : nat) (acc : Z) (s : string) :
  takeDigits (k + j) acc s
  = match takeDigits k acc s with
    | Some (a, s') => takeDigits j a s'
    | None => None
    end.
Proof.
  revert acc s. induction k as [| k IH]; intros acc s; simpl; [reflexivity |].
  destruct s as [| c r]; [reflexivity |].
  destruct (Str.isDigit c); [apply IH | reflexivity].
Qed.

Lemma string_app_assoc (a b c : string) :
  ((a ++ b) ++ c = a ++ (b ++ c))%string.
Proof. induction a; simpl; congruence. Qed.

(** what [pad] writes, [takeDigits] reads *)
Lemma takeDigits_pad (k : nat) (n acc : Z) (rest : string) :
  0 <= n ->
  takeDigits k acc (pad k n ++ rest)%string
  = Some (acc * 10 ^ Z.of_nat k + n mod 10 ^ Z.of_nat k, rest).
Proof.
  revert n acc rest. induction k as [| k IH]; intros n acc rest Hn.
  - simpl. rewrite Z.mod_1_r. f_equal. f_equal. lia.
  - cbn [pad]. rewrite string_app_assoc.
    replace (S k) with (k + 1)%nat by lia.
    rewrite takeDigits_app, IH by (apply Z.div_pos; lia).
    cbn [append takeDigits].
    destruct (digitChar_isDigit (n mod 10)) as [-> ->];
      [apply Z.mod_pos_bound; lia |].
    f_equal. f_equal.
    replace (Z.of_nat (k + 1)) with (Z.of_nat k + 1) by lia.
    rewrite Z.pow_add_r by lia. change (10 ^ 1) with 10.
    rewrite (Z.mul_comm (10 ^ Z.of_nat k) 10).
    rewrite (Z.rem_mul_r n 10 (10 ^ Z.of_nat k)) by lia. lia.
Qed.

Lemma takeDigits_pad_exact (k : nat) (n : Z) (rest : string) :
  0 <= n < 10 ^ Z.of_nat k ->
  takeDigits k 0 (pad k n ++ rest)%string = Some (n, rest).
Proof.
  intros H. rewrite takeDigits_pad by lia.
  rewrite Z.mod_small by lia. reflexivity.
Qed.

Lemma pad_head (k : nat) (n : Z) (rest : string) :
  exists d r, 0 <= d < 10 /\ (pad (S k) n ++ rest)%string = String (digitChar d) r.
Proof.
  revert n rest. induction k as [| k IH]; intros n rest.
  - exists (n mod 10), rest. split; [apply Z.mod_pos_bound; lia | reflexivity].
  - cbn [pad]. rewrite string_app_assoc.
    destruct (IH (n / 10) (String (digitChar (n mod 10)) "" ++ rest)%string)
      as (d & r & Hd & E).
    exists d, r. split; [assumption |]. exact E.
Qed.

Lemma digitChar_not_sign (d : Z) :
  0 <= d < 10 ->
  Ascii.eqb (digitChar d) "+" = false /\ Ascii.eqb (digitChar d) "-" = false.
Proof.
  intros H.
  assert (C : d = 0 \/ d = 1 \/ d = 2 \/ d = 3 \/ d = 4 \/ d = 5 \/ d = 6
              \/ d = 7 \/ d = 8 \/ d = 9) by lia.
  repeat destruct C as [-> | C]; try subst d; split; reflexivity.
Qed.

Lemma takeYear_yearText (y : Z) (rest : string) :
  -999999 <= y <= 999999 ->
  takeYear (yearText y ++ rest)%string = Some (y, rest).
Proof.
  intros Hy. unfold yearText.
  destruct (Z.leb_spec 0 y) as [H0 | H0];
    destruct (Z.leb_spec y 9999) as [H1 | H1]; cbn [andb].
  - destruct (pad_head 3 y rest) as (d & r & Hd & E).
    unfold takeYear. rewrite E.
    destruct (digitChar_not_sign d Hd) as [-> ->]. rewrite <- E.
    apply takeDigits_pad_exact. simpl. lia.
  - destruct (Z.ltb_spec y 0) as [? | _]; [lia |].
    rewrite Z.abs_eq by lia.
    change (takeDigits 6 0 (pad 6 y ++ rest)%string = Some (y, rest)).
    apply takeDigits_pad_exact. simpl. lia.
  - destruct (Z.ltb_spec y 0) as [_ | ?]; [| lia].
    change (bindO (takeDigits 6 0 (pad 6 (Z.abs y) ++ rest)%string)
                  (fun p => let '(y0, r') := p in
                            if y0 =? 0 then None else Some (- y0, r'))
            = Some (y, rest)).
    rewrite takeDigits_pad_exact by (simpl; lia). cbn [bindO].
    destruct (Z.eqb_spec (Z.abs y) 0) as [? | _]; [lia |].
    f_equal. f_equal. lia.
  - lia.
Qed.

Lemma time_of_day (ms : Z) :
  0 <= ms < 86400000 ->
  0 <= ms / 3600000 <= 23
  /\ 0 <= ms / 60000 mod 60 <= 59
  /\ 0 <= ms / 1000 mod 60 <= 59
  /\ 0 <= ms mod 1000 <= 999
  /\ ms / 3600000 * 3600000 + ms / 60000 mod 60 * 60000
     + ms / 1000 mod 60 * 1000 + ms mod 1000 = ms.
Proof. intros H. Z.div_mod_to_equations. lia. Qed.

Lemma parse_inRange (s : string) (t : Z) :
  parse s = Some t -> inRange t = true.
Proof.
  unfold parse, bindO.
  repeat match goal with
         | |- context [match ?x with _ => _ end] =>
             destruct x eqn:?; try discriminate
         end.
  now intros [= <-].
Qed.

Lemma inRange_valid (t : Z) : inRange t = true <-> validTime t.
Proof.
  unfold inRange, validTime. rewrite andb_true_iff, !Z.leb_le. tauto.
Qed.

Lemma parse_toISOString (t : Z) :
  validTime t -> parse (toISOString t) = Some t.
Proof.
  intros Hv. pose proof Hv as Hr. apply inRange_valid in Hr.
  unfold validTime, maxTime in Hv. unfold toISOString.
  pose proof (daysFromCivil_civilFromDays (t / 86400000)) as Hc.
  destruct (civilFromDays (t / 86400000)) as [[y m] d].
  destruct Hc as (Hdays & Hm & Hd & Hy).
  pose proof (Z.mod_pos_bound t 86400000 eq_refl) as Hms.
  pose proof (time_of_day _ Hms) as (Hh & Hmi & Hs & Hmm & Hsum).
  pose proof (Z.div_mod t 86400000 ltac:(lia)) as Ht.
  assert (Hyr : -999999 <= y <= 999999)
    by (Z.div_mod_to_equations; lia).
  unfold parse.
  rewrite takeYear_yearText by assumption. cbn [bindO append expect Ascii.eqb Bool.eqb].
  rewrite takeDigits_pad_exact by (simpl; lia). cbn [bindO append expect Ascii.eqb Bool.eqb].
  rewrite takeDigits_pad_exact by (simpl; lia). cbn [bindO append expect Ascii.eqb Bool.eqb].
  rewrite takeDigits_pad_exact by (simpl; lia). cbn [bindO append expect Ascii.eqb Bool.eqb].
  rewrite takeDigits_pad_exact by (simpl; lia). cbn [bindO append expect Ascii.eqb Bool.eqb].
  rewrite takeDigits_pad_exact by (simpl; lia). cbn [bindO append expect Ascii.eqb Bool.eqb takeMillis].
  rewrite takeDigits_pad_exact by (simpl; lia). cbn [bindO append expect Ascii.eqb Bool.eqb].
  repeat match goal with
         | |- context [?a <=? ?b] =>
             destruct (Z.leb_spec a b); [| lia]
         end.
  cbn [andb]. rewrite Hdays.
  replace (t / 86400000 * 86400000 + t mod 86400000 / 3600000 * 3600000
           + t mod 86400000 / 60000 mod 60 * 60000
           + t mod 86400000 / 1000 mod 60 * 1000 + t mod 86400000 mod 1000)
    with t by lia.
  now rewrite Hr.
Qed.

Lemma parse_valid_iso (s : string) (t : Z) :
  parse s = Some t -> validTime t.
Proof. intros H. now apply inRange_valid, (parse_inRange s). Qed.

End IsoFacts.

Lemma Iso_laws : DateLaws Iso.model.
Proof.
  split.
  - exact parse_valid_iso.
  - exact parse_toISOString.
Qed.


(** ** The properties on the sample data *)

#[local] Existing Instance Iso.model.

Section Samples.

Lemma sample_instants (posts : list Post) :
  forallb (fun p => negb (JsDate.isNaN (instant p))) posts = true ->
  forall p, In p posts -> instant p <> None.
Proof.
  intros H p Hin. rewrite forallb_forall in H. specialize (H p Hin).
  destruct (instant p); [discriminate | discriminate H].
Qed.

End Samples.

Lemma canonicalId_idempotent_sample :
  canonicalId (setId Sample.second (canonicalId Sample.second)) = "123"
  /\ canonicalId Sample.first = "123".
Proof.
  split.
  - rewrite (proj1 canonicalId_idempotent). reflexivity.
  - apply (proj2 canonicalId_idempotent Sample.first "123");
      [reflexivity | discriminate | reflexivity].
Defined.

Lemma merge_keeps_later_timestamp_sample :
  exists r r',
    normalizePosts (D := Iso.model) [Sample.first; Sample.second] = [r]
    /\ normalizePosts (D := Iso.model) [Sample.second; Sample.first] = [r']
    /\ timestamp r = Some "2024-01-01T00:05:00.000Z"
    /\ timestamp r' = Some "2024-01-01T00:05:00.000Z".
Proof.
  apply (proj1 (merge_keeps_later_timestamp (D := Iso.model))
           Sample.first Sample.second).
  - reflexivity.
  - discriminate.
  - vm_compute. reflexivity.
Defined.

Lemma merge_fills_optional_fields_sample :
  exists r,
    normalizePosts (D := Iso.model) [Sample.first; Sample.second] = [r]
    /\ url r = url Sample.first
    /\ uri r = uri Sample.second
    /\ content r = content Sample.first
    /\ extra r = extra Sample.first.
Proof.
  destruct (merge_fills_optional_fields (D := Iso.model)
              Sample.first Sample.second eq_refl)
    as (r & Hr & U1 & _ & _ & I2 & C1 & _ & _ & _ & _ & X & _).
  - discriminate.
  - exists r. split; [exact Hr |].
    split; [apply U1; reflexivity |].
    split; [apply I2; reflexivity |].
    split; [apply C1; reflexivity | exact X].
Defined.

(** C3, as stated, fails: two records of one identity and one instant
    that differ in [url] and [content] give, in the one order and in the
    other, canonical sets that are not the same. *)
Lemma normalizePosts_order_matters :
  Permutation [Sample.first; Sample.edited] [Sample.edited; Sample.first]
  /\ normalizePosts (D := Iso.model) [Sample.first; Sample.edited]
     = [Sample.first]
  /\ normalizePosts (D := Iso.model) [Sample.edited; Sample.first]
     = [Sample.edited]
  /\ ~ Permutation
         (normalizePosts (D := Iso.model) [Sample.first; Sample.edited])
         (normalizePosts (D := Iso.model) [Sample.edited; Sample.first]).
Proof.
  split; [apply perm_swap |].
  split; [reflexivity |]. split; [reflexivity |].
  change (~ Permutation [Sample.first] [Sample.edited]).
  intros H. apply Permutation_length_1_inv in H. discriminate H.
Qed.

Lemma normalizePosts_timeline_sample :
  sameTimeline
    (normalizePosts (D := Iso.model) [Sample.first; Sample.edited])
    (normalizePosts (D := Iso.model) [Sample.edited; Sample.first])
  /\ Permutation
       (normalizePosts (D := Iso.model)
          (normalizePosts (D := Iso.model) [Sample.first; Sample.second]
           ++ [Sample.other]))
       (normalizePosts (D := Iso.model)
          ([Sample.first; Sample.second] ++ [Sample.other])).
Proof.
  split.
  - apply (proj1 (normalizePosts_timeline_order_independent (D := Iso.model))).
    apply perm_swap.
  - apply (proj2 (normalizePosts_timeline_order_independent (D := Iso.model))).
Defined.


Lemma computeHourly_sample :
  let posts := [Sample.first; Sample.other; Sample.second; Sample.early] in
  exists buckets,
    computeHourly (D := Iso.model) posts = Js.Ok buckets
    /\ buckets = [mkBucket "2023-12-31T23:00:00.000Z" 1;
                  mkBucket "2024-01-01T00:00:00.000Z" 2]
    /\ list_sum (map count buckets)
       = List.length (normalizePosts (D := Iso.model) posts)
    /\ (forall b, In b buckets ->
          exists h, validTime h /\ hour b = Iso.toISOString h
                    /\ (h mod 3600000 = 0)%Z
                    /\ count b
                       = List.length
                           (filter (fun r =>
                                      match instant (D := Iso.model) r with
                                      | Some t => (h <=? t)%Z
                                                  && (t <? h + 3600000)%Z
                                      | None => false
                                      end)
                                   (normalizePosts (D := Iso.model) posts))
                    /\ 1 <= count b)
    /\ NoDup (map hour buckets).
Proof.
  cbv zeta.
  destruct (computeHourly_partitions_posts (D := Iso.model) (L := Iso_laws)
              [Sample.first; Sample.other; Sample.second; Sample.early])
    as (buckets & Hb & Hsum & Hin & _ & Hnd & _).
  - apply sample_instants. vm_compute. reflexivity.
  - exists buckets. split; [exact Hb |].
    split; [| split; [exact Hsum | split; [exact Hin | exact Hnd]]].
    vm_compute in Hb. now injection Hb as <-.
Defined.

Lemma decoders_throw_sample :
  parseStatusList (D := Iso.model)
    (Statuses [Sample.goodStatus; Sample.badStatus])
  = Js.Throw invalidTime
  /\ parseFeed (D := Iso.model) Sample.badFeed = Js.Throw invalidTime.
Proof.
  split.
  - apply (proj1 (decoders_throw_on_unparseable_timestamp (D := Iso.model))
             _ Sample.badStatus).
    + right. now left.
    + repeat split.
  - apply (proj2 (decoders_throw_on_unparseable_timestamp (D := Iso.model))
             _ "<guid>124</guid><pubDate>not a date</pubDate>").
    + vm_compute. right. now left.
    + repeat split.
Defined.

(** C2, as stated, fails: the polling service meets a 429 and ends its
    fetch with an error, without a second request; the cycle's poll
    writes the error to the console. *)
Lemma fetchStatusPages_aborts_on_429 :
  let w := Sample.world [Reply (Sample.reply 429 (Some "2"));
                         Reply (Sample.reply 200 None)] in
  fst (fetchStatusPages (D := Iso.model) Sample.config w)
  = Js.Throw (Js.Error "Feed request failed: 429")
  /\ requested (snd (fetchStatusPages (D := Iso.model) Sample.config w))
     = [SOURCE_URL Sample.config]
  /\ console (pollFeed (D := Iso.model) Sample.config w)
     = [Js.Error "Feed request failed: 429"].
Proof. vm_compute. repeat split. Qed.

Lemma fetch_loops_sample :
  let tenthMore :=
    ExportTool.mkOptions (ExportTool.baseUrl Sample.options) 250 750
      (S754_finite false 4953959590107546 (-52)) (Some 15000%Z) 0 in
  let linked :=
    mkResponse 200 (Some "application/json")
      (Some (linksText Scenario.links)) None "[]"
      (Some (Statuses [Sample.goodStatus])) in
  (exists st',
      ExportTool.run (D := Iso.model) Sample.options
        [Reply (Sample.reply 429 (Some "2")); Reply (Sample.reply 200 None)]
        (ExportTool.initial Sample.options)
      = ExportTool.run (D := Iso.model) Sample.options
          [Reply (Sample.reply 200 None)] st'
      /\ ExportTool.pageUrl st' = ExportTool.baseUrl Sample.options
      /\ ExportTool.page st' = 0%Z
      /\ ExportTool.slept st' = [Num.Fin 2000]
      /\ ExportTool.currentDelay st' = Num.Fin 1125)
  /\ (exists st',
         ExportTool.run (D := Iso.model) tenthMore
           [Reply (Sample.reply 429 None)] (ExportTool.initial tenthMore)
         = ExportTool.run (D := Iso.model) tenthMore [] st'
         /\ ExportTool.slept st' = [Num.Fin 750]
         /\ ExportTool.currentDelay st' = Num.Fin 826)
  /\ ExportTool.retryAfterMs (Some "9007199254740993")
     = Num.Fin 9007199254740992000
  /\ ExportTool.retryAfterMs (Some "120") = Num.Fin 120000
  /\ ExportTool.retryAfterMs (Some "soon") = Num.Fin 0
  /\ ExportTool.retryAfterMs (Some "-5") = Num.Fin 0
  /\ Num.ceil (SFmul 53 1024 (Num.toFloat (Num.Fin 751))
                     ExportTool.DEFAULT_BACKOFF_FACTOR)
     = Num.Fin 1127
  /\ (exists st',
         ExportTool.run (D := Iso.model) Sample.options
           [Reply (Sample.reply 503 None)] (ExportTool.initial Sample.options)
         = ExportTool.Aborted
             (Js.Error "Request failed (503) for https://truthsocial.com/api/v1/accounts/107780257626128497/statuses")
             st'
         /\ ExportTool.rows st' = []
         /\ ExportTool.slept st' = [])
  /\ (exists w',
         fetchStatusPages (D := Iso.model) Sample.config
           (Sample.world [Reply (Sample.reply 429 (Some "2"))])
         = (Js.Throw (Js.Error "Feed request failed: 429"), w'))
  /\ fst (fetchStatusPages (D := Iso.model) Sample.config
            (Sample.world [Reply linked; Reply (Sample.reply 429 (Some "2"));
                           Reply (Sample.reply 200 None)]))
     = Js.Throw (Js.Error "Feed request failed: 429").
Proof.
  cbv zeta.
  pose proof (fetch_loops_on_http_status (D := Iso.model))
    as (H429 & Hfail & _ & _ & Hretry & _ & _ & _ & _ & Hprod & _ & Hsvc
        & Hany).
  repeat match goal with |- _ /\ _ => split end.
  - destruct (H429 Sample.options (ExportTool.initial Sample.options)
                (Sample.reply 429 (Some "2")) [Reply (Sample.reply 200 None)]
                eq_refl eq_refl)
      as (st' & Hrun & Hurl & Hpage & _ & _ & Hslept & Hdelay).
    exists st'. split; [exact Hrun |]. split; [exact Hurl |].
    split; [exact Hpage |].
    split; [rewrite Hslept | rewrite Hdelay]; vm_compute; reflexivity.
  - match goal with
    | |- exists st', ExportTool.run ?o _ _ = _ /\ _ =>
        destruct (H429 o (ExportTool.initial o) (Sample.reply 429 None) []
                       eq_refl eq_refl)
          as (st' & Hrun & _ & _ & _ & _ & Hslept & Hdelay)
    end.
    exists st'. split; [exact Hrun |].
    split; [rewrite Hslept | rewrite Hdelay]; vm_compute; reflexivity.
  - pose proof (Hretry (Some "9007199254740993")) as H.
    assert (E : parseInt (Js.toStr (Js.or (Some "9007199254740993")
                                          (Some "0")))
                = Some 9007199254740993%Z) by (vm_compute; reflexivity).
    rewrite E in H. destruct H as (_ & H & _).
    rewrite (H eq_refl). vm_compute. reflexivity.
  - pose proof (Hretry (Some "120")) as H.
    assert (E : parseInt (Js.toStr (Js.or (Some "120") (Some "0")))
                = Some 120%Z) by (vm_compute; reflexivity).
    rewrite E in H. destruct H as (_ & _ & H).
    apply H; reflexivity.
  - pose proof (Hretry (Some "soon")) as H.
    assert (E : parseInt (Js.toStr (Js.or (Some "soon") (Some "0"))) = None)
      by (vm_compute; reflexivity).
    rewrite E in H. exact H.
  - pose proof (Hretry (Some "-5")) as H.
    assert (E : parseInt (Js.toStr (Js.or (Some "-5") (Some "0")))
                = Some (-5)%Z) by (vm_compute; reflexivity).
    rewrite E in H. destruct H as (H & _).
    apply H. discriminate.
  - apply (Hprod 751%Z 3%positive 6755399441055744%positive 51 1);
      [reflexivity | reflexivity | reflexivity | reflexivity | lia].
  - destruct (Hfail Sample.options (ExportTool.initial Sample.options)
                (Sample.reply 503 None) [] eq_refl eq_refl)
      as (st' & Hrun & Hrows & Hslept); [discriminate |].
    exists st'. split; [exact Hrun |]. split; assumption.
  - destruct (Hsvc Sample.config
                (Sample.world [Reply (Sample.reply 429 (Some "2"))])
                (Sample.reply 429 (Some "2")) [])
      as (w' & Hw & _); try reflexivity; try discriminate.
    exists w'. exact Hw.
  - match goal with
    | |- fst (fetchStatusPages _ ?w) = _ =>
        destruct (Hany Sample.config w) as (k & Hlen & _ & Hpage)
    end.
    vm_compute in Hlen. subst k.
    apply (Hpage 1 (Sample.reply 429 (Some "2")));
      [lia | reflexivity | reflexivity].
Defined.

Lemma pollFeed_error_sample :
  let w := Sample.world [Reply (Sample.reply 503 None)] in
  disk (pollFeed (D := Iso.model) Sample.config w)
  = Document (Some [Sample.first])
  /\ lastPollAt (pollFeed (D := Iso.model) Sample.config w) = None
  /\ console (pollFeed (D := Iso.model) Sample.config w)
     = [Js.Error "Feed request failed: 503"].
Proof.
  cbv zeta.
  apply (pollFeed_error_leaves_store (D := Iso.model) Sample.config
           (Sample.world [Reply (Sample.reply 503 None)])
           (mkWorld [] [SOURCE_URL Sample.config] 1704067200000
                    (Document (Some [Sample.first])) None None [])
           (Js.Error "Feed request failed: 503")).
  vm_compute. reflexivity.
Defined.

(** two 429s, the first with [Retry-After: 2], then an empty page: the
    export loop sleeps 2000 ms, then 1125 ms, asks three times for the
    same page, and ends with the base delay *)
Example export_backoff_scenario :
  ExportTool.run (D := Iso.model) Sample.options
    [Reply (Sample.reply 429 (Some "2")); Reply (Sample.reply 429 (Some "0"));
     Reply (Sample.reply 200 None)]
    (ExportTool.initial Sample.options)
  = ExportTool.Finished
      (ExportTool.mkState (ExportTool.baseUrl Sample.options) 1 []
         (Num.Fin 750) []
         [ExportTool.baseUrl Sample.options;
          ExportTool.baseUrl Sample.options;
          ExportTool.baseUrl Sample.options]
         [Num.Fin 2000; Num.Fin 1125]).
Proof. vm_compute. reflexivity. Qed.

(** ** The further properties on the sample data *)

Lemma sample_storable (posts : list Post) :
  forallb (fun p => Str.nonEmpty (canonicalId p)
                    && negb (JsDate.isNaN (instant p))) posts = true ->
  Forall storable posts.
Proof.
  intros H. apply Forall_forall. intros p Hp.
  rewrite forallb_forall in H. specialize (H p Hp).
  apply andb_true_iff in H as [H1 H2]. split.
  - now apply nonEmpty_true.
  - destruct (instant p); [discriminate | discriminate H2].
Qed.

Lemma canonicalId_permalink_sample :
  canonicalId
    (setId Sample.first
           "https://truthsocial.com/@realDonaldTrump/posts/123?lang=en")
  = "123"
  /\ canonicalId (setId Sample.first "123") = "123".
Proof.
  apply (canonicalId_permalink
           Sample.first "https://truthsocial.com/@realDonaldTrump/posts"
           "123" "?lang=en");
    [reflexivity | discriminate | reflexivity | reflexivity].
Defined.

Lemma normalizePosts_ascending_sample :
  StronglySorted (fun a b => notLater (instant a) (instant b))
                 (normalizePosts [Sample.other; Sample.first; Sample.early]).
Proof.
  apply (normalizePosts_ascending (D := Iso.model)).
  apply sample_instants. reflexivity.
Defined.

Lemma normalizePosts_first_non_empty_wins_sample :
  let xs := [Sample.first; Sample.second] in
  exists p0,
    firstOf (canonicalId Scenario.merged) xs = Some p0
    /\ extra Scenario.merged = extra p0
    /\ url Scenario.merged
       = match firstWith url (canonicalId Scenario.merged) xs with
         | Some p => url p
         | None => url p0
         end
    /\ uri Scenario.merged
       = match firstWith uri (canonicalId Scenario.merged) xs with
         | Some p => uri p
         | None => uri p0
         end
    /\ content Scenario.merged
       = match firstWith content (canonicalId Scenario.merged) xs with
         | Some p => content p
         | None => content p0
         end.
Proof.
  cbv zeta.
  apply (normalizePosts_first_non_empty_wins
           (D := Iso.model) [Sample.first; Sample.second] Scenario.merged).
  vm_compute. left. reflexivity.
Defined.


Lemma parseFeed_records_storable_sample :
  let posts :=
    [mkPost (Some "https://truthsocial.com/@realDonaldTrump/123")
            (Some "2024-01-01T00:00:00.000Z") None None None []] in
  List.length posts <= List.length (feedChunks Scenario.feed)
  /\ forall r, In r posts ->
       Js.truthy (id r) = true /\ storable r
       /\ (exists t, timestamp r = Some (to_iso t))
       /\ url r = None /\ uri r = None /\ content r = None /\ extra r = [].
Proof.
  cbv zeta.
  apply (parseFeed_records_storable (D := Iso.model) Scenario.feed).
  vm_compute. reflexivity.
Defined.

Lemma pollFeed_success_merges_sample :
  let w := Sample.world [Reply Scenario.page] in
  disk (pollFeed Sample.config w)
  = Document (Some (normalizePosts ([Sample.first] ++ Scenario.incoming)))
  /\ lastPollAt (pollFeed Sample.config w) = Some "2024-01-01T00:00:00.000Z".
Proof.
  cbv zeta.
  assert (Hf : fetchIncoming Sample.config (Sample.world [Reply Scenario.page])
               = (Js.Ok Scenario.incoming, Scenario.fetched))
    by (vm_compute; reflexivity).
  destruct (pollFeed_success_merges (D := Iso.model) _ _ _ _ Hf) as [H _].
  destruct H as (H1 & H2 & _); [discriminate | exact I | reflexivity |].
  split; [exact H1 | exact H2].
Defined.

Lemma pollFeed_storage_failure_sample :
  disk (pollFeed Sample.config Scenario.readOnly) = disk Scenario.readOnly
  /\ lastPollAt (pollFeed Sample.config Scenario.readOnly)
     = lastPollAt Scenario.readOnly
  /\ console (pollFeed Sample.config Scenario.readOnly)
     = console Scenario.readOnly ++ [Js.Error "EACCES"].
Proof.
  apply (pollFeed_storage_failure
           (D := Iso.model) Sample.config Scenario.readOnly
           (mkWorld [] [SOURCE_URL Sample.config] 1704067200000
                    (Document (Some [Sample.first]))
                    (Some (Js.Error "EACCES")) None [])
           Scenario.incoming (Js.Error "EACCES")).
  - vm_compute. reflexivity.
  - discriminate.
  - right. split; [exact I | reflexivity].
Defined.

Lemma pollFeed_keeps_store_storable_sample :
  let w := Sample.world [Reply Scenario.page] in
  Forall storable (stored (disk (pollFeed Sample.config w)))
  /\ exists buckets,
       computeHourly (stored (disk (pollFeed Sample.config w)))
       = Js.Ok buckets.
Proof.
  cbv zeta. apply (pollFeed_keeps_store_storable (D := Iso.model)).
  apply sample_storable. reflexivity.
Defined.

Lemma ensureSeeded_throttled_sample :
  ensureSeeded Sample.config Scenario.server
  = (Js.Ok [Sample.first], Scenario.server).
Proof.
  apply (proj1 (ensureSeeded_throttled
                  (D := Iso.model) Sample.config Scenario.server)).
  - left. discriminate.
  - exact I.
Defined.

Lemma routes_agree_on_total_sample :
  (latest Scenario.body = None <-> totalPosts Scenario.body = 0)
  /\ list_sum (map count [mkBucket "2024-01-01T00:00:00.000Z" 1])
     = totalPosts Scenario.body.
Proof.
  destruct (routes_agree_on_total
              (D := Iso.model) Sample.config Scenario.server
              Scenario.server Scenario.server Scenario.body
              [mkBucket "2024-01-01T00:00:00.000Z" 1]) as [H1 H2].
  - vm_compute. reflexivity.
  - split; [exact H1 |]. apply H2. vm_compute. reflexivity.
Defined.

Lemma parseLinkHeader_reads_links_sample :
  JsMap.get "next" (parseLinkHeader (Some (linksText Scenario.links)))
  = lastRel "next" Scenario.links.
Proof.
  apply parseLinkHeader_reads_links.
  repeat constructor; try discriminate.
Defined.

Lemma parseLinkHeader_never_keeps_comma_sample :
  let url := "https://truthsocial.com/api/v1/accounts/1/statuses?max_id=5" in
  url <> "" /\ hasChar "," url = false /\ hasChar ">" url = false
  /\ "next" <> "" /\ hasChar "," "next" = false
  /\ hasChar dquote "next" = false.
Proof.
  cbv zeta.
  apply (parseLinkHeader_never_keeps_comma
           (Some (linksText Scenario.links))).
  vm_compute. reflexivity.
Defined.

Lemma extractTag_reads_back_sample :
  let value := " https://truthsocial.com/@realDonaldTrump/123 " in
  extractTag "guid" ("<guid>" ++ value ++ "</guid>" ++ "<link>x</link>")
  = Str.trim value
  /\ extractTag "guid"
       ("<guid>" ++ cdata value ++ "</guid>" ++ "<link>x</link>")
     = Str.trim value.
Proof.
  cbv zeta.
  destruct (extractTag_reads_back
              "guid" " https://truthsocial.com/@realDonaldTrump/123 "
              "<link>x</link>") as [H1 H2].
  - left. reflexivity.
  - reflexivity.
  - split; [exact H1 | exact (H2 eq_refl)].
Defined.


Lemma updatePostCounter_counts_posts_sample :
  updatePostCounter Scenario.buckets 1704067200000 1704153600000
  = List.length
      (filter (fun r => match hourOf r with
                        | Some h => (1704067200000 <=? h)%Z
                                    && (h <=? 1704153600000)%Z
                        | None => false
                        end)
              (normalizePosts Scenario.posts)).
Proof.
  apply (updatePostCounter_counts_posts (D := Iso.model) (L := Iso_laws)).
  - apply sample_storable. reflexivity.
  - vm_compute. reflexivity.
Defined.

Lemma getPosts_after_poll_sample :
  let w := Sample.world [Reply Scenario.page] in
  getPosts (mkServer (pollFeed Sample.config w) 0)
  = (Js.Ok (normalizePosts ([Sample.first] ++ Scenario.incoming)),
     mkServer (pollFeed Sample.config w) 0).
Proof.
  cbv zeta.
  apply (getPosts_after_poll
           (D := Iso.model) Sample.config
           (Sample.world [Reply Scenario.page]) Scenario.fetched
           Scenario.incoming 0).
  - vm_compute. reflexivity.
  - discriminate.
  - exact I.
  - reflexivity.
Defined.
